(** * Active shape model: alignment, shape variance and profile sampling

    A shallow embedding of [src/ActiveShapeModel.py] (classes [ReferentModel],
    [VarianceModel] and [Sampler]).

    Numbers.  The program computes with IEEE doubles.  Where the result is
    truncated to a pixel (the sample points of the sampler) they are doubles
    here as well: binary64 values with the operations of [SpecFloat], rounded
    to nearest, ties to even.  Elsewhere they are idealised as exact numbers:
    rationals ([Q]) for the intensities of a profile and for the variance
    model, which stay executable, and reals ([R]) where the code takes square
    roots and rotates (the Procrustes alignment), with [0.1] read as
    [1/10].

    Control.  A Python exception is a value of [exn]; a function that can
    raise returns a [result].  A [while] loop takes a fuel argument and the
    theorems about it say which fuel is enough.

    Objects.  The program transforms its shape objects in place.  Here an
    operation returns the object afterwards; the objects of a collection are
    distinct, and so are the mean shape and its previous value.

    What is not in the sources.  The modules [utils] and [DataManipulations]
    are imported but absent.  Where a theorem does not depend on what such a
    function computes, the function is a [Variable] of a section; where it
    does, the function is defined from the words of the specification, and
    the comment of the definition says so.  The routines of numpy and
    scikit-learn are variables as well. *)

From Stdlib Require Import String List Sorted Permutation ZArith QArith Qabs Reals Lia Psatz Bool
  SpecFloat.
Import ListNotations.

(** ** Python exceptions and results

    [InvalidInput] is not a Python exception: it is the error the
    specification names for degenerate input, raised by code that is not in
    the sources. *)

Inductive exn : Type :=
| IndexError
| ValueError
| ZeroDivisionError
| AttributeError
| OverflowError
| LinAlgError
| InvalidInput.

Inductive result (A : Type) : Type :=
| Ok (a : A)
| Raise (e : exn).

Arguments Ok {A} a.
Arguments Raise {A} e.

Definition bind {A B : Type} (c : result A) (k : A -> result B) : result B :=
  match c with
  | Ok a => k a
  | Raise e => Raise e
  end.

Notation "x <- c ;; k" := (bind c (fun x => k))
  (at level 61, c at next level, right associativity).

(** A [for] loop that appends one computed value per element: the first
    exception stops it. *)
Fixpoint for_each {A B : Type} (f : A -> result B) (l : list A) : result (list B) :=
  match l with
  | [] => Ok []
  | a :: l' =>
      b <- f a ;;
      bs <- for_each f l' ;;
      Ok (b :: bs)
  end.

(** [range(n)] as a list of Python integers. *)
Definition range (n : nat) : list Z := map Z.of_nat (seq 0 n).

(** Indexing a sequence of length [n]: [0 <= i < n] counts from the front,
    [-n <= i < 0] from the back, anything else raises [IndexError]. *)
Definition py_index {A : Type} (l : list A) (i : Z) : result A :=
  let n := Z.of_nat (length l) in
  let j := if (i <? 0)%Z then (n + i)%Z else i in
  if ((0 <=? j)%Z && (j <? n)%Z)%bool then
    match nth_error l (Z.to_nat j) with
    | Some a => Ok a
    | None => Raise IndexError
    end
  else Raise IndexError.

(** How a call that runs [while] loops ends: with a value, with an
    exception, or with the fuel of one of its loops used up. *)
Inductive run (A : Type) : Type :=
| Done (a : A)
| Failed (e : exn)
| NoFuel.

Arguments Done {A} a.
Arguments Failed {A} e.
Arguments NoFuel {A}.

Definition run_bind {A B : Type} (c : run A) (k : A -> run B) : run B :=
  match c with
  | Done a => k a
  | Failed e => Failed e
  | NoFuel => NoFuel
  end.

Definition of_result {A : Type} (r : result A) : run A :=
  match r with
  | Ok a => Done a
  | Raise e => Failed e
  end.

(** ** Doubles *)

Module Double.

(** A binary64 value: a signed zero, an infinity, nan, or [(-1)^s * m * 2^e]. *)
Definition double : Type := spec_float.

Definition prec : Z := 53.
Definition emax : Z := 1024.

Definition add : double -> double -> double := SFadd prec emax.
Definition sub : double -> double -> double := SFsub prec emax.
Definition mul : double -> double -> double := SFmul prec emax.
Definition div : double -> double -> double := SFdiv prec emax.
Definition opp : double -> double := SFopp.

(** The double nearest to an integer. *)
Definition of_Z (n : Z) : double := binary_normalize prec emax n 0 false.

(** [float(n)] on a Python integer, as the product of an integer and a
    float takes it: an integer beyond the doubles raises [OverflowError]. *)
Definition of_int (n : Z) : result double :=
  match of_Z n with
  | S754_infinity _ => Raise OverflowError
  | x => Ok x
  end.

(** [int(x)]: truncation toward zero; [ValueError] on nan, [OverflowError]
    on an infinity. *)
Definition to_int (x : double) : result Z :=
  match x with
  | S754_zero _ => Ok 0%Z
  | S754_nan => Raise ValueError
  | S754_infinity _ => Raise OverflowError
  | S754_finite s m e =>
      let magnitude := Z.shiftl (Zpos m) e in
      Ok (if s then (- magnitude)%Z else magnitude)
  end.

End Double.

(** ** Sampler *)

Module Sampler.
Import Double.

Definition point : Type := (double * double)%type.
Definition pixel : Type := (Z * Z)%type.

Definition pixel_eqb (a b : pixel) : bool :=
  (Z.eqb (fst a) (fst b) && Z.eqb (snd a) (snd b))%bool.

(** [p in l] on a list of integer tuples. *)
Definition pixel_in (p : pixel) (l : list pixel) : bool := existsb (pixel_eqb p) l.

(** [(n1 + n2) / 2] on two-element arrays. *)
Definition average (n1 n2 : point) : point :=
  (div (add (fst n1) (fst n2)) (of_Z 2), div (add (snd n1) (snd n2)) (of_Z 2)).

Section Normals.

(** [utils.normal], which is not part of the sources: the edge normal of two
    points.  Nothing is assumed about it. *)
Variable normal : point -> point -> point.

(** The body of the loop of [_calculate_normals] at index [ind]. *)
Definition normal_at (points : list point) (ind : Z) : result point :=
  a <- py_index points (ind - 1)%Z ;;
  b <- py_index points ind ;;
  c <- py_index points ind ;;
  d <- py_index points ((ind + 1) mod 40)%Z ;;
  Ok (average (normal a b) (normal c d)).

(** [Sampler._calculate_normals]: the new value of [self.normals]. *)
Definition _calculate_normals (points : list point) : result (list point) :=
  for_each (normal_at points) (range (length points)).

(** The normals as the specification words them: edges [(i-1, i)] and
    [(i, (i+1) mod N)] with [N] the number of landmarks. *)
Definition spec_normal_at (points : list point) (ind : Z) : result point :=
  let n := Z.of_nat (length points) in
  a <- py_index points ((ind - 1) mod n)%Z ;;
  b <- py_index points ind ;;
  d <- py_index points ((ind + 1) mod n)%Z ;;
  Ok (average (normal a b) (normal b d)).

Definition spec_normals (points : list point) : result (list point) :=
  for_each (spec_normal_at points) (range (length points)).

End Normals.

(** The literal [0.02]: the double nearest to [1/50],
    [5764607523034235 * 2^-58]. *)
Definition step : double := div (of_Z 1) (of_Z 50).

(** [ind * 0.02 * d]: the integer is converted, then two products. *)
Definition stride (ind : Z) (d : double) : result double :=
  i <- of_int ind ;;
  Ok (mul (mul i step) d).

(** [new_point] of the first loop of [_generate_points] (it fills
    [pos_points], walking against [direction]): the first coordinate is
    computed and truncated, then the second. *)
Definition pos_point (start_point direction : point) (ind : Z) : result pixel :=
  dy <- stride ind (fst direction) ;;
  y <- to_int (sub (fst start_point) dy) ;;
  dx <- stride ind (snd direction) ;;
  x <- to_int (sub (snd start_point) dx) ;;
  Ok (y, x).

(** [new_point] of the second loop (it fills [neg_points]). *)
Definition neg_point (start_point direction : point) (ind : Z) : result pixel :=
  dy <- stride ind (fst direction) ;;
  y <- to_int (add (fst start_point) dy) ;;
  dx <- stride ind (snd direction) ;;
  x <- to_int (add (snd start_point) dx) ;;
  Ok (y, x).

(** The point with the integer coordinates [(y, x)]. *)
Definition grid (y x : Z) : point := (of_Z y, of_Z x).

(** [(int(start_point[0]), int(start_point[1]))]. *)
Definition landmark_pixel (start_point : point) : result pixel :=
  y <- to_int (fst start_point) ;;
  x <- to_int (snd start_point) ;;
  Ok (y, x).

(** The two [while] loops of [_generate_points] differ only in [new_point]:
    [walk new_point k starting_point fuel found ind] runs one of them from the
    state [(found, ind)]; [NoFuel] when the fuel runs out, [Failed] when
    [new_point] raises. *)
Fixpoint walk (new_point : Z -> result pixel) (k : nat) (starting_point : list pixel)
    (fuel : nat) (found : list pixel) (ind : Z) : run (list pixel) :=
  if (length found <? k)%nat then
    match fuel with
    | O => NoFuel
    | S fuel' =>
        match new_point ind with
        | Raise e => Failed e
        | Ok p =>
            if (negb (pixel_in p found) && negb (pixel_in p starting_point))%bool
            then walk new_point k starting_point fuel' (found ++ [p]) (ind + 1)%Z
            else walk new_point k starting_point fuel' found (ind + 1)%Z
        end
    end
  else Done found.

(** [Sampler._generate_points]. *)
Definition _generate_points (fuel : nat) (k : nat) (start_point direction : point)
    : run (list pixel) :=
  run_bind (of_result (landmark_pixel start_point)) (fun center =>
  let starting_point := [center] in
  run_bind (walk (pos_point start_point direction) k starting_point fuel [] 1%Z)
    (fun pos_points =>
  run_bind (walk (neg_point start_point direction) k starting_point fuel [] 1%Z)
    (fun neg_points =>
  Done (rev neg_points ++ starting_point ++ pos_points)))).

(** An image: rows of pixel intensities, indexed [image[y, x]]. *)
Definition image : Type := list (list Z).

Definition image_at (img : image) (item : pixel) : result Z :=
  row <- py_index img (fst item) ;;
  py_index row (snd item).

(** [sum([math.fabs(x) for x in sample])]. *)
Definition divnum (sample : list Z) : Q :=
  fold_right (fun x acc => Qabs (inject_Z x) + acc)%Q 0%Q sample.

(** [float(x) / divnum]: Python raises on a zero divisor. *)
Definition py_div (x d : Q) : result Q :=
  if Qeq_bool d 0 then Raise ZeroDivisionError else Ok (x / d)%Q.

(** [Sampler._sample]. *)
Definition _sample (img : image) (points : list pixel) : result (list Q) :=
  sample <- for_each (image_at img) points ;;
  for_each (fun x => py_div (inject_Z x) (divnum sample)) sample.

End Sampler.

(** ** Sampler.sample and Profile.build *)

Module Profile.
Import Sampler.

(** A [for] loop that appends one value per element. *)
Fixpoint run_each {A B : Type} (f : A -> run B) (l : list A) : run (list B) :=
  match l with
  | [] => Done []
  | a :: l' =>
      run_bind (f a) (fun b =>
      run_bind (run_each f l') (fun bs => Done (b :: bs)))
  end.

(** A [for] loop that updates a local variable. *)
Fixpoint run_fold {A S : Type} (f : S -> A -> run S) (l : list A) (s : S) : run S :=
  match l with
  | [] => Done s
  | a :: l' => run_bind (f s a) (fun s' => run_fold f l' s')
  end.

Fixpoint for_fold {A S : Type} (f : S -> A -> result S) (l : list A) (s : S) : result S :=
  match l with
  | [] => Ok s
  | a :: l' => s' <- f s a ;; for_fold f l' s'
  end.

Section Build.

(** [utils.normal], as in [Sampler]. *)
Variable normal : point -> point -> point.

(** [Sampler(image, k, model_points).sample()]: one profile per landmark.
    [model_points] is given by its landmarks. *)
Definition sample (fuel : nat) (img : image) (k : nat) (model_points : list point)
    : run (list (list Q)) :=
  run_bind (of_result (_calculate_normals normal model_points)) (fun normals =>
  run_each
    (fun ind =>
       run_bind (of_result (py_index model_points ind)) (fun start_point =>
       run_bind (of_result (py_index normals ind)) (fun direction =>
       run_bind (_generate_points fuel k start_point direction) (fun points =>
       of_result (_sample img points)))))
    (range (length model_points))).

(** Image paths, the cleaning procedure handed to [Profile], and the numpy
    reductions [np.mean(a, axis=0)] and [np.cov(a, rowvar=0)] of an array
    given by its rows.  Nothing is assumed about them. *)
Variable picture : Type.
Variable preprocess : picture -> image.
Variable np_mean : list (list Q) -> list Q.
Variable np_cov : list (list Q) -> list (list Q).

(** The attributes of a [Profile]; a model is given by its landmarks. *)
Record Profile : Type := {
  images : list picture;
  models : list (list point);
  k : nat;
  profiles : list (list Q);
  covariance : list (list (list Q))
}.

(** [tmp_samples[i].append(samples[i, :])]: the list, afterwards. *)
Definition append_at (tmp_samples : list (list (list Q))) (samples : list (list Q)) (i : Z)
    : result (list (list (list Q))) :=
  collected <- py_index tmp_samples i ;;
  row <- py_index samples i ;;
  Ok (firstn (Z.to_nat i) tmp_samples ++ (collected ++ [row])
        :: skipn (S (Z.to_nat i)) tmp_samples).

(** [for i in range(len(samples)): tmp_samples[i].append(samples[i, :])]. *)
Definition add_samples (tmp_samples : list (list (list Q))) (samples : list (list Q))
    : result (list (list (list Q))) :=
  for_fold (fun tmp i => append_at tmp samples i) (range (length samples)) tmp_samples.

(** The second loop of [build]: the samples of every image, landmark by
    landmark. *)
Definition collect (fuel : nat) (st : Profile) (tmp_samples : list (list (list Q)))
    : run (list (list (list Q))) :=
  run_fold
    (fun tmp ind =>
       run_bind (of_result (py_index (images st) ind)) (fun path =>
       run_bind (of_result (py_index (models st) ind)) (fun model =>
       run_bind (sample fuel (preprocess path) (k st) model) (fun samples =>
       of_result (add_samples tmp samples)))))
    (range (length (images st))) tmp_samples.

(** [Profile.build]: the object afterwards. *)
Definition build (fuel : nat) (st : Profile) : run Profile :=
  run_bind (of_result (py_index (models st) 0)) (fun first =>
  let tmp_samples := map (fun _ => []) (range (length first)) in
  run_bind (collect fuel st tmp_samples) (fun tmp_samples =>
  Done {| images := images st;
          models := models st;
          k := k st;
          profiles := profiles st ++ map np_mean tmp_samples;
          covariance := covariance st ++ map np_cov tmp_samples |})).

End Build.

End Profile.

(** ** VarianceModel *)

Module VarianceModel.

(** [sorted(l, reverse=True)] on numbers: a stable sort into non-increasing
    order. *)
Fixpoint insert_desc (x : Q) (l : list Q) : list Q :=
  match l with
  | [] => [x]
  | y :: l' => if Qle_bool y x then x :: y :: l' else y :: insert_desc x l'
  end.

Definition sorted_reverse (l : list Q) : list Q := fold_right insert_desc [] l.

(** The attributes a fitted [sklearn.decomposition.PCA] carries: one row of
    [components_] per retained component, and its share of the variance at
    the same position of [explained_variance_ratio_]. *)
Record fit : Type := {
  components_ : list (list Q);
  explained_variance_ratio_ : list Q
}.

(** A [PCA] object: constructed with [n_components], fitted or not. *)
Record PCA : Type := {
  n_components : Z;
  fitted : option fit
}.

Section Variance.

(** Numerical arrays and the library routines the class calls; they are
    outside the repository and nothing is assumed about their values. *)
Variable matrix : Type.
(** [np.cov(m, rowvar=0)] *)
Variable np_cov : matrix -> matrix.
(** [np.linalg.eigvalsh]: the eigenvalues in ascending order, or the
    exception it raises ([LinAlgError] on an array that is not finite, such
    as the covariance of a single observation). *)
Variable eigvalsh : matrix -> result (list Q).
(** [PCA(n_components=n).fit(m)]: the fitted attributes, or the exception
    [fit] raises. *)
Variable pca_fit : Z -> matrix -> result fit.

(** The attributes of a [VarianceModel] that its methods use. *)
Record state : Type := {
  deviation : matrix;
  covariance : option matrix;
  pca_fitter : option PCA
}.

(** The object [__init__] leaves, [deviation] being the aligned shapes minus
    the mean model. *)
Definition init (dev : matrix) : state :=
  {| deviation := dev; covariance := None; pca_fitter := None |}.

Definition _covariance_matrix (st : state) : state :=
  {| deviation := deviation st;
     covariance := Some (np_cov (deviation st));
     pca_fitter := pca_fitter st |}.

(** [obtain_components]: the object afterwards and what the call returned.
    [self.pca_fitter] is assigned before [fit] runs, so a raising [fit] leaves
    an unfitted [PCA] behind. *)
Definition obtain_components (num_comp : Z) (st : state) : state * result unit :=
  let st1 := match covariance st with
             | None => _covariance_matrix st
             | Some _ => st
             end in
  match pca_fit num_comp (deviation st1) with
  | Ok f =>
      ({| deviation := deviation st1; covariance := covariance st1;
          pca_fitter := Some {| n_components := num_comp; fitted := Some f |} |},
       Ok tt)
  | Raise e =>
      ({| deviation := deviation st1; covariance := covariance st1;
          pca_fitter := Some {| n_components := num_comp; fitted := None |} |},
       Raise e)
  end.

(** Reading [components_] or [explained_variance_ratio_] off a [PCA] that
    was never fitted raises [AttributeError]. *)
Definition attribute {A : Type} (p : PCA) (field : fit -> A) : result A :=
  match fitted p with
  | Some f => Ok (field f)
  | None => Raise AttributeError
  end.

Definition get_components (st : state) : result (list (list Q)) :=
  match pca_fitter st with
  | None => Raise ValueError
  | Some p => attribute p components_
  end.

Definition get_variances_explained (st : state) : result (list Q) :=
  match pca_fitter st with
  | None => Raise ValueError
  | Some p => attribute p explained_variance_ratio_
  end.

(** [get_eigenvalues]: [eigvalsh] of a covariance that is still [None]
    raises [LinAlgError]; line 246 runs before line 247, so whatever
    [eigvalsh] raises comes first; then an attribute of a [pca_fitter] that
    is still [None] raises [AttributeError]. *)
Definition get_eigenvalues (st : state) : result (list Q) :=
  match covariance st with
  | None => Raise LinAlgError
  | Some c =>
      eigenvals <- eigvalsh c ;;
      let ordered := sorted_reverse eigenvals in
      match pca_fitter st with
      | None => Raise AttributeError
      | Some p =>
          comps <- attribute p components_ ;;
          Ok (firstn (length comps) ordered)
      end
  end.

(** The calls a client can make, and the object after a sequence of them
    (an exception is caught by the client and the object lives on). *)
Inductive call : Type :=
| Obtain (num_comp : Z)
| GetComponents
| GetVariancesExplained
| GetEigenvalues.

Definition after_call (st : state) (c : call) : state :=
  match c with
  | Obtain n => fst (obtain_components n st)
  | GetComponents | GetVariancesExplained | GetEigenvalues => st
  end.

Definition after_calls (dev : matrix) (calls : list call) : state :=
  fold_left after_call calls (init dev).

Definition is_obtain (c : call) : bool :=
  match c with
  | Obtain _ => true
  | _ => false
  end.

End Variance.

End VarianceModel.

(** ** ReferentModel: generalized Procrustes alignment *)

Module Procrustes.
Local Open Scope R_scope.

(** A landmark [(y, x)]. *)
Definition point : Type := (R * R)%type.

(** How a run ends.  [NonFinite]: a division by zero on which numpy goes on
    with [inf] or [nan] entries, which exact arithmetic does not have; the
    model follows such a run no further. *)
Inductive outcome (A : Type) : Type :=
| Returned (a : A)
| Raised (e : exn)
| NonFinite
| OutOfFuel.

Arguments Returned {A} a.
Arguments Raised {A} e.
Arguments NonFinite {A}.
Arguments OutOfFuel {A}.

(** *** DataCollector

    Modelled from the spec: the class [DataManipulations.DataCollector] is
    not part of the sources.  A collector holds the landmarks of one shape,
    its cumulative [scale_factor], and the absolute reference offset that
    [realign_to_absolute] adds back.  A flat vector
    [y_1, x_1, ..., y_n, x_n] and the [(n, 2)] point matrix are the same list
    of [(y_i, x_i)] here. *)
Record DataCollector : Type := {
  points : list point;
  scale_factor : R;
  offset : point
}.

(** Modelled from the spec: [DataCollector(None)], a collector without
    landmarks, nothing scaled and nothing translated yet. *)
Definition new_collector : DataCollector :=
  {| points := []; scale_factor := 1; offset := (0, 0) |}.

(** Modelled from the spec: [read_vector] and [read_points] store the given
    landmarks in the collector. *)
Definition read_vector (d : DataCollector) (v : list point) : DataCollector :=
  {| points := v; scale_factor := scale_factor d; offset := offset d |}.

Definition read_points (d : DataCollector) (pts : list point) : DataCollector :=
  {| points := pts; scale_factor := scale_factor d; offset := offset d |}.

(** Modelled from the spec: [as_vector], the flat view of the landmarks. *)
Definition as_vector (d : DataCollector) : list point := points d.

Definition sum_y (pts : list point) : R := fold_right (fun p acc => fst p + acc) 0 pts.
Definition sum_x (pts : list point) : R := fold_right (fun p acc => snd p + acc) 0 pts.

(** The centroid: the mean of all points. *)
Definition centroid (pts : list point) : point :=
  (sum_y pts / INR (length pts), sum_x pts / INR (length pts)).

(** The sum of the squared point norms. *)
Definition sumsq (pts : list point) : R :=
  fold_right (fun p acc => fst p * fst p + snd p * snd p + acc) 0 pts.

Definition norm (pts : list point) : R := sqrt (sumsq pts).

(** Modelled from the spec: [translate_to_origin] subtracts the centroid from
    every point; the centroid taken off is retained in the offset, from which
    [realign_to_absolute] recovers the absolute position. *)
Definition translate_to_origin (d : DataCollector) : DataCollector :=
  let c := centroid (points d) in
  {| points := map (fun p => (fst p - fst c, snd p - snd c)) (points d);
     scale_factor := scale_factor d;
     offset := (fst (offset d) + fst c, snd (offset d) + snd c) |}.

(** Modelled from the spec: [scale_to_unit] divides every coordinate by the
    norm that makes the sum of the squared point norms 1 and multiplies
    [scale_factor] by the inverse of the applied scale.  [None]: the norm is
    zero, the shape has zero variance, and the call fails with the
    specification's [InvalidInput] error. *)
Definition scale_to_unit (d : DataCollector) : option DataCollector :=
  let n := norm (points d) in
  if Req_EM_T n 0 then None
  else Some {| points := map (fun p => (fst p / n, snd p / n)) (points d);
               scale_factor := scale_factor d * n;
               offset := offset d |}.

(** Modelled from the spec: [rotate(angle)] turns every point about the
    origin with the 2x2 rotation matrix. *)
Definition rotate (angle : R) (d : DataCollector) : DataCollector :=
  {| points := map (fun p => (snd p * sin angle + fst p * cos angle,
                              snd p * cos angle - fst p * sin angle)) (points d);
     scale_factor := scale_factor d;
     offset := offset d |}.

(** Modelled from the spec: [rescale_with_factor(factor)] multiplies the
    coordinates by [factor]; [rescale()] does so with the collector's own
    [scale_factor]. *)
Definition rescale_with_factor (factor : R) (d : DataCollector) : DataCollector :=
  {| points := map (fun p => (fst p * factor, snd p * factor)) (points d);
     scale_factor := scale_factor d;
     offset := offset d |}.

Definition rescale (d : DataCollector) : DataCollector :=
  rescale_with_factor (scale_factor d) d.

(** Modelled from the spec: [realign_to_absolute] adds the absolute
    reference offset back. *)
Definition realign_to_absolute (d : DataCollector) : DataCollector :=
  {| points := map (fun p => (fst p + fst (offset d), snd p + snd (offset d))) (points d);
     scale_factor := scale_factor d;
     offset := offset d |}.

Definition set_scale_factor (d : DataCollector) (s : R) : DataCollector :=
  {| points := points d; scale_factor := s; offset := offset d |}.

(** [np.zeros_like]. *)
Definition zeros_like (pts : list point) : list point := map (fun _ => (0, 0)) pts.

(** *** ReferentModel *)

(** The object once [align] has turned [self.points] into a list of
    collectors and set [self.mean_shape]; [shapes] is [self.points] (the
    name [points] is taken by the landmarks of a collector). *)
Record ReferentModel : Type := {
  shapes : list DataCollector;
  mean_shape : DataCollector
}.

(** [_convert_matrix_to_collection]: one collector per row, in row order. *)
Definition _convert_matrix_to_collection (matrix : list (list point)) : list DataCollector :=
  map (fun row => read_vector new_collector row) matrix.

(** [_convert_collection_to_matrix]. *)
Definition _convert_collection_to_matrix (collection : list DataCollector)
    : list (list point) :=
  map as_vector collection.

Definition padd (p q : point) : point := (fst p + fst q, snd p + snd q).

Fixpoint vadd (u v : list point) : list point :=
  match u, v with
  | a :: u', b :: v' => padd a b :: vadd u' v'
  | _, _ => []
  end.

(** [np.mean(m, axis=0)] on a matrix given by its rows (all of one length). *)
Definition column_mean (rows : list (list point)) : list point :=
  match rows with
  | [] => []
  | r :: rs =>
      map (fun p => (fst p / INR (length rows), snd p / INR (length rows)))
          (fold_left vadd rs r)
  end.

(** [mean_model] when [self.points] is the list of collectors. *)
Definition mean_model (collection : list DataCollector) : list point :=
  column_mean (_convert_collection_to_matrix collection).

(** [for item in self.points: item.scale_to_unit()]. *)
Fixpoint scale_all (collection : list DataCollector) : option (list DataCollector) :=
  match collection with
  | [] => Some []
  | d :: rest =>
      match scale_to_unit d, scale_all rest with
      | Some d', Some rest' => Some (d' :: rest')
      | _, _ => None
      end
  end.

Section Align.

(** The functions of [utils] and the diagnostic of [DataCollector] that the
    loop calls.  None is part of the sources; the loop is modelled for any
    such functions. *)
Variable is_converged : DataCollector -> DataCollector -> bool.
Variable rotation_alignment : DataCollector -> DataCollector -> R.
Variable check_distance : DataCollector -> R.

(** The body of [for item in self.points] inside the loop. *)
Definition realign (mean item : DataCollector) : DataCollector :=
  let angle := rotation_alignment mean item in
  let item1 := rotate angle item in
  if Req_EM_T (check_distance item1) (1 / 10) then item1
  else translate_to_origin item1.

(** One pass through the body of the [while] loop, on the state
    [(old_mean_shape, mean_shape, points)]; [None] when the new mean has norm
    zero and [scale_to_unit] fails on it. *)
Definition iteration (st : DataCollector * DataCollector * list DataCollector)
    : option (DataCollector * DataCollector * list DataCollector) :=
  let '(old_mean_shape, mean_shape, items) := st in
  let old_mean_shape := read_points old_mean_shape (points mean_shape) in
  let mean_shape := read_vector mean_shape (mean_model items) in
  let mean_shape := translate_to_origin mean_shape in
  match scale_to_unit mean_shape with
  | None => None
  | Some mean_shape => Some (old_mean_shape, mean_shape, map (realign mean_shape) items)
  end.

(** [while utils.is_converged(old_mean_shape, self.mean_shape) is not True]. *)
Fixpoint procrustes_loop (fuel : nat)
    (st : DataCollector * DataCollector * list DataCollector)
    : outcome (DataCollector * DataCollector * list DataCollector) :=
  if is_converged (fst (fst st)) (snd (fst st)) then Returned st
  else
    match fuel with
    | O => OutOfFuel
    | S fuel' =>
        match iteration st with
        | None => Raised InvalidInput
        | Some st' => procrustes_loop fuel' st'
        end
    end.

Definition sum_scale_factors (items : list DataCollector) : R :=
  fold_left (fun acc item => acc + scale_factor item) items 0.

(** [ReferentModel(matrix).align()]: the object afterwards. *)
Definition align (fuel : nat) (matrix : list (list point)) : outcome ReferentModel :=
  let collection := _convert_matrix_to_collection matrix in
  let collection := map translate_to_origin collection in
  match scale_all collection with
  | None => Raised InvalidInput
  | Some collection =>
      match collection with
      | [] => Raised IndexError
      | first :: _ =>
          let mean_shape := first in
          let old_mean_shape :=
            read_points new_collector (zeros_like (points mean_shape)) in
          match procrustes_loop fuel (old_mean_shape, mean_shape, collection) with
          | Returned (_, mean_shape, items) =>
              Returned
                {| shapes := items;
                   mean_shape :=
                     set_scale_factor mean_shape
                       (sum_scale_factors items / INR (length items)) |}
          | Raised e => Raised e
          | NonFinite => NonFinite
          | OutOfFuel => OutOfFuel
          end
      end
  end.

End Align.

(** [retrieve_mean_model] and [retrieve_as_matrix]. *)
Definition retrieve_mean_model (rm : ReferentModel) : DataCollector := mean_shape rm.

Definition retrieve_as_matrix (rm : ReferentModel) : list (list point) :=
  _convert_collection_to_matrix (shapes rm).

(** [rescale_and_realign]. *)
Definition rescale_and_realign (rm : ReferentModel) : ReferentModel :=
  {| shapes :=
       map (fun item =>
              realign_to_absolute (rescale_with_factor (scale_factor (mean_shape rm)) item))
           (shapes rm);
     mean_shape := realign_to_absolute (rescale (mean_shape rm)) |}.

End Procrustes.

(** *** ReferentModel: the weights of the landmarks *)

Module Weights.
Import Procrustes.
Local Open Scope R_scope.

(** [sum(xs)] and [a.sum()]. *)
Definition rsum (xs : list R) : R := fold_left Rplus xs 0.

Section Distances.

(** [utils.euclidean_distance], which is not part of the sources; nothing is
    assumed about it. *)
Variable euclidean_distance : point -> point -> R.

(** One row of the distance matrix: for every landmark of a shape the sum of
    its distances to all landmarks of the shape. *)
Definition distances_of (shape : list point) : list R :=
  map (fun ref_point => rsum (map (fun x => euclidean_distance ref_point x) shape)) shape.

(** [_calculate_distances_to_points] on the matrix [self.points], given by
    its rows (all of one length); [self.points[0]] raises [IndexError] on a
    matrix without rows. *)
Definition _calculate_distances_to_points (matrix : list (list point))
    : result (list (list R)) :=
  match matrix with
  | [] => Raise IndexError
  | _ :: _ => Ok (map distances_of matrix)
  end.

Definition mean (xs : list R) : R := rsum xs / INR (length xs).

(** The standard deviation numpy computes by default: the square root of the
    mean squared deviation from the mean. *)
Definition std (xs : list R) : R :=
  sqrt (mean (map (fun x => (x - mean xs) * (x - mean xs)) xs)).

Definition column (rows : list (list R)) (j : nat) : list R :=
  map (fun row => nth j row 0) rows.

(** [np.std(rows, axis=0)]. *)
Definition np_std (rows : list (list R)) : list R :=
  map (fun j => std (column rows j)) (seq 0 (length (hd [] rows))).

(** [[1. / x for x in weights]]; [None]: one of the deviations is zero and
    its weight is not finite. *)
Fixpoint reciprocals (xs : list R) : option (list R) :=
  match xs with
  | [] => Some []
  | x :: xs' =>
      if Req_EM_T x 0 then None
      else option_map (cons (1 / x)) (reciprocals xs')
  end.

(** [_calculate_weights(norm)].  An empty array divided by its sum is the
    empty array; the maximum of an empty array raises [ValueError]. *)
Definition _calculate_weights (norm : string) (matrix : list (list point))
    : outcome (list R) :=
  match _calculate_distances_to_points matrix with
  | Raise e => Raised e
  | Ok distances =>
      match reciprocals (np_std distances) with
      | None => NonFinite
      | Some weights =>
          if String.eqb norm "normalize" then
            match weights with
            | [] => Returned []
            | _ :: _ =>
                if Req_EM_T (rsum weights) 0 then NonFinite
                else Returned (map (fun w => w / rsum weights) weights)
            end
          else if String.eqb norm "scale" then
            match weights with
            | [] => Raised ValueError
            | w :: ws =>
                let largest := fold_left Rmax ws w in
                if Req_EM_T largest 0 then NonFinite
                else Returned (map (fun x => x / largest) weights)
            end
          else Returned weights
      end
  end.

End Distances.

End Weights.

(** *** VarianceModel.__init__: the deviation data *)

Module Deviation.
Import Procrustes.
Local Open Scope R_scope.

Definition psub (p q : point) : point := (fst p - fst q, snd p - snd q).

(** [u - v] on two vectors of one length. *)
Fixpoint vsub (u v : list point) : list point :=
  match u, v with
  | a :: u', b :: v' => psub a b :: vsub u' v'
  | _, _ => []
  end.

(** [self.deviation] as [__init__] leaves it: every row of
    [retrieve_as_matrix()] minus [ref_model.mean_model()].  The matrix is a
    fresh array, so the mean model is the same in every pass of the loop. *)
Definition deviation_of (rm : ReferentModel) : list (list point) :=
  map (fun row => vsub row (mean_model (shapes rm))) (retrieve_as_matrix rm).

End Deviation.

(** ** Facts about indexing and [for] loops *)

Lemma py_index_front {A : Type} (l : list A) (i : Z) (d : A) :
  (0 <= i < Z.of_nat (length l))%Z ->
  py_index l i = Ok (nth (Z.to_nat i) l d).
Proof.
  intros [H0 Hn]. unfold py_index.
  destruct (i <? 0)%Z eqn:Hneg; [apply Z.ltb_lt in Hneg; lia|].
  assert (Hin : ((0 <=? i)%Z && (i <? Z.of_nat (length l))%Z)%bool = true).
  { apply andb_true_iff. split; [apply Z.leb_le | apply Z.ltb_lt]; assumption. }
  rewrite Hin.
  assert (Hlt : (Z.to_nat i < length l)%nat) by lia.
  destruct (nth_error l (Z.to_nat i)) eqn:E.
  - f_equal. apply nth_error_nth with (d := d) in E. symmetry. exact E.
  - apply nth_error_None in E. lia.
Qed.

Lemma py_index_back {A : Type} (l : list A) (i : Z) (d : A) :
  (- Z.of_nat (length l) <= i < 0)%Z ->
  py_index l i = Ok (nth (Z.to_nat (Z.of_nat (length l) + i)) l d).
Proof.
  intros [H0 Hn]. unfold py_index.
  destruct (i <? 0)%Z eqn:Hneg; [|apply Z.ltb_ge in Hneg; lia].
  set (j := (Z.of_nat (length l) + i)%Z).
  assert (Hin : ((0 <=? j)%Z && (j <? Z.of_nat (length l))%Z)%bool = true).
  { apply andb_true_iff. split; [apply Z.leb_le | apply Z.ltb_lt]; subst j; lia. }
  rewrite Hin.
  assert (Hlt : (Z.to_nat j < length l)%nat) by (subst j; lia).
  destruct (nth_error l (Z.to_nat j)) eqn:E.
  - f_equal. apply nth_error_nth with (d := d) in E. symmetry. exact E.
  - apply nth_error_None in E. lia.
Qed.

Lemma py_index_out {A : Type} (l : list A) (i : Z) :
  (Z.of_nat (length l) <= i)%Z -> py_index l i = Raise IndexError.
Proof.
  intros H. unfold py_index.
  destruct (i <? 0)%Z eqn:Hneg; [apply Z.ltb_lt in Hneg; lia|].
  destruct (i <? Z.of_nat (length l))%Z eqn:E; [apply Z.ltb_lt in E; lia|].
  now rewrite andb_false_r.
Qed.

Lemma for_each_app {A B : Type} (f : A -> result B) (l1 l2 : list A) :
  for_each f (l1 ++ l2) =
  (bs1 <- for_each f l1 ;; bs2 <- for_each f l2 ;; Ok (bs1 ++ bs2)).
Proof.
  induction l1 as [|a l1 IH]; simpl.
  - destruct (for_each f l2); reflexivity.
  - destruct (f a); simpl; [|reflexivity].
    rewrite IH. destruct (for_each f l1); simpl; [|reflexivity].
    destruct (for_each f l2); reflexivity.
Qed.

Lemma for_each_ext {A B : Type} (f g : A -> result B) (l : list A) :
  (forall a, In a l -> f a = g a) -> for_each f l = for_each g l.
Proof.
  induction l as [|a l IH]; simpl; intros H; [reflexivity|].
  rewrite (H a (or_introl eq_refl)), IH; [reflexivity|].
  intros b Hb. apply H. now right.
Qed.

Lemma for_each_length {A B : Type} (f : A -> result B) (l : list A) (bs : list B) :
  for_each f l = Ok bs -> length bs = length l.
Proof.
  revert bs. induction l as [|a l IH]; simpl; intros bs H.
  - now inversion H.
  - destruct (f a); simpl in H; [|discriminate].
    destruct (for_each f l); simpl in H; [|discriminate].
    inversion H; subst. simpl. f_equal. now apply IH.
Qed.

(** A loop whose body raises at some element, the earlier ones passing,
    raises that exception. *)
Lemma for_each_raise {A B : Type} (f : A -> result B) (l1 l2 : list A) (a : A) (e : exn) :
  (forall x, In x l1 -> exists b, f x = Ok b) ->
  f a = Raise e ->
  for_each f (l1 ++ a :: l2) = Raise e.
Proof.
  intros Hok Ha. induction l1 as [|x l1 IH]; simpl.
  - now rewrite Ha.
  - destruct (Hok x (or_introl eq_refl)) as [b Hb]. rewrite Hb. simpl.
    rewrite IH; [reflexivity|]. intros y Hy. apply Hok. now right.
Qed.

Lemma range_S (n : nat) : range (S n) = range n ++ [Z.of_nat n].
Proof. unfold range. rewrite seq_S, map_app. reflexivity. Qed.

Lemma in_range (n : nat) (i : Z) : In i (range n) <-> (0 <= i < Z.of_nat n)%Z.
Proof.
  unfold range. rewrite in_map_iff. split.
  - intros [x [<- Hx]]. apply in_seq in Hx. lia.
  - intros H. exists (Z.to_nat i). split; [lia|]. apply in_seq. lia.
Qed.

(** ** The sampler: normals *)

Module SamplerNormals.
Import Sampler.

Section Normals.

Variable normal : point -> point -> point.

Let origin : point := grid 0 0.

(** With exactly 40 landmarks the hard-coded modulus is the number of
    landmarks and the code computes the normals of the specification. *)
Lemma normal_at_forty (points : list point) (ind : Z) :
  length points = 40%nat -> (0 <= ind < 40)%Z ->
  normal_at normal points ind = spec_normal_at normal points ind.
Proof.
  intros Hlen Hind. unfold normal_at, spec_normal_at. rewrite Hlen.
  change (Z.of_nat 40) with 40%Z.
  assert (Ha : py_index points (ind - 1) = py_index points ((ind - 1) mod 40)).
  { destruct (Z.eq_dec ind 0) as [-> | Hnz].
    - change ((0 - 1) mod 40)%Z with 39%Z. change (0 - 1)%Z with (-1)%Z.
      rewrite (py_index_back points (-1) origin) by (rewrite Hlen; lia).
      rewrite (py_index_front points 39 origin) by (rewrite Hlen; lia).
      rewrite Hlen. reflexivity.
    - rewrite Z.mod_small by lia. reflexivity. }
  rewrite Ha.
  destruct (py_index points ((ind - 1) mod 40)); simpl; [|reflexivity].
  destruct (py_index points ind); simpl; reflexivity.
Qed.

Lemma calculate_normals_forty (points : list point) :
  length points = 40%nat ->
  _calculate_normals normal points = spec_normals normal points.
Proof.
  intros Hlen. unfold _calculate_normals, spec_normals.
  apply for_each_ext. intros i Hi. apply in_range in Hi.
  apply normal_at_forty; [assumption | lia].
Qed.

(** With fewer than 40 landmarks the index [(ind + 1) % 40] of the last
    landmark is past the end. *)
Lemma normal_at_last_raises (points : list point) :
  (0 < length points < 40)%nat ->
  normal_at normal points (Z.of_nat (length points) - 1) = Raise IndexError.
Proof.
  intros Hlen. unfold normal_at.
  set (n := Z.of_nat (length points)).
  assert (Hn : (0 < n < 40)%Z) by (subst n; lia).
  assert (Ha : exists a, py_index points (n - 1 - 1) = Ok a).
  { destruct (Z.eq_dec n 1) as [H1 | H1].
    - exists (nth (Z.to_nat (n + (n - 1 - 1))) points origin).
      apply py_index_back. fold n. lia.
    - exists (nth (Z.to_nat (n - 1 - 1)) points origin).
      apply py_index_front. fold n. lia. }
  destruct Ha as [a ->]. simpl.
  rewrite (py_index_front points (n - 1) origin) by (fold n; lia). simpl.
  replace ((n - 1 + 1) mod 40)%Z with n by (rewrite Z.mod_small; lia).
  rewrite py_index_out by (fold n; lia). reflexivity.
Qed.

Lemma normal_at_inner_ok (points : list point) (ind : Z) :
  (length points < 40)%nat -> (0 <= ind < Z.of_nat (length points) - 1)%Z ->
  exists n, normal_at normal points ind = Ok n.
Proof.
  intros Hlen Hind. unfold normal_at.
  set (n := Z.of_nat (length points)) in *.
  assert (Ha : exists a, py_index points (ind - 1) = Ok a).
  { destruct (Z.eq_dec ind 0) as [H0 | H0].
    - exists (nth (Z.to_nat (n + (ind - 1))) points origin).
      apply py_index_back. fold n. lia.
    - exists (nth (Z.to_nat (ind - 1)) points origin).
      apply py_index_front. fold n. lia. }
  destruct Ha as [a ->]. simpl.
  rewrite (py_index_front points ind origin) by (fold n; lia). simpl.
  rewrite Z.mod_small by lia.
  rewrite (py_index_front points (ind + 1) origin) by (fold n; lia). simpl.
  eexists. reflexivity.
Qed.

Lemma calculate_normals_short_raises (points : list point) :
  (0 < length points < 40)%nat ->
  _calculate_normals normal points = Raise IndexError.
Proof.
  intros Hlen. unfold _calculate_normals.
  destruct (length points) as [|m] eqn:E; [lia|].
  rewrite range_S. apply for_each_raise.
  - intros i Hi. apply in_range in Hi.
    apply normal_at_inner_ok; rewrite E; lia.
  - replace (Z.of_nat m) with (Z.of_nat (length points) - 1)%Z by (rewrite E; lia).
    apply normal_at_last_raises. lia.
Qed.

(** The specification's normals are defined for every non-empty shape. *)
Lemma spec_normal_at_ok (points : list point) (ind : Z) :
  (0 <= ind < Z.of_nat (length points))%Z ->
  exists n, spec_normal_at normal points ind = Ok n.
Proof.
  intros Hind. unfold spec_normal_at.
  set (n := Z.of_nat (length points)) in *.
  assert (H1 : (0 <= (ind - 1) mod n < n)%Z) by (apply Z.mod_pos_bound; lia).
  assert (H2 : (0 <= (ind + 1) mod n < n)%Z) by (apply Z.mod_pos_bound; lia).
  rewrite (py_index_front points _ origin) by (fold n; lia). simpl.
  rewrite (py_index_front points ind origin) by (fold n; lia). simpl.
  rewrite (py_index_front points _ origin) by (fold n; lia). simpl.
  eexists. reflexivity.
Qed.

(** With more than 40 landmarks the successor of landmark 39 is taken to be
    landmark 0, not landmark 40. *)
Lemma normal_at_wraps_at_forty (points : list point) :
  (40 < length points)%nat ->
  normal_at normal points 39 =
  Ok (average (normal (nth 38 points origin) (nth 39 points origin))
              (normal (nth 39 points origin) (nth 0 points origin))).
Proof.
  intros Hlen. unfold normal_at.
  change (39 - 1)%Z with 38%Z. change ((39 + 1) mod 40)%Z with 0%Z.
  rewrite (py_index_front points 38 origin) by lia.
  rewrite (py_index_front points 39 origin) by lia.
  rewrite (py_index_front points 0 origin) by lia.
  reflexivity.
Qed.

(** C3 (the claim fails on the code): on a triangle the specification's
    normals exist, each the average of the normals of the two edges at the
    landmark, and [_calculate_normals] raises [IndexError] instead, because
    the successor index is reduced modulo 40 and not modulo the number of
    landmarks. *)
Theorem calculate_normals_triangle (p0 p1 p2 : point) :
  _calculate_normals normal [p0; p1; p2] = Raise IndexError /\
  spec_normals normal [p0; p1; p2] =
    Ok [average (normal p2 p0) (normal p0 p1);
        average (normal p0 p1) (normal p1 p2);
        average (normal p1 p2) (normal p2 p0)].
Proof. split; reflexivity. Qed.

End Normals.

(** An edge normal to run the lemmas with: the edge turned by a quarter. *)
Definition quarter_turn (a b : point) : point :=
  (Double.sub (snd b) (snd a), Double.sub (fst a) (fst b)).

Lemma calculate_normals_forty_witness :
  _calculate_normals quarter_turn (repeat (grid 0 0) 40) =
  spec_normals quarter_turn (repeat (grid 0 0) 40).
Proof.
  apply (calculate_normals_forty quarter_turn (repeat (grid 0 0) 40)).
  reflexivity.
Defined.

Lemma normal_at_wraps_at_forty_witness :
  normal_at quarter_turn (repeat (grid 0 0) 41) 39 =
  Ok (average (quarter_turn (grid 0 0) (grid 0 0)) (quarter_turn (grid 0 0) (grid 0 0))).
Proof.
  apply (normal_at_wraps_at_forty quarter_turn (repeat (grid 0 0) 41)).
  simpl. lia.
Defined.

Lemma calculate_normals_short_raises_witness :
  _calculate_normals quarter_turn [grid 0 0; grid 0 4; grid 3 0] = Raise IndexError.
Proof.
  apply (calculate_normals_short_raises quarter_turn [grid 0 0; grid 0 4; grid 3 0]).
  simpl. lia.
Defined.

End SamplerNormals.

(** ** The sampler: sample points along a normal *)

Module SamplerPoints.
Import Sampler.

Lemma pixel_eqb_eq (a b : pixel) : pixel_eqb a b = true <-> a = b.
Proof.
  destruct a as [a1 a2], b as [b1 b2]. unfold pixel_eqb. simpl.
  rewrite andb_true_iff, !Z.eqb_eq. split.
  - intros [-> ->]. reflexivity.
  - intros H. inversion H. auto.
Qed.

Lemma pixel_in_In (p : pixel) (l : list pixel) : pixel_in p l = true <-> In p l.
Proof.
  unfold pixel_in. rewrite existsb_exists. split.
  - intros [x [Hx E]]. apply pixel_eqb_eq in E. now subst.
  - intros H. exists p. split; [assumption | now apply pixel_eqb_eq].
Qed.

Lemma pixel_in_not_In (p : pixel) (l : list pixel) : pixel_in p l = false <-> ~ In p l.
Proof.
  rewrite <- pixel_in_In. destruct (pixel_in p l); split; intros H; congruence.
Qed.

(** *** The [while] loops *)

Section Walk.

Variable new_point : Z -> result pixel.
Variable k : nat.
Variable starting_point : list pixel.

Let loop := walk new_point k starting_point.

Lemma walk_done (fuel : nat) (found : list pixel) (ind : Z) :
  (k <= length found)%nat -> loop fuel found ind = Done found.
Proof.
  intros H. unfold loop. destruct fuel; simpl;
    destruct (length found <? k)%nat eqn:E; try reflexivity;
    apply Nat.ltb_lt in E; lia.
Qed.

(** More fuel does not change a result. *)
Lemma walk_fuel_mono (fuel : nat) :
  forall (found r : list pixel) (ind : Z) (extra : nat),
  loop fuel found ind = Done r -> loop (fuel + extra) found ind = Done r.
Proof.
  unfold loop. induction fuel as [|fuel IH]; intros found r ind extra H.
  - simpl in H. destruct (length found <? k)%nat eqn:E; [discriminate|].
    inversion H; subst. apply walk_done. apply Nat.ltb_ge in E. exact E.
  - simpl in *. destruct (length found <? k)%nat; [|exact H].
    destruct (new_point ind) as [p|e]; [|discriminate].
    destruct (negb (pixel_in p found) && negb (pixel_in p starting_point))%bool;
      apply IH; exact H.
Qed.

(** What a finished loop has computed: [found] extended by the pixels of
    strictly increasing steps [js], all new; every step up to the last one
    taken gave a pixel, and one that is in the result or is the starting
    point. *)
Lemma walk_sound (fuel : nat) :
  forall (found r : list pixel) (ind : Z),
  loop fuel found ind = Done r ->
  exists (js : list Z) (taken : list pixel),
    r = found ++ taken /\
    Forall2 (fun j p => new_point j = Ok p) js taken /\
    StronglySorted Z.lt js /\
    Forall (fun j => (ind <= j)%Z) js /\
    ((length found <= k)%nat -> length r = k) /\
    (NoDup found -> NoDup r) /\
    (forall p, In p taken -> ~ In p starting_point) /\
    (forall i j, (ind <= i <= j)%Z -> In j js ->
       exists p, new_point i = Ok p /\ (In p r \/ In p starting_point)).
Proof.
  unfold loop. induction fuel as [|fuel IH]; intros found r ind H; simpl in H.
  - destruct (length found <? k)%nat eqn:E; [discriminate|].
    inversion H; subst. exists [], []. rewrite app_nil_r.
    apply Nat.ltb_ge in E.
    repeat split; auto; try constructor; try lia; try contradiction.
  - destruct (length found <? k)%nat eqn:E.
    + apply Nat.ltb_lt in E.
      destruct (new_point ind) as [p|e] eqn:Ep; [|discriminate].
      destruct (pixel_in p found) eqn:E1; simpl in H.
      * destruct (IH _ _ _ H) as [js [taken [Hr [Hok [Hs [Hge [Hlen [Hnd [Hsp Hvis]]]]]]]]].
        exists js, taken. repeat split; auto.
        -- eapply Forall_impl; [|exact Hge]. simpl. intros; lia.
        -- intros i j Hij Hj.
           destruct (Z.eq_dec i ind) as [-> | Hne].
           ++ exists p. split; [exact Ep|]. left. rewrite Hr.
              apply in_or_app. left. now apply pixel_in_In.
           ++ apply (Hvis i j); [lia | exact Hj].
      * destruct (pixel_in p starting_point) eqn:E2; simpl in H.
        -- destruct (IH _ _ _ H)
             as [js [taken [Hr [Hok [Hs [Hge [Hlen [Hnd [Hsp Hvis]]]]]]]]].
           exists js, taken. repeat split; auto.
           ++ eapply Forall_impl; [|exact Hge]. simpl. intros; lia.
           ++ intros i j Hij Hj.
              destruct (Z.eq_dec i ind) as [-> | Hne].
              ** exists p. split; [exact Ep|]. right. now apply pixel_in_In.
              ** apply (Hvis i j); [lia | exact Hj].
        -- destruct (IH _ _ _ H)
             as [js [taken [Hr [Hok [Hs [Hge [Hlen [Hnd [Hsp Hvis]]]]]]]]].
           exists (ind :: js), (p :: taken). rewrite <- app_assoc in Hr. simpl in Hr.
           repeat split; auto.
           ++ constructor; [exact Hs|].
              eapply Forall_impl; [|exact Hge]. simpl. intros; lia.
           ++ constructor; [lia|].
              eapply Forall_impl; [|exact Hge]. simpl. intros; lia.
           ++ intros _. apply Hlen. rewrite length_app. simpl. lia.
           ++ intros Hf. apply Hnd. apply NoDup_app; [exact Hf | |].
              ** constructor; [intros [] | constructor].
              ** intros x Hx [<- | []]. apply pixel_in_not_In in E1. contradiction.
           ++ intros q [<- | Hq]; [now apply pixel_in_not_In | now apply Hsp].
           ++ intros i j Hij [<- | Hj].
              ** exists p. replace i with ind by lia. split; [exact Ep|].
                 left. rewrite Hr. apply in_or_app. right. now left.
              ** destruct (Z.eq_dec i ind) as [-> | Hne].
                 --- exists p. split; [exact Ep|].
                     left. rewrite Hr. apply in_or_app. right. now left.
                 --- apply (Hvis i j); [lia | exact Hj].
    + inversion H; subst. exists [], []. rewrite app_nil_r.
      apply Nat.ltb_ge in E.
      repeat split; auto; try constructor; try lia; try contradiction.
Qed.

End Walk.

(** *** Stepping along the normal *)

(** The steps [ind, ind + 1, ..., ind + n - 1]. *)
Definition steps_from (ind : Z) (n : nat) : list Z :=
  map (fun i => (ind + Z.of_nat i)%Z) (seq 0 n).

(** The pixels of a trail in the order in which they come first, those of
    [seen] left out. *)
Fixpoint first_seen (seen trail : list pixel) : list pixel :=
  match trail with
  | [] => []
  | p :: trail' =>
      if pixel_in p seen then first_seen seen trail'
      else p :: first_seen (p :: seen) trail'
  end.

(** The first [n] steps all give a pixel, and among these pixels are [k]
    distinct ones other than the centre. *)
Definition meets (new_point : Z -> result pixel) (center : pixel) (k n : nat) : bool :=
  match for_each new_point (steps_from 1 n) with
  | Ok trail => (k <=? length (first_seen [center] trail))%nat
  | Raise _ => false
  end.

Lemma steps_from_S (ind : Z) (n : nat) :
  steps_from ind (S n) = ind :: steps_from (ind + 1) n.
Proof.
  unfold steps_from. cbn [seq map]. f_equal; [lia|].
  rewrite <- seq_shift, map_map. apply map_ext. intros i. lia.
Qed.

Lemma walk_meets (new_point : Z -> result pixel) (k : nat) (starting_point : list pixel)
    (n : nat) :
  forall (found seen trail : list pixel) (ind : Z) (fuel : nat),
  (forall p, pixel_in p seen = (pixel_in p found || pixel_in p starting_point)%bool) ->
  for_each new_point (steps_from ind n) = Ok trail ->
  (k <= length found + length (first_seen seen trail))%nat ->
  (n <= fuel)%nat ->
  exists r, walk new_point k starting_point fuel found ind = Done r.
Proof.
  induction n as [|n IH]; intros found seen trail ind fuel Hseen Htrail Hk Hfuel.
  - simpl in Htrail. inversion Htrail; subst. simpl in Hk.
    exists found. apply walk_done. lia.
  - destruct (Nat.le_gt_cases k (length found)) as [Hdone | Hlt].
    { exists found. now apply walk_done. }
    destruct fuel as [|fuel]; [lia|].
    rewrite steps_from_S in Htrail. cbn [for_each] in Htrail.
    destruct (new_point ind) as [p|e] eqn:Ep; [|discriminate].
    cbn [bind] in Htrail.
    destruct (for_each new_point (steps_from (ind + 1) n)) as [trail'|] eqn:Et;
      [|discriminate].
    cbn [bind] in Htrail. inversion Htrail; subst. clear Htrail.
    cbn [walk]. apply Nat.ltb_lt in Hlt. rewrite Hlt, Ep. apply Nat.ltb_lt in Hlt.
    cbn [first_seen] in Hk. rewrite Hseen in Hk.
    destruct (pixel_in p found) eqn:E1; cbn [orb negb andb] in *.
    + apply (IH found seen trail'); auto; lia.
    + destruct (pixel_in p starting_point) eqn:E2; cbn [negb] in *.
      * apply (IH found seen trail'); auto; lia.
      * apply (IH (found ++ [p]) (p :: seen) trail'); auto; try lia.
        -- intros q. unfold pixel_in. cbn [existsb]. rewrite existsb_app. cbn [existsb].
           fold (pixel_in q seen). rewrite Hseen. unfold pixel_in.
           destruct (pixel_eqb q p), (existsb (pixel_eqb q) found),
             (existsb (pixel_eqb q) starting_point); reflexivity.
        -- rewrite length_app. simpl in *. lia.
Qed.

(** A loop that returns has met its [k] pixels within the steps it made. *)
Lemma walk_trail (new_point : Z -> result pixel) (k : nat) (starting_point : list pixel)
    (fuel : nat) :
  forall (found seen r : list pixel) (ind : Z),
  (forall p, pixel_in p seen = (pixel_in p found || pixel_in p starting_point)%bool) ->
  walk new_point k starting_point fuel found ind = Done r ->
  exists (n : nat) (trail : list pixel),
    (n <= fuel)%nat /\
    for_each new_point (steps_from ind n) = Ok trail /\
    r = found ++ first_seen seen trail /\
    (k <= length r)%nat.
Proof.
  induction fuel as [|fuel IH]; intros found seen r ind Hseen H; cbn [walk] in H.
  - destruct (length found <? k)%nat eqn:E; [discriminate|].
    inversion H; subst. apply Nat.ltb_ge in E.
    exists 0%nat, []. rewrite app_nil_r.
    split; [lia|]. split; [reflexivity|]. split; [reflexivity | exact E].
  - destruct (length found <? k)%nat eqn:E.
    + destruct (new_point ind) as [p|e] eqn:Ep; [|discriminate].
      assert (Hp : pixel_in p seen =
                   negb (negb (pixel_in p found) && negb (pixel_in p starting_point))).
      { rewrite Hseen. destruct (pixel_in p found), (pixel_in p starting_point);
          reflexivity. }
      destruct (negb (pixel_in p found) && negb (pixel_in p starting_point))%bool;
        cbn [negb] in Hp.
      * destruct (IH (found ++ [p]) (p :: seen) r (ind + 1)%Z) as [n [trail [Hn [Ht [Hr Hk]]]]].
        { intros q. unfold pixel_in. cbn [existsb]. rewrite existsb_app. cbn [existsb].
          fold (pixel_in q seen). rewrite Hseen. unfold pixel_in.
          destruct (pixel_eqb q p), (existsb (pixel_eqb q) found),
            (existsb (pixel_eqb q) starting_point); reflexivity. }
        { exact H. }
        exists (S n), (p :: trail). split; [lia|]. split; [|split; [|exact Hk]].
        -- rewrite steps_from_S. cbn [for_each]. rewrite Ep, Ht. reflexivity.
        -- cbn [first_seen]. rewrite Hp, Hr, <- app_assoc. reflexivity.
      * destruct (IH found seen r (ind + 1)%Z Hseen H) as [n [trail [Hn [Ht [Hr Hk]]]]].
        exists (S n), (p :: trail). split; [lia|]. split; [|split; [|exact Hk]].
        -- rewrite steps_from_S. cbn [for_each]. rewrite Ep, Ht. reflexivity.
        -- cbn [first_seen]. rewrite Hp. exact Hr.
    + inversion H; subst. apply Nat.ltb_ge in E.
      exists 0%nat, []. rewrite app_nil_r.
      split; [lia|]. split; [reflexivity|]. split; [reflexivity | exact E].
Qed.

(** One side of a profile: [k] distinct pixels, none the centre, taken at
    increasing steps [js >= 1] of [new_point]; every step up to the last one
    taken gave a pixel, and a step passed over gave a pixel already taken or
    the centre. *)
Definition side_of (new_point : Z -> result pixel) (center : pixel) (k : nat)
    (side : list pixel) : Prop :=
  exists js : list Z,
    Forall2 (fun j p => new_point j = Ok p) js side /\
    StronglySorted Z.lt js /\
    Forall (fun j => (1 <= j)%Z) js /\
    length side = k /\
    NoDup side /\
    ~ In center side /\
    (forall i j, (1 <= i <= j)%Z -> In j js ->
       exists p, new_point i = Ok p /\ (In p side \/ p = center)).

Lemma walk_side_of (new_point : Z -> result pixel) (k n : nat) (center : pixel) :
  meets new_point center k n = true ->
  exists side : list pixel,
    (forall fuel, (n <= fuel)%nat ->
       walk new_point k [center] fuel [] 1%Z = Done side) /\
    side_of new_point center k side.
Proof.
  unfold meets. intros Hm.
  destruct (for_each new_point (steps_from 1 n)) as [trail|] eqn:Et; [|discriminate].
  apply Nat.leb_le in Hm.
  destruct (walk_meets new_point k [center] n [] [center] trail 1%Z n) as [side Hw];
    auto.
  exists side. split.
  - intros fuel Hle. replace fuel with (n + (fuel - n))%nat by lia.
    apply walk_fuel_mono. exact Hw.
  - destruct (walk_sound new_point k [center] n _ _ _ Hw)
      as [js [taken [Hr [Hok [Hs [Hge [Hlen [Hnd [Hsp Hvis]]]]]]]]].
    simpl in Hr. subst taken. exists js. repeat split; auto.
    + apply Hlen. simpl. lia.
    + apply Hnd. constructor.
    + intros Hin. apply (Hsp center Hin). now left.
    + intros i j Hij Hj. destruct (Hvis i j Hij Hj) as [p [Hp [H | [H | []]]]];
        exists p; auto.
Qed.

(** C4 (as the code has it): where the first steps along the normal meet
    [k] distinct pixels other than the landmark's on each side,
    [_generate_points] returns, with fuel for these steps, [2k+1] pixels: the
    [k] pixels of the negative side reversed, the landmark with its
    coordinates truncated toward zero, the [k] pixels of the positive side.
    Each side holds [k] distinct pixels, none of them the centre, taken at
    increasing steps along the normal, and a step is passed over only when
    its pixel repeats one already taken or the centre. *)
Theorem generate_points_profile (k n_pos n_neg : nat) (start_point direction : point)
    (center : pixel) :
  landmark_pixel start_point = Ok center ->
  meets (pos_point start_point direction) center k n_pos = true ->
  meets (neg_point start_point direction) center k n_neg = true ->
  exists neg_points pos_points : list pixel,
    (forall fuel, (n_pos <= fuel)%nat -> (n_neg <= fuel)%nat ->
       _generate_points fuel k start_point direction =
       Done (rev neg_points ++ [center] ++ pos_points)) /\
    length (rev neg_points ++ [center] ++ pos_points) = (2 * k + 1)%nat /\
    nth_error (rev neg_points ++ [center] ++ pos_points) k = Some center /\
    side_of (neg_point start_point direction) center k neg_points /\
    side_of (pos_point start_point direction) center k pos_points.
Proof.
  intros Hc Hpos Hneg.
  destruct (walk_side_of _ k n_pos center Hpos) as [pos_points [Hp Sp]].
  destruct (walk_side_of _ k n_neg center Hneg) as [neg_points [Hn Sn]].
  exists neg_points, pos_points.
  assert (Ln : length neg_points = k) by (destruct Sn as [? [? [? [? [? ?]]]]]; assumption).
  assert (Lp : length pos_points = k) by (destruct Sp as [? [? [? [? [? ?]]]]]; assumption).
  repeat split; auto.
  - intros fuel Hle1 Hle2. unfold _generate_points. rewrite Hc. cbn [of_result run_bind].
    rewrite Hp by lia. cbn [run_bind]. rewrite Hn by lia. reflexivity.
  - rewrite !length_app, length_rev. simpl. unfold pixel in *. lia.
  - unfold pixel in *.
    rewrite nth_error_app2 by (rewrite length_rev; lia).
    rewrite length_rev, Ln, Nat.sub_diag. reflexivity.
Qed.

(** It returns in no other case: a run that returns a list has converted
    the landmark and has met [k] distinct pixels on each side within its
    fuel. *)
Lemma generate_points_only_then (fuel k : nat) (start_point direction : point)
    (points : list pixel) :
  _generate_points fuel k start_point direction = Done points ->
  exists (center : pixel) (n_pos n_neg : nat),
    landmark_pixel start_point = Ok center /\
    (n_pos <= fuel)%nat /\ (n_neg <= fuel)%nat /\
    meets (pos_point start_point direction) center k n_pos = true /\
    meets (neg_point start_point direction) center k n_neg = true.
Proof.
  unfold _generate_points.
  destruct (landmark_pixel start_point) as [center|]; [|discriminate].
  cbn [of_result run_bind].
  destruct (walk (pos_point _ _) k _ fuel [] 1) as [pos| |] eqn:Ep; try discriminate.
  cbn [run_bind].
  destruct (walk (neg_point _ _) k _ fuel [] 1) as [neg| |] eqn:En; try discriminate.
  intros _.
  apply (walk_trail _ k [center] fuel [] [center]) in Ep; [|reflexivity].
  apply (walk_trail _ k [center] fuel [] [center]) in En; [|reflexivity].
  destruct Ep as [n_pos [tp [Hnp [Htp [Hrp Hkp]]]]].
  destruct En as [n_neg [tn [Hnn [Htn [Hrn Hkn]]]]].
  exists center, n_pos, n_neg. split; [reflexivity|]. split; [exact Hnp|].
  split; [exact Hnn|]. unfold meets. rewrite Htp, Htn.
  simpl in Hrp, Hrn. subst pos neg. split; now apply Nat.leb_le.
Qed.

(** The hypotheses of [generate_points_profile] at [k = 7], landmark
    [(8, 0)] and direction [(50, 0)]: ten steps are enough. *)
Lemma generate_points_profile_witness :
  exists neg_points pos_points : list pixel,
    (forall fuel, (10 <= fuel)%nat -> (10 <= fuel)%nat ->
       _generate_points fuel 7 (grid 8 0) (grid 50 0) =
       Done (rev neg_points ++ [(8, 0)%Z] ++ pos_points)) /\
    length (rev neg_points ++ [(8, 0)%Z] ++ pos_points) = 15%nat /\
    nth_error (rev neg_points ++ [(8, 0)%Z] ++ pos_points) 7 = Some (8, 0)%Z /\
    side_of (neg_point (grid 8 0) (grid 50 0)) (8, 0)%Z 7 neg_points /\
    side_of (pos_point (grid 8 0) (grid 50 0)) (8, 0)%Z 7 pos_points.
Proof.
  apply (generate_points_profile 7 10 10 (grid 8 0) (grid 50 0) (8, 0)%Z);
    vm_compute; reflexivity.
Defined.

(** The same profile computed.  At the seventh step the double
    [8 - 7 * 0.02 * 50] is just below one and truncates to zero. *)
Example generate_points_run :
  _generate_points 10 7 (grid 8 0) (grid 50 0) =
  Done [(15, 0); (14, 0); (13, 0); (12, 0); (11, 0); (10, 0); (9, 0);
        (8, 0);
        (7, 0); (6, 0); (5, 0); (4, 0); (3, 0); (2, 0); (0, 0)]%Z.
Proof. vm_compute. reflexivity. Qed.

(** C4 (the claim fails on the code): the centre is the landmark truncated,
    not rounded: the landmark [(2.75, 0)] gives the centre [(2, 0)]; and a
    direction that is not the zero vector need not give a profile: with the
    direction [(1e308, 0)] the ninetieth step overflows and [int] raises
    [OverflowError]. *)
Lemma generate_points_truncates_and_overflows :
  _generate_points 40 1 (Double.div (Double.of_Z 11) (Double.of_Z 4), Double.of_Z 0)
    (grid 1 0) = Done [(3, 0); (2, 0); (1, 0)]%Z /\
  _generate_points 100 90 (grid 0 0) (grid (10 ^ 308) 0) = Failed OverflowError.
Proof. split; vm_compute; reflexivity. Qed.

End SamplerPoints.

(** ** The sampler: normalising a profile *)

Module SamplerProfile.
Import Sampler.

Lemma for_each_total {A B : Type} (f : A -> result B) (g : A -> B) (l : list A) :
  (forall a, In a l -> f a = Ok (g a)) -> for_each f l = Ok (map g l).
Proof.
  induction l as [|a l IH]; simpl; intros H; [reflexivity|].
  rewrite (H a (or_introl eq_refl)). simpl.
  rewrite IH; [reflexivity|]. intros b Hb. apply H. now right.
Qed.

Lemma divnum_nonneg (sample : list Z) : 0 <= divnum sample.
Proof.
  induction sample as [|x l IH]; [apply Qle_refl|].
  change (0 <= Qabs (inject_Z x) + divnum l).
  pose proof (Qabs_nonneg (inject_Z x)) as H. revert H IH.
  generalize (Qabs (inject_Z x)) (divnum l). intros a b Ha Hb. lra.
Qed.

(** The sum of the absolute intensities vanishes exactly on an all-zero
    profile. *)
Lemma divnum_zero_iff (sample : list Z) :
  divnum sample == 0 <-> Forall (fun x => x = 0%Z) sample.
Proof.
  induction sample as [|x l IH].
  - split; [constructor | reflexivity].
  - change (divnum (x :: l)) with (Qabs (inject_Z x) + divnum l).
    pose proof (Qabs_nonneg (inject_Z x)) as Hx.
    pose proof (divnum_nonneg l) as Hl. split.
    + intros H.
      assert (H1 : Qabs (inject_Z x) == 0).
      { generalize dependent (Qabs (inject_Z x)). generalize dependent (divnum l).
        intros b _ Hb a Ha E. apply Qle_antisym; lra. }
      assert (H2 : divnum l == 0).
      { rewrite H1 in H. rewrite Qplus_0_l in H. exact H. }
      constructor; [|now apply IH].
      destruct x; [reflexivity | discriminate H1 | discriminate H1].
    + intros H. inversion H; subst. apply IH in H3. rewrite H3. reflexivity.
Qed.

(** C5: a profile read off the image whose absolute intensities sum to zero
    makes [_sample] raise Python's [ZeroDivisionError] (the specification's
    [DivisionByZero]/[DegenerateSample] condition): the division by [divnum]
    is the guard.  With any other sum the profile is returned, every entry
    divided by that sum. *)
Theorem sample_zero_sum_raises (img : image) (points : list pixel) (sample : list Z) :
  for_each (image_at img) points = Ok sample ->
  points <> [] ->
  (divnum sample == 0 -> _sample img points = Raise ZeroDivisionError) /\
  (~ divnum sample == 0 ->
   _sample img points = Ok (map (fun x => inject_Z x / divnum sample) sample)).
Proof.
  intros Hread Hne. unfold _sample. rewrite Hread. cbn [bind]. split.
  - intros Hz. destruct sample as [|x l].
    + apply for_each_length in Hread. destruct points; [congruence | discriminate].
    + cbn [for_each]. unfold py_div at 1.
      apply Qeq_bool_iff in Hz. rewrite Hz. reflexivity.
  - intros Hnz. apply for_each_total. intros x _. unfold py_div.
    destruct (Qeq_bool (divnum sample) 0) eqn:E; [|reflexivity].
    apply Qeq_bool_iff in E. contradiction.
Qed.

(** The absolute values of a returned profile sum to one. *)
Lemma sample_normalised (img : image) (points : list pixel) (profile : list Q) :
  _sample img points = Ok profile ->
  points <> [] ->
  fold_right (fun x acc => Qabs x + acc) 0 profile == 1.
Proof.
  intros H Hne. unfold _sample in H.
  destruct (for_each (image_at img) points) as [sample|] eqn:Hread; [|discriminate].
  cbn [bind] in H.
  destruct (Qeq_dec (divnum sample) 0) as [Hz | Hnz].
  - destruct sample as [|x l].
    + apply for_each_length in Hread. destruct points; [congruence | discriminate].
    + cbn [for_each] in H. unfold py_div at 1 in H.
      apply Qeq_bool_iff in Hz. rewrite Hz in H. discriminate.
  - rewrite (for_each_total _ (fun x => inject_Z x / divnum sample)) in H.
    + inversion H; subst. clear H.
      assert (Hpos : 0 < divnum sample).
      { pose proof (divnum_nonneg sample) as Hge.
        destruct (Qlt_le_dec 0 (divnum sample)) as [Hlt | Hle]; [exact Hlt|].
        exfalso. apply Hnz. apply Qle_antisym; assumption. }
      assert (Hsum : forall l,
                 fold_right (fun x acc => Qabs x + acc) 0
                   (map (fun x => inject_Z x / divnum sample) l)
                 == divnum l / divnum sample).
      { induction l as [|x l IH].
        - simpl. unfold Qdiv. ring.
        - change (Qabs (inject_Z x / divnum sample) +
                  fold_right (fun x acc => Qabs x + acc) 0
                    (map (fun x => inject_Z x / divnum sample) l)
                  == (Qabs (inject_Z x) + divnum l) / divnum sample).
          rewrite IH. unfold Qdiv at 1. rewrite Qabs_Qmult.
          rewrite (Qabs_pos (/ divnum sample)) by (apply Qlt_le_weak, Qinv_lt_0_compat, Hpos).
          field. exact Hnz. }
      rewrite Hsum. field. exact Hnz.
    + intros x _. unfold py_div.
      destruct (Qeq_bool (divnum sample) 0) eqn:E; [|reflexivity].
      apply Qeq_bool_iff in E. contradiction.
Qed.

Lemma sample_normalised_witness :
  fold_right (fun x acc => Qabs x + acc) 0
    [inject_Z 10 / (10 + (40 + 0)); inject_Z 40 / (10 + (40 + 0))] == 1.
Proof.
  apply (sample_normalised [[10; 20]; [30; 40]]%Z [(0, 0); (1, 1)]%Z).
  - reflexivity.
  - discriminate.
Defined.

(** A black 2x2 image sampled at two pixels. *)
Lemma sample_zero_sum_raises_witness :
  _sample [[0; 0]; [0; 0]]%Z [(0, 0); (1, 1)]%Z = Raise ZeroDivisionError.
Proof.
  apply (sample_zero_sum_raises [[0; 0]; [0; 0]]%Z [(0, 0); (1, 1)]%Z [0; 0]%Z).
  - reflexivity.
  - discriminate.
  - reflexivity.
Defined.

Example sample_run :
  _sample [[10; 20]; [30; 40]]%Z [(0, 0); (1, -1); (-1, 0)]%Z =
  Ok [inject_Z 10 / (10 + (40 + (30 + 0))); inject_Z 40 / (10 + (40 + (30 + 0)));
      inject_Z 30 / (10 + (40 + (30 + 0)))].
Proof. reflexivity. Qed.

Example sample_out_of_image :
  _sample [[10; 20]; [30; 40]]%Z [(0, 0); (2, 0)]%Z = Raise IndexError.
Proof. reflexivity. Qed.

End SamplerProfile.

(** ** VarianceModel: the getters *)

Module VarianceFacts.
Import VarianceModel.

Definition non_increasing (a b : Q) : Prop := b <= a.

Lemma insert_desc_perm (x : Q) (l : list Q) : Permutation (insert_desc x l) (x :: l).
Proof.
  induction l as [|y l IH]; simpl; [reflexivity|].
  destruct (Qle_bool y x); [reflexivity|].
  rewrite IH. apply perm_swap.
Qed.

Lemma sorted_reverse_perm (l : list Q) : Permutation (sorted_reverse l) l.
Proof.
  induction l as [|x l IH]; simpl; [reflexivity|].
  rewrite insert_desc_perm. now constructor.
Qed.

Lemma insert_desc_sorted (x : Q) (l : list Q) :
  StronglySorted non_increasing l -> StronglySorted non_increasing (insert_desc x l).
Proof.
  induction l as [|y l IH]; simpl; intros Hs.
  - constructor; constructor.
  - inversion Hs as [|? ? Hl Hy]; subst.
    destruct (Qle_bool y x) eqn:E.
    + apply Qle_bool_iff in E. constructor; [exact Hs|].
      constructor; [exact E|].
      eapply Forall_impl; [|exact Hy]. unfold non_increasing. intros z Hz.
      eapply Qle_trans; eassumption.
    + assert (Hxy : x <= y).
      { destruct (Qlt_le_dec x y) as [H | H]; [now apply Qlt_le_weak|].
        apply Qle_bool_iff in H. congruence. }
      constructor; [now apply IH|].
      rewrite insert_desc_perm. constructor; assumption.
Qed.

Lemma sorted_reverse_sorted (l : list Q) : StronglySorted non_increasing (sorted_reverse l).
Proof.
  induction l as [|x l IH]; simpl; [constructor | now apply insert_desc_sorted].
Qed.

Lemma sorted_app_inv {A : Type} (R : A -> A -> Prop) (l1 l2 : list A) :
  StronglySorted R (l1 ++ l2) ->
  StronglySorted R l1 /\ (forall x y, In x l1 -> In y l2 -> R x y).
Proof.
  induction l1 as [|a l1 IH]; simpl; intros Hs.
  - split; [constructor | intros x y []].
  - inversion Hs as [|? ? Hl Ha]; subst. destruct (IH Hl) as [H1 H2].
    rewrite Forall_app in Ha. destruct Ha as [Ha1 Ha2]. split.
    + constructor; assumption.
    + intros x y [<- | Hx] Hy; [|now apply H2].
      rewrite Forall_forall in Ha2. now apply Ha2.
Qed.

Section Variance.

Variable matrix : Type.
Variable np_cov : matrix -> matrix.
Variable eigvalsh : matrix -> result (list Q).
Variable pca_fit : Z -> matrix -> result fit.

Local Abbreviation traced := (after_calls matrix np_cov pca_fit).
Local Abbreviation step := (after_call matrix np_cov pca_fit).

Lemma after_calls_snoc (dev : matrix) (calls : list (call)) (c : call) :
  traced dev (calls ++ [c]) = step (traced dev calls) c.
Proof. unfold after_calls. rewrite fold_left_app. reflexivity. Qed.

(** What the object holds after any sequence of calls. *)
Lemma after_calls_inv (dev : matrix) (calls : list call) :
  let st := traced dev calls in
  deviation matrix st = dev /\
  (pca_fitter matrix st = None <-> existsb is_obtain calls = false) /\
  (covariance matrix st = None \/ covariance matrix st = Some (np_cov dev)) /\
  (pca_fitter matrix st <> None -> covariance matrix st = Some (np_cov dev)).
Proof using matrix np_cov pca_fit.
  clear eigvalsh.
  induction calls as [|c calls IH] using rev_ind.
  - simpl. repeat split; auto; try discriminate. intros H. now contradiction H.
  - cbv zeta in IH |- *. rewrite after_calls_snoc. rewrite existsb_app. simpl.
    destruct IH as [Hd [Hp [Hc Hpc]]].
    destruct c; simpl; try (rewrite !orb_false_r; repeat split; tauto).
    unfold obtain_components.
    destruct (covariance matrix (traced dev calls)) eqn:Ec.
    + destruct Hc as [Hc | Hc]; [discriminate|].
      destruct (pca_fit num_comp (deviation matrix (traced dev calls))); simpl;
        rewrite Ec, orb_true_r; repeat split; auto; try discriminate.
    + simpl. rewrite Hd.
      destruct (pca_fit num_comp dev); simpl;
        rewrite orb_true_r; repeat split; auto; try discriminate.
Qed.

(** C7: [get_components] and [get_variances_explained] raise the
    [ValueError] of a model that was not computed exactly when no
    [obtain_components] call came before; and right after an
    [obtain_components] whose fit succeeded they return the rows of
    [components_] and the entries of [explained_variance_ratio_] of that one
    fit, each list as the fit produced it. *)
Theorem getters_not_computed (dev : matrix) (calls : list call) :
  let st := after_calls matrix np_cov pca_fit dev calls in
  (get_components matrix st = Raise ValueError <-> existsb is_obtain calls = false) /\
  (get_variances_explained matrix st = Raise ValueError <->
   existsb is_obtain calls = false) /\
  (forall (num_comp : Z) (f : fit),
     pca_fit num_comp dev = Ok f ->
     let st' := after_call matrix np_cov pca_fit st (Obtain num_comp) in
     get_components matrix st' = Ok (components_ f) /\
     get_variances_explained matrix st' = Ok (explained_variance_ratio_ f)).
Proof.
  intros st. destruct (after_calls_inv dev calls) as [Hd [Hp [Hc Hpc]]].
  fold st in Hd, Hp, Hc, Hpc.
  assert (Hget : forall A (field : fit -> A) (p : PCA),
             attribute p field <> Raise ValueError).
  { intros A field p. unfold attribute. destruct (fitted p); discriminate. }
  repeat split.
  - unfold get_components. intros H. apply Hp.
    destruct (pca_fitter matrix st); [now apply Hget in H | reflexivity].
  - intros H. apply Hp in H. unfold get_components. now rewrite H.
  - unfold get_variances_explained. intros H. apply Hp.
    destruct (pca_fitter matrix st); [now apply Hget in H | reflexivity].
  - intros H. apply Hp in H. unfold get_variances_explained. now rewrite H.
  - simpl. unfold obtain_components.
    destruct (covariance matrix st); simpl; rewrite ?Hd, H; reflexivity.
  - simpl. unfold obtain_components.
    destruct (covariance matrix st); simpl; rewrite ?Hd, H; reflexivity.
Qed.

(** C8 (as the code has it): after an [obtain_components] whose fit
    succeeded, [get_eigenvalues] hands the covariance of the deviation data
    to [eigvalsh].  When [eigvalsh] returns, the result is the first [K]
    entries of these eigenvalues sorted into non-increasing order, [K] being
    the number of rows of [components_]: the result is non-increasing, it is
    made of eigenvalues, no eigenvalue left out exceeds one returned, and it
    has exactly [K] entries as soon as the covariance has [K] eigenvalues
    (the fit retains at most as many components as there are coordinates).
    When [eigvalsh] raises, [get_eigenvalues] raises the same exception. *)
Theorem get_eigenvalues_top (dev : matrix) (calls : list call) (num_comp : Z) (f : fit) :
  pca_fit num_comp dev = Ok f ->
  let st := after_call matrix np_cov pca_fit
              (after_calls matrix np_cov pca_fit dev calls) (Obtain num_comp) in
  (forall eigenvals : list Q,
     eigvalsh (np_cov dev) = Ok eigenvals ->
     let top := firstn (length (components_ f)) (sorted_reverse eigenvals) in
     get_eigenvalues matrix eigvalsh st = Ok top /\
     StronglySorted non_increasing top /\
     (exists rest, Permutation (top ++ rest) eigenvals /\
                   forall x y, In x top -> In y rest -> y <= x) /\
     ((length (components_ f) <= length eigenvals)%nat ->
      length top = length (components_ f))) /\
  (forall e : exn,
     eigvalsh (np_cov dev) = Raise e ->
     get_eigenvalues matrix eigvalsh st = Raise e).
Proof.
  intros Hfit st.
  destruct (after_calls_inv dev calls) as [Hd [Hp [Hc Hpc]]].
  assert (Hst : covariance matrix st = Some (np_cov dev) /\
                pca_fitter matrix st =
                  Some {| n_components := num_comp; fitted := Some f |}).
  { subst st. simpl. unfold obtain_components.
    destruct (covariance matrix (traced dev calls)) eqn:Ec.
    - destruct Hc as [Hc | Hc]; [congruence|]. injection Hc as ->.
      rewrite Hd, Hfit. simpl. rewrite Ec. split; reflexivity.
    - simpl. rewrite Hd, Hfit. simpl. split; reflexivity. }
  destruct Hst as [Hcov Hpca]. split.
  - intros eigenvals Heig top.
    pose proof (sorted_reverse_sorted eigenvals) as Hs.
    rewrite <- (firstn_skipn (length (components_ f)) (sorted_reverse eigenvals)) in Hs.
    apply sorted_app_inv in Hs. destruct Hs as [Hs Hle].
    repeat split.
    + unfold get_eigenvalues. rewrite Hcov, Heig, Hpca. reflexivity.
    + exact Hs.
    + exists (skipn (length (components_ f)) (sorted_reverse eigenvals)). split.
      * unfold top. rewrite firstn_skipn. apply sorted_reverse_perm.
      * intros x y Hx Hy. apply (Hle x y Hx Hy).
    + intros Hk. unfold top. rewrite length_firstn.
      rewrite (Permutation_length (sorted_reverse_perm eigenvals)). lia.
  - intros e Heig. unfold get_eigenvalues. rewrite Hcov, Heig. reflexivity.
Qed.

End Variance.

(** *** A data set to run the getters on

    Three coordinates whose covariance is [diag(3, 1, 2)]: its eigenvalues
    in the ascending order of [eigvalsh] are [1, 2, 3], and a fit with two
    components retains the first and the third axis, which explain [3/6] and
    [2/6] of the variance. *)

Definition diag_cov : list (list Q) := [[3; 0; 0]; [0; 1; 0]; [0; 0; 2]].

Definition diag_fit : fit :=
  {| components_ := [[1; 0; 0]; [0; 0; 1]];
     explained_variance_ratio_ := [3 # 6; 2 # 6] |}.

Lemma getters_not_computed_witness :
  get_components (list (list Q))
    (after_call (list (list Q)) (fun _ => diag_cov) (fun _ _ => Ok diag_fit)
       (after_calls (list (list Q)) (fun _ => diag_cov) (fun _ _ => Ok diag_fit)
          diag_cov [GetComponents])
       (Obtain 2)) = Ok [[1; 0; 0]; [0; 0; 1]] /\
  get_variances_explained (list (list Q))
    (after_call (list (list Q)) (fun _ => diag_cov) (fun _ _ => Ok diag_fit)
       (after_calls (list (list Q)) (fun _ => diag_cov) (fun _ _ => Ok diag_fit)
          diag_cov [GetComponents])
       (Obtain 2)) = Ok [3 # 6; 2 # 6].
Proof.
  exact (proj2 (proj2 (getters_not_computed (list (list Q)) (fun _ => diag_cov)
                         (fun _ _ => Ok diag_fit) diag_cov [GetComponents]))
           2%Z diag_fit eq_refl).
Defined.

(** *** numpy on the arrays of the examples

    [None] stands for an array whose entries are nan. *)

Definition array : Type := option (list (list Q)).

Definition column (rows : list (list Q)) (j : nat) : list Q :=
  map (fun row => nth j row 0) rows.

Definition total (xs : list Q) : Q := fold_right Qplus 0 xs.

Definition mean_of (xs : list Q) : Q := total xs / inject_Z (Z.of_nat (length xs)).

(** [np.cov(a, rowvar=0)]: the covariance of the columns, divided by the
    number of rows less one (fractions in lowest terms); with a single row
    that divisor is zero and every entry is nan. *)
Definition cov (a : array) : array :=
  match a with
  | Some (r :: r' :: rows) =>
      let data := r :: r' :: rows in
      Some (map (fun i =>
              map (fun j =>
                Qred
                  (total (map (fun row => (nth i row 0 - mean_of (column data i)) *
                                          (nth j row 0 - mean_of (column data j))) data)
                   / inject_Z (Z.of_nat (length data) - 1)))
                (seq 0 (length r)))
              (seq 0 (length r)))
  | _ => None
  end.

(** [np.linalg.eigvalsh] where the examples call it: on an array of nan it
    raises [LinAlgError]; the eigenvalues of a diagonal matrix are its
    diagonal, in ascending order. *)
Definition eigvalsh_diagonal (a : array) : result (list Q) :=
  match a with
  | None => Raise LinAlgError
  | Some m => Ok (rev (sorted_reverse (map (fun i => nth i (nth i m []) 0) (seq 0 (length m)))))
  end.

(** Four observations of two coordinates that vary along the axes: their
    covariance is [diag(2/3, 8/3)], and a fit with one component retains the
    second axis, which explains [4/5] of the variance. *)
Definition cross_data : array := Some [[1; 0]; [-1; 0]; [0; 2]; [0; -2]].

Definition cross_fit : fit :=
  {| components_ := [[0; 1]]; explained_variance_ratio_ := [4 # 5] |}.

(** The deviation data of a model of one shape (the shape less the mean,
    which is the shape), and a fit that retains one component. *)
Definition single_data : array := Some [[0; 0; 0; 0]].

Definition single_fit : fit :=
  {| components_ := [[1; 0; 0; 0]]; explained_variance_ratio_ := [0] |}.

Lemma get_eigenvalues_top_witness :
  get_eigenvalues array eigvalsh_diagonal
    (after_call array cov (fun _ _ => Ok cross_fit)
       (after_calls array cov (fun _ _ => Ok cross_fit) cross_data [])
       (Obtain 1)) = Ok [8 # 3].
Proof.
  exact (proj1 (proj1 (get_eigenvalues_top array cov eigvalsh_diagonal
                         (fun _ _ => Ok cross_fit) cross_data [] 1%Z cross_fit eq_refl)
                  [2 # 3; 8 # 3] eq_refl)).
Defined.

(** C8 (the claim fails on the code): on a model of one shape the
    covariance is not finite, and after an [obtain_components(1)] that
    returned, [get_eigenvalues] raises [LinAlgError]; it returns no
    eigenvalues. *)
Lemma get_eigenvalues_single_shape_raises :
  snd (obtain_components array cov (fun _ _ => Ok single_fit) 1
         (init array single_data)) = Ok tt /\
  get_eigenvalues array eigvalsh_diagonal
    (after_call array cov (fun _ _ => Ok single_fit) (init array single_data) (Obtain 1))
  = Raise LinAlgError.
Proof. split; reflexivity. Qed.

Example get_components_too_early :
  get_components (list (list Q))
    (after_calls (list (list Q)) (fun _ => diag_cov) (fun _ _ => Ok diag_fit)
       diag_cov [GetEigenvalues]) = Raise ValueError.
Proof. reflexivity. Qed.

End VarianceFacts.

(** ** Geometry of the collector operations *)

Module ProcrustesGeometry.
Import Procrustes.
Local Open Scope R_scope.

(** A shape is normalised when its coordinates sum to zero, so that its
    centroid is the origin, and its squared point norms sum to one. *)
Definition centered (pts : list point) : Prop := sum_y pts = 0 /\ sum_x pts = 0.

Definition normalised (d : DataCollector) : Prop :=
  centered (points d) /\ sumsq (points d) = 1.

Lemma sumsq_nonneg (pts : list point) : 0 <= sumsq pts.
Proof.
  induction pts as [|p l IH]; simpl; [lra|]. nra.
Qed.

Lemma sum_y_map (f : point -> point) (a b : R) (pts : list point) :
  (forall p, fst (f p) = a * fst p + b) ->
  sum_y (map f pts) = a * sum_y pts + INR (length pts) * b.
Proof.
  intros Hf. induction pts as [|p l IH].
  - simpl. lra.
  - change (sum_y (map f (p :: l))) with (fst (f p) + sum_y (map f l)).
    change (sum_y (p :: l)) with (fst p + sum_y l).
    change (length (p :: l)) with (S (length l)).
    rewrite S_INR, IH, Hf. lra.
Qed.

Lemma sum_x_map (f : point -> point) (a b : R) (pts : list point) :
  (forall p, snd (f p) = a * snd p + b) ->
  sum_x (map f pts) = a * sum_x pts + INR (length pts) * b.
Proof.
  intros Hf. induction pts as [|p l IH].
  - simpl. lra.
  - change (sum_x (map f (p :: l))) with (snd (f p) + sum_x (map f l)).
    change (sum_x (p :: l)) with (snd p + sum_x l).
    change (length (p :: l)) with (S (length l)).
    rewrite S_INR, IH, Hf. lra.
Qed.

Lemma centered_centroid (pts : list point) : centered pts -> centroid pts = (0, 0).
Proof.
  intros [Hy Hx]. unfold centroid. rewrite Hy, Hx. f_equal; unfold Rdiv; ring.
Qed.

Lemma length_pos_INR {A : Type} (l : list A) : l <> [] -> INR (length l) <> 0.
Proof.
  intros H. destruct l; [congruence|]. apply not_0_INR. discriminate.
Qed.

(** Translating to the origin centres every shape. *)
Lemma translate_centered (d : DataCollector) :
  centered (points (translate_to_origin d)).
Proof.
  unfold translate_to_origin, centered. cbn [points].
  generalize (points d) as pts. intros pts.
  destruct pts as [|p l]; [simpl; split; reflexivity|].
  remember (p :: l) as pts eqn:E.
  assert (Hn : INR (length pts) <> 0) by (apply length_pos_INR; subst; discriminate).
  split.
  - rewrite (sum_y_map _ 1 (- fst (centroid pts))) by (intros q; cbn [fst]; ring).
    unfold centroid. cbn [fst]. field. exact Hn.
  - rewrite (sum_x_map _ 1 (- snd (centroid pts))) by (intros q; cbn [snd]; ring).
    unfold centroid. cbn [snd]. field. exact Hn.
Qed.

(** On a centred shape it changes no landmark: it is idempotent. *)
Lemma translate_centered_points (d : DataCollector) :
  centered (points d) -> points (translate_to_origin d) = points d.
Proof.
  intros Hc. unfold translate_to_origin. cbn [points].
  rewrite (centered_centroid _ Hc). cbn [fst snd].
  rewrite <- (map_id (points d)) at 2. apply map_ext.
  intros [y x]. cbn [fst snd]. f_equal; ring.
Qed.

Lemma sumsq_scale (a : R) (pts : list point) :
  sumsq (map (fun p => (fst p * a, snd p * a)) pts) = a * a * sumsq pts.
Proof.
  induction pts as [|p l IH]; simpl; [ring|]. rewrite IH. ring.
Qed.

Lemma sumsq_div (n : R) (pts : list point) :
  sumsq (map (fun p => (fst p / n, snd p / n)) pts) = / n * / n * sumsq pts.
Proof.
  rewrite <- sumsq_scale. f_equal.
Qed.

Lemma norm_sqr (pts : list point) : norm pts * norm pts = sumsq pts.
Proof. unfold norm. apply sqrt_sqrt. apply sumsq_nonneg. Qed.

Lemma norm_nonneg (pts : list point) : 0 <= norm pts.
Proof. unfold norm. apply sqrt_pos. Qed.

(** What [scale_to_unit] does when the norm is not zero. *)
Lemma scale_to_unit_some (d d' : DataCollector) :
  scale_to_unit d = Some d' ->
  norm (points d) <> 0 /\
  points d' = map (fun p => (fst p / norm (points d), snd p / norm (points d))) (points d) /\
  scale_factor d' = scale_factor d * norm (points d) /\
  offset d' = offset d.
Proof.
  unfold scale_to_unit. destruct (Req_EM_T (norm (points d)) 0) as [E | E]; [discriminate|].
  intros H. inversion H; subst. simpl. auto.
Qed.

Lemma scale_to_unit_none (d : DataCollector) :
  scale_to_unit d = None <-> norm (points d) = 0.
Proof.
  unfold scale_to_unit. destruct (Req_EM_T (norm (points d)) 0) as [E | E]; split;
    intros H; congruence.
Qed.

Lemma scale_to_unit_sumsq (d d' : DataCollector) :
  scale_to_unit d = Some d' -> sumsq (points d') = 1.
Proof.
  intros H. apply scale_to_unit_some in H. destruct H as [Hn [Hp _]].
  rewrite Hp, sumsq_div, <- norm_sqr. field. exact Hn.
Qed.

Lemma scale_to_unit_centered (d d' : DataCollector) :
  scale_to_unit d = Some d' -> centered (points d) -> centered (points d').
Proof.
  intros H [Hy Hx]. apply scale_to_unit_some in H. destruct H as [Hn [Hp _]].
  rewrite Hp. split.
  - rewrite (sum_y_map _ (/ norm (points d)) 0) by (intros q; simpl; field; exact Hn).
    rewrite Hy. ring.
  - rewrite (sum_x_map _ (/ norm (points d)) 0) by (intros q; simpl; field; exact Hn).
    rewrite Hx. ring.
Qed.

(** Normalising: centre, then scale. *)
Lemma normalise_normalised (d d' : DataCollector) :
  scale_to_unit (translate_to_origin d) = Some d' -> normalised d'.
Proof.
  intros H. split.
  - eapply scale_to_unit_centered; [exact H | apply translate_centered].
  - eapply scale_to_unit_sumsq. exact H.
Qed.

(** A rotation keeps a shape normalised. *)
Lemma rotate_sumsq (angle : R) (d : DataCollector) :
  sumsq (points (rotate angle d)) = sumsq (points d).
Proof.
  unfold rotate. simpl. induction (points d) as [|p l IH]; simpl; [reflexivity|].
  rewrite IH. pose proof (sin2_cos2 angle) as H. unfold Rsqr in H.
  replace ((snd p * sin angle + fst p * cos angle) * (snd p * sin angle + fst p * cos angle) +
           (snd p * cos angle - fst p * sin angle) * (snd p * cos angle - fst p * sin angle))
    with ((fst p * fst p + snd p * snd p) * (sin angle * sin angle + cos angle * cos angle))
    by ring.
  rewrite H. ring.
Qed.

Lemma sum_rotate (s c : R) (pts : list point) :
  sum_y (map (fun p => (snd p * s + fst p * c, snd p * c - fst p * s)) pts) =
    sum_x pts * s + sum_y pts * c /\
  sum_x (map (fun p => (snd p * s + fst p * c, snd p * c - fst p * s)) pts) =
    sum_x pts * c - sum_y pts * s.
Proof.
  induction pts as [|p l [IHy IHx]]; simpl; [split; ring|].
  unfold sum_y, sum_x in *. simpl. rewrite IHy, IHx. split; ring.
Qed.

Lemma rotate_centered (angle : R) (d : DataCollector) :
  centered (points d) -> centered (points (rotate angle d)).
Proof.
  intros [Hy Hx]. unfold rotate, centered. simpl.
  destruct (sum_rotate (sin angle) (cos angle) (points d)) as [Ey Ex].
  rewrite Ey, Ex, Hy, Hx. split; ring.
Qed.

Lemma rotate_normalised (angle : R) (d : DataCollector) :
  normalised d -> normalised (rotate angle d).
Proof.
  intros [Hc Hs]. split; [now apply rotate_centered | now rewrite rotate_sumsq].
Qed.

Lemma translate_normalised (d : DataCollector) :
  normalised d -> normalised (translate_to_origin d).
Proof.
  intros [Hc Hs]. split; [apply translate_centered|].
  rewrite translate_centered_points by exact Hc. exact Hs.
Qed.

End ProcrustesGeometry.

(** ** The alignment loop *)

Module ProcrustesAlign.
Import Procrustes ProcrustesGeometry.
Local Open Scope R_scope.

(** The original magnitude of a row of the landmark matrix: the norm of the
    centred shape, by which [scale_to_unit] divides it. *)
Definition magnitude (row : list point) : R :=
  norm (points (translate_to_origin (read_vector new_collector row))).

Definition Rsum (l : list R) : R := fold_right Rplus 0 l.

(** The sum of the squared coordinate differences of two shapes. *)
Fixpoint sqdist (u v : list point) : R :=
  match u, v with
  | a :: u', b :: v' =>
      (fst a - fst b) * (fst a - fst b) + (snd a - snd b) * (snd a - snd b) + sqdist u' v'
  | _, _ => 0
  end.

(** Modelled from the spec: [utils.is_converged] compares the previous and
    the current mean shape, the sum of the squared coordinate differences
    being below a fixed small threshold. *)
Definition is_converged_spec (threshold : R) (old_mean_shape mean_shape : DataCollector)
    : bool :=
  if Rlt_dec (sqdist (points old_mean_shape) (points mean_shape)) threshold
  then true else false.

(** The specification leaves the threshold open. *)
Definition threshold : R := / 1000000.

(** Modelled from the spec: [utils.rotation_alignment], the least-squares
    rotation of a shape onto the mean in closed form, from the
    cross-covariance of the two shapes. *)
Fixpoint cross_sums (mean item : list point) : R * R :=
  match mean, item with
  | m :: mean', p :: item' =>
      let '(num, den) := cross_sums mean' item' in
      (snd p * fst m - fst p * snd m + num, snd p * snd m + fst p * fst m + den)
  | _, _ => (0, 0)
  end.

Definition rotation_alignment_spec (mean item : DataCollector) : R :=
  let '(num, den) := cross_sums (points mean) (points item) in
  atan (num / den).

(** Modelled from the spec: [check_distance], the deviation of the shape
    from the unit scale. *)
Definition check_distance_spec (d : DataCollector) : R :=
  Rabs (norm (points d) - 1).

(** [n] passes through the body of the loop. *)
Fixpoint iterate (step : DataCollector * DataCollector * list DataCollector ->
                         option (DataCollector * DataCollector * list DataCollector))
    (n : nat) (st : DataCollector * DataCollector * list DataCollector)
    : option (DataCollector * DataCollector * list DataCollector) :=
  match n with
  | O => Some st
  | S n' =>
      match step st with
      | None => None
      | Some st' => iterate step n' st'
      end
  end.

Section Align.

Variable is_converged : DataCollector -> DataCollector -> bool.
Variable rotation_alignment : DataCollector -> DataCollector -> R.
Variable check_distance : DataCollector -> R.

(** The mean shapes of the passes of the loop, in order, from the mean shape
    and the collection the first of these passes starts with: each is the
    mean of the collection as the pass before left it, centred and scaled. *)
Fixpoint mean_trace (mean : DataCollector) (items means : list DataCollector) : Prop :=
  match means with
  | [] => True
  | m :: means' =>
      scale_to_unit (translate_to_origin (read_vector mean (mean_model items))) = Some m /\
      mean_trace m (map (realign rotation_alignment check_distance m) items) means'
  end.

(** A shape realigned with the mean shape of every pass, in order. *)
Definition realigned (means : list DataCollector) (d : DataCollector) : DataCollector :=
  fold_left (fun d m => realign rotation_alignment check_distance m d) means d.

(** The test of the [while] loop on a state. *)
Definition converged (st : DataCollector * DataCollector * list DataCollector) : bool :=
  is_converged (fst (fst st)) (snd (fst st)).

End Align.

(** The state in which [align] enters its loop: the rows centred and scaled,
    the first of them as mean shape, zeros as previous mean shape.  [None]
    when [align] does not get that far. *)
Definition loop_entry (matrix : list (list point))
    : option (DataCollector * DataCollector * list DataCollector) :=
  match scale_all (map translate_to_origin (_convert_matrix_to_collection matrix)) with
  | Some (first :: rest) =>
      Some (read_points new_collector (zeros_like (points first)), first, first :: rest)
  | _ => None
  end.

(** What [align] makes of the state in which its loop ended. *)
Definition loop_exit (st : DataCollector * DataCollector * list DataCollector)
    : ReferentModel :=
  {| shapes := snd st;
     mean_shape :=
       set_scale_factor (snd (fst st))
         (sum_scale_factors (snd st) / INR (length (snd st))) |}.

(** The collection every counterexample below starts from: one shape, the
    two landmarks [(1, 0)] and [(-1, 0)]. *)
Definition segment : list (list point) := [[(1, 0); (-1, 0)]].

(** A collection whose only shape has zero variance. *)
Definition dot : list (list point) := [[(1, 1); (1, 1)]].

(** A shape of zero variance: all its points are identical. *)
Definition zero_variance (row : list point) : Prop :=
  forall p q, In p row -> In q row -> p = q.

(** Two shapes of four landmarks, of different size, place and spacing. *)
Definition short_row : list point := [(4, 7); (4, 7); (2, 7); (2, 7)].
Definition long_row : list point := [(15, -1); (9, -1); (9, -1); (7, -1)].
Definition two_rows : list (list point) := [short_row; long_row].

(** Landmarks on a line through the origin along the first axis. *)
Definition flat (pts : list point) : Prop := Forall (fun p => snd p = 0) pts.

Section Loop.

Variable is_converged : DataCollector -> DataCollector -> bool.
Variable rotation_alignment : DataCollector -> DataCollector -> R.
Variable check_distance : DataCollector -> R.

Local Abbreviation realign' := (realign rotation_alignment check_distance).
Local Abbreviation iteration' := (iteration rotation_alignment check_distance).
Local Abbreviation loop := (procrustes_loop is_converged rotation_alignment check_distance).
Local Abbreviation align' := (align is_converged rotation_alignment check_distance).

Lemma realign_normalised (mean item : DataCollector) :
  normalised item -> normalised (realign' mean item).
Proof.
  intros H. unfold realign. cbv zeta.
  destruct (Req_EM_T _ _).
  - now apply rotate_normalised.
  - now apply translate_normalised, rotate_normalised.
Qed.

Lemma realign_scale_factor (mean item : DataCollector) :
  scale_factor (realign' mean item) = scale_factor item.
Proof.
  unfold realign. cbv zeta. destruct (Req_EM_T _ _); reflexivity.
Qed.

(** One pass keeps the shapes normalised, in place and with their scale
    factors, and leaves a normalised mean. *)
Lemma iteration_inv (old mean old' mean' : DataCollector) (items items' : list DataCollector) :
  iteration' (old, mean, items) = Some (old', mean', items') ->
  points old' = points mean /\
  normalised mean' /\
  items' = map (realign' mean') items.
Proof.
  unfold iteration.
  destruct (scale_to_unit _) as [m|] eqn:E; [|discriminate].
  intros H. inversion H; subst.
  split; [reflexivity|]. split; [|reflexivity].
  eapply normalise_normalised. exact E.
Qed.

Lemma Forall_realign (mean : DataCollector) (items : list DataCollector) :
  Forall normalised items -> Forall normalised (map (realign' mean) items).
Proof.
  intros H. apply Forall_map. eapply Forall_impl; [|exact H].
  intros d. apply realign_normalised.
Qed.

Lemma map_scale_factor_realign (mean : DataCollector) (items : list DataCollector) :
  map scale_factor (map (realign' mean) items) = map scale_factor items.
Proof.
  rewrite map_map. apply map_ext. intros d. apply realign_scale_factor.
Qed.

(** The state on which the loop returns keeps what the loop started
    with. *)
Lemma loop_returned (fuel : nat) :
  forall old mean items old' mean' items',
  loop fuel (old, mean, items) = Returned (old', mean', items') ->
  normalised mean -> Forall normalised items ->
  normalised mean' /\ Forall normalised items' /\
  map scale_factor items' = map scale_factor items /\
  forall (A : Type) (P : A -> DataCollector -> Prop),
    (forall m a d, P a d -> P a (realign' m d)) ->
    forall rows, Forall2 P rows items -> Forall2 P rows items'.
Proof.
  induction fuel as [|fuel IH]; intros old mean items old' mean' items';
    cbn [procrustes_loop fst snd]; destruct (is_converged old mean) eqn:E;
    intros H Hm Hi.
  - inversion H; subst. split; [|split; [|split]]; auto.
  - discriminate.
  - inversion H; subst. split; [|split; [|split]]; auto.
  - destruct (iteration' (old, mean, items)) as [[[o m] its]|] eqn:Eit; [|discriminate].
    destruct (iteration_inv _ _ _ _ _ _ Eit) as [_ [Hm' Hits]].
    destruct (IH _ _ _ _ _ _ H Hm') as [H1 [H2 [H3 H4]]].
    { subst its. now apply Forall_realign. }
    split; [|split; [|split]]; auto.
    + rewrite H3. subst its. apply map_scale_factor_realign.
    + intros A P HP rows Hrows. apply (H4 A P HP). subst its.
      clear - HP Hrows. induction Hrows; simpl; constructor; auto.
Qed.

Lemma loop_raises_invalid (fuel : nat) :
  forall st e, loop fuel st = Raised e -> e = InvalidInput.
Proof.
  induction fuel as [|fuel IH]; intros st e; cbn [procrustes_loop];
    destruct (is_converged (fst (fst st)) (snd (fst st))); try discriminate.
  destruct (iteration' st); [apply IH|].
  intros H. now inversion H.
Qed.

(** [n] passes realign every shape with the means of these passes. *)
Lemma iterate_trace (n : nat) :
  forall old mean items old' mean' items',
  iterate iteration' n (old, mean, items) = Some (old', mean', items') ->
  exists means : list DataCollector,
    length means = n /\
    mean_trace rotation_alignment check_distance mean items means /\
    items' = map (realigned rotation_alignment check_distance means) items.
Proof.
  induction n as [|n IH]; intros old mean items old' mean' items' H;
    cbn [iterate] in H.
  - inversion H; subst. exists []. split; [reflexivity|]. split; [exact I|].
    unfold realigned. simpl. now rewrite map_id.
  - destruct (iteration' (old, mean, items)) as [[[o m] its]|] eqn:E; [|discriminate].
    unfold iteration in E.
    destruct (scale_to_unit (translate_to_origin (read_vector mean (mean_model items))))
      as [m1|] eqn:Es; [|discriminate].
    injection E as <- <- <-.
    destruct (IH _ _ _ _ _ _ H) as [means [Hlen [Htr Hit]]].
    exists (m1 :: means). split; [simpl; now rewrite Hlen|]. split.
    + cbn [mean_trace]. split; [exact Es | exact Htr].
    + rewrite Hit, map_map. reflexivity.
Qed.

(** The loop returns exactly in the first state that passes the test,
    however many passes that takes. *)
Lemma loop_returns_iff (fuel : nat) :
  forall st st',
  loop fuel st = Returned st' <->
  exists n : nat,
    (n <= fuel)%nat /\ iterate iteration' n st = Some st' /\
    converged is_converged st' = true /\
    forall m, (m < n)%nat ->
      exists sm, iterate iteration' m st = Some sm /\ converged is_converged sm = false.
Proof.
  induction fuel as [|fuel IH]; intros st st'; cbn [procrustes_loop];
    destruct (is_converged (fst (fst st)) (snd (fst st))) eqn:E.
  - split.
    + intros H. inversion H; subst. exists 0%nat.
      split; [lia|]. split; [reflexivity|]. split; [exact E|]. intros m Hm. lia.
    + intros [n [Hn [Hit [Hc Hm]]]]. assert (n = 0)%nat by lia. subst.
      simpl in Hit. congruence.
  - split; [discriminate|].
    intros [n [Hn [Hit [Hc Hm]]]]. assert (n = 0)%nat by lia. subst.
    simpl in Hit. inversion Hit; subst. unfold converged in Hc. congruence.
  - split.
    + intros H. inversion H; subst. exists 0%nat.
      split; [lia|]. split; [reflexivity|]. split; [exact E|]. intros m Hm. lia.
    + intros [n [Hn [Hit [Hc Hm]]]]. destruct n as [|n].
      * simpl in Hit. congruence.
      * destruct (Hm 0%nat) as [sm [H0 Hc0]]; [lia|]. simpl in H0.
        inversion H0; subst. unfold converged in Hc0. congruence.
  - split.
    + intros H. destruct (iteration' st) as [s1|] eqn:E1; [|discriminate].
      apply IH in H. destruct H as [n [Hn [Hit [Hc Hm]]]].
      exists (S n). split; [lia|]. split; [|split; [exact Hc|]].
      * simpl. rewrite E1. exact Hit.
      * intros m Hlt. destruct m as [|m].
        -- exists st. split; [reflexivity | exact E].
        -- simpl. rewrite E1. apply Hm. lia.
    + intros [n [Hn [Hit [Hc Hm]]]]. destruct n as [|n].
      * simpl in Hit. inversion Hit; subst. unfold converged in Hc. congruence.
      * simpl in Hit. destruct (iteration' st) as [s1|] eqn:E1; [|discriminate].
        apply IH. exists n. split; [lia|]. split; [exact Hit|]. split; [exact Hc|].
        intros m Hlt. destruct (Hm (S m)) as [sm [Hsm Hcm]]; [lia|].
        simpl in Hsm. rewrite E1 in Hsm. exists sm. split; assumption.
Qed.

Lemma scale_all_Forall2 (l l' : list DataCollector) :
  scale_all l = Some l' -> Forall2 (fun d d' => scale_to_unit d = Some d') l l'.
Proof.
  revert l'. induction l as [|d l IH]; simpl; intros l' H.
  - inversion H. constructor.
  - destruct (scale_to_unit d) eqn:E; [|discriminate].
    destruct (scale_all l); [|discriminate].
    inversion H; subst. constructor; auto.
Qed.

Lemma scale_all_none (l : list DataCollector) :
  (exists d, In d l /\ norm (points d) = 0) -> scale_all l = None.
Proof.
  intros [d [Hin Hn]]. induction l as [|a l IH]; [contradiction|].
  simpl. destruct Hin as [-> | Hin].
  - apply scale_to_unit_none in Hn. rewrite Hn. reflexivity.
  - rewrite (IH Hin). destruct (scale_to_unit a); reflexivity.
Qed.

Lemma sum_scale_factors_Rsum (items : list DataCollector) :
  sum_scale_factors items = Rsum (map scale_factor items).
Proof.
  unfold sum_scale_factors.
  assert (H : forall acc, fold_left (fun a item => a + scale_factor item) items acc =
                          acc + Rsum (map scale_factor items)).
  { induction items as [|d l IH]; intros acc; simpl; [ring|]. rewrite IH. ring. }
  rewrite H. ring.
Qed.

(** What [align] has done when it returns: the collection the loop started
    from is the matrix, row by row, centred and scaled. *)
Lemma align_returned (fuel : nat) (matrix : list (list point)) (rm : ReferentModel) :
  align' fuel matrix = Returned rm ->
  exists (units : list DataCollector) (old mean : DataCollector),
    Forall2 (fun row d =>
               scale_to_unit (translate_to_origin (read_vector new_collector row)) = Some d)
            matrix units /\
    units <> [] /\
    loop fuel (read_points new_collector (zeros_like (points (hd mean units))),
               hd mean units, units) = Returned (old, mean, shapes rm) /\
    mean_shape rm =
      set_scale_factor mean (sum_scale_factors (shapes rm) / INR (length (shapes rm))).
Proof.
  unfold align. cbv zeta.
  destruct (scale_all _) as [units|] eqn:E; [|discriminate].
  destruct units as [|first rest]; [discriminate|].
  destruct (loop fuel _) as [[[old mean] items] | | |] eqn:El; try discriminate.
  intros H. inversion H; subst. simpl.
  exists (first :: rest), old, mean. repeat split; auto; try discriminate.
  apply scale_all_Forall2 in E. unfold _convert_matrix_to_collection in E.
  rewrite map_map in E. clear - E.
  remember (first :: rest) as units. clear Hequnits. revert units E.
  induction matrix as [|row matrix IH]; intros units E; simpl in E; inversion E; subst;
    constructor; auto.
Qed.

End Loop.

Section Claims.

Variable is_converged : DataCollector -> DataCollector -> bool.
Variable rotation_alignment : DataCollector -> DataCollector -> R.
Variable check_distance : DataCollector -> R.

Local Abbreviation realign' := (realign rotation_alignment check_distance).
Local Abbreviation iteration' := (iteration rotation_alignment check_distance).
Local Abbreviation loop := (procrustes_loop is_converged rotation_alignment check_distance).
Local Abbreviation align' := (align is_converged rotation_alignment check_distance).

Lemma units_normalised (matrix : list (list point)) (units : list DataCollector) :
  Forall2 (fun row d =>
             scale_to_unit (translate_to_origin (read_vector new_collector row)) = Some d)
          matrix units ->
  Forall normalised units /\
  map scale_factor units = map magnitude matrix /\
  Forall (fun row => magnitude row <> 0) matrix.
Proof.
  induction 1 as [|row d matrix units H _ [IH1 [IH2 IH3]]]; simpl.
  - repeat constructor.
  - split; [|split].
    + constructor; [|exact IH1]. eapply normalise_normalised. exact H.
    + f_equal; [|exact IH2]. apply scale_to_unit_some in H.
      destruct H as [_ [_ [Hs _]]]. rewrite Hs. unfold magnitude. simpl. ring.
    + constructor; [|exact IH3]. apply scale_to_unit_some in H.
      destruct H as [Hn _]. exact Hn.
Qed.

(** C1: when [align] returns, every shape of the collection and the mean
    shape have their centroid at the origin and squared point norms that sum
    to one, and the [scale_factor] of the mean shape is the average of the
    original magnitudes of the rows. *)
Theorem align_normalises (fuel : nat) (matrix : list (list point)) (rm : ReferentModel) :
  align is_converged rotation_alignment check_distance fuel matrix = Returned rm ->
  Forall (fun d => centroid (points d) = (0, 0) /\ sumsq (points d) = 1) (shapes rm) /\
  centroid (points (mean_shape rm)) = (0, 0) /\
  sumsq (points (mean_shape rm)) = 1 /\
  scale_factor (mean_shape rm) = Rsum (map magnitude matrix) / INR (length matrix).
Proof.
  intros H. apply align_returned in H.
  destruct H as [units [old [mean [Hunits [Hne [Hloop Hmean]]]]]].
  destruct (units_normalised _ _ Hunits) as [Hn [Hs _]].
  assert (Hfirst : normalised (hd mean units)).
  { destruct units as [|first rest]; [congruence|]. simpl. now inversion Hn. }
  destruct (loop_returned _ _ _ _ _ _ _ _ _ _ Hloop Hfirst Hn) as [Hm [Hi [Hsf _]]].
  split; [|split; [|split]].
  - eapply Forall_impl; [|exact Hi]. intros d [Hc Hq]. split; [|exact Hq].
    now apply centered_centroid.
  - rewrite Hmean. simpl. apply centered_centroid. apply Hm.
  - rewrite Hmean. simpl. apply Hm.
  - rewrite Hmean. simpl. rewrite sum_scale_factors_Rsum, Hsf, Hs.
    f_equal. f_equal.
    rewrite <- (length_map scale_factor (shapes rm)), Hsf, Hs. apply length_map.
Qed.

(** C10: when [align] returns, the collection is the rows of the matrix,
    in their order and as many, each centred and scaled to unit size and
    then realigned with the mean shape of every pass of the loop, the same
    means for every row; [retrieve_as_matrix] gives back these shapes row by
    row. *)
Theorem align_keeps_rows (fuel : nat) (matrix : list (list point)) (rm : ReferentModel) :
  align is_converged rotation_alignment check_distance fuel matrix = Returned rm ->
  exists units means : list DataCollector,
    Forall2 (fun row u =>
               scale_to_unit (translate_to_origin (read_vector new_collector row)) = Some u)
            matrix units /\
    (length means <= fuel)%nat /\
    mean_trace rotation_alignment check_distance (hd new_collector units) units means /\
    shapes rm = map (realigned rotation_alignment check_distance means) units /\
    retrieve_as_matrix rm =
      map (fun u => as_vector (realigned rotation_alignment check_distance means u)) units /\
    length (shapes rm) = length matrix.
Proof.
  intros H. apply align_returned in H.
  destruct H as [units [old [mean [Hunits [Hne [Hloop Hmean]]]]]].
  apply loop_returns_iff in Hloop. destruct Hloop as [n [Hn [Hit _]]].
  apply iterate_trace in Hit. destruct Hit as [means [Hlen [Htr Hit]]].
  exists units, means.
  assert (Hhd : hd mean units = hd new_collector units).
  { destruct units; [congruence | reflexivity]. }
  rewrite Hhd in Htr.
  split; [exact Hunits|]. split; [lia|]. split; [exact Htr|]. split; [exact Hit|]. split.
  - unfold retrieve_as_matrix, _convert_collection_to_matrix. rewrite Hit, map_map.
    reflexivity.
  - rewrite Hit, length_map. symmetry. eapply Forall2_length. exact Hunits.
Qed.

Lemma align_through_loop (fuel : nat) (matrix : list (list point)) (rm : ReferentModel) :
  align' fuel matrix = Returned rm <->
  exists st0 st,
    loop_entry matrix = Some st0 /\ loop fuel st0 = Returned st /\ rm = loop_exit st.
Proof.
  unfold align, loop_entry. cbv zeta.
  destruct (scale_all _) as [[|first rest]|].
  - split; [discriminate | intros [st0 [st [H _]]]; discriminate].
  - split.
    + destruct (loop fuel _) as [[[old mean] items] | | |] eqn:El; try discriminate.
      intros H. inversion H; subst. eexists. eexists.
      split; [reflexivity|]. split; [exact El | reflexivity].
    + intros [st0 [st [H0 [Hl ->]]]]. inversion H0; subst. rewrite Hl.
      destruct st as [[old mean] items]. reflexivity.
  - split; [discriminate | intros [st0 [st [H _]]]; discriminate].
Qed.

(** [align] has no iteration cap.  It returns exactly when some number [n]
    of passes through its loop leads to a state that passes the convergence
    test and no smaller number does, whatever [n] is, the result being made
    of that state. *)
Theorem align_stops_at_first_convergence (fuel : nat) (matrix : list (list point))
    (rm : ReferentModel) :
  align is_converged rotation_alignment check_distance fuel matrix = Returned rm <->
  exists (st0 st : DataCollector * DataCollector * list DataCollector) (n : nat),
    loop_entry matrix = Some st0 /\
    (n <= fuel)%nat /\
    iterate (iteration rotation_alignment check_distance) n st0 = Some st /\
    converged is_converged st = true /\
    (forall m, (m < n)%nat ->
       exists sm, iterate (iteration rotation_alignment check_distance) m st0 = Some sm /\
                  converged is_converged sm = false) /\
    rm = loop_exit st.
Proof.
  rewrite align_through_loop. split.
  - intros [st0 [st [H0 [Hl Hrm]]]]. apply loop_returns_iff in Hl.
    destruct Hl as [n [Hn [Hit [Hc Hm]]]]. exists st0, st, n. auto 7.
  - intros [st0 [st [n [H0 [Hn [Hit [Hc [Hm Hrm]]]]]]]]. exists st0, st.
    split; [exact H0|]. split; [|exact Hrm].
    apply loop_returns_iff. exists n. auto.
Qed.

End Claims.

(** *** A collection of one shape *)

Lemma sqdist_refl (l : list point) : sqdist l l = 0.
Proof. induction l as [|p l IH]; simpl; [reflexivity|]. rewrite IH. ring. Qed.

Lemma sqdist_zeros (l : list point) : sqdist (zeros_like l) l = sumsq l.
Proof. induction l as [|p l IH]; simpl; [reflexivity|]. rewrite IH. ring. Qed.

Lemma map_div_one (l : list point) : map (fun p => (fst p / 1, snd p / 1)) l = l.
Proof.
  rewrite <- (map_id l) at 2. apply map_ext. intros [y x]. simpl. f_equal; field.
Qed.

Lemma mean_model_singleton (item : DataCollector) : mean_model [item] = points item.
Proof.
  unfold mean_model, _convert_collection_to_matrix, column_mean, as_vector. simpl.
  apply map_div_one.
Qed.

Section OneShape.

Variable rotation_alignment : DataCollector -> DataCollector -> R.
Variable check_distance : DataCollector -> R.

(** The mean of a single normalised shape is that shape. *)
Lemma singleton_iteration (old mean item : DataCollector) :
  normalised item ->
  exists mean',
    iteration rotation_alignment check_distance (old, mean, [item]) =
      Some (read_points old (points mean), mean',
            [realign rotation_alignment check_distance mean' item]) /\
    points mean' = points item.
Proof.
  intros [Hc Hs]. unfold iteration. rewrite mean_model_singleton.
  set (d := translate_to_origin (read_vector mean (points item))).
  assert (Hd : points d = points item).
  { subst d. rewrite translate_centered_points by exact Hc. reflexivity. }
  assert (Hn : norm (points d) = 1).
  { unfold norm. rewrite Hd, Hs. apply sqrt_1. }
  destruct (scale_to_unit d) as [m|] eqn:E.
  - exists m. split; [reflexivity|].
    apply scale_to_unit_some in E. destruct E as [_ [Hp _]].
    rewrite Hp, Hn, Hd. apply map_div_one.
  - apply scale_to_unit_none in E. lra.
Qed.

(** With the threshold test a single shape is aligned in one pass. *)
Lemma align_one_shape_returns (eps : R) (fuel : nat) (row : list point) :
  0 < eps <= 1 ->
  magnitude row <> 0 ->
  exists rm,
    align (is_converged_spec eps) rotation_alignment check_distance (S fuel) [row]
    = Returned rm.
Proof.
  intros Heps Hrow. unfold align, _convert_matrix_to_collection. cbn [map scale_all].
  destruct (scale_to_unit (translate_to_origin (read_vector new_collector row)))
    as [d|] eqn:E; [|apply scale_to_unit_none in E; contradiction].
  assert (Hd : normalised d) by (eapply normalise_normalised; exact E).
  cbn [procrustes_loop fst snd].
  assert (H0 : is_converged_spec eps
                 (read_points new_collector (zeros_like (points d))) d = false).
  { unfold is_converged_spec. cbn [points read_points].
    rewrite sqdist_zeros. destruct Hd as [_ ->].
    destruct (Rlt_dec 1 eps); [lra | reflexivity]. }
  rewrite H0.
  destruct (singleton_iteration (read_points new_collector (zeros_like (points d))) d d Hd)
    as [mean' [-> Hp]].
  assert (H1 : is_converged_spec eps
                 (read_points (read_points new_collector (zeros_like (points d))) (points d))
                 mean' = true).
  { unfold is_converged_spec. cbn [points read_points].
    rewrite Hp, sqdist_refl. destruct (Rlt_dec 0 eps); [reflexivity | lra]. }
  destruct fuel; cbn [procrustes_loop fst snd]; rewrite H1; eexists; reflexivity.
Qed.

End OneShape.

(** *** Shapes of zero variance *)

Lemma sumsq_zero (pts : list point) :
  sumsq pts = 0 <-> Forall (fun p => p = (0, 0)) pts.
Proof.
  induction pts as [|[y x] l IH].
  - split; [constructor | reflexivity].
  - change (sumsq ((y, x) :: l)) with (y * y + x * x + sumsq l).
    pose proof (sumsq_nonneg l) as Hl.
    pose proof (Rle_0_sqr y) as Hy. pose proof (Rle_0_sqr x) as Hx.
    unfold Rsqr in Hy, Hx. split.
    + intros H.
      assert (Hy0 : y * y = 0) by lra. assert (Hx0 : x * x = 0) by lra.
      apply Rmult_integral in Hy0. apply Rmult_integral in Hx0.
      constructor; [f_equal; lra | apply IH; lra].
    + intros H. inversion H as [|? ? Hp Hrest]; subst.
      injection Hp as -> ->. apply IH in Hrest. rewrite Hrest. ring.
Qed.

Lemma sums_of_copies (p0 : point) (row : list point) :
  Forall (fun p => p = p0) row ->
  sum_y row = INR (length row) * fst p0 /\ sum_x row = INR (length row) * snd p0.
Proof.
  induction 1 as [|p row Hp _ [IHy IHx]].
  - simpl. split; ring.
  - subst p. change (length (p0 :: row)) with (S (length row)). rewrite S_INR.
    change (sum_y (p0 :: row)) with (fst p0 + sum_y row).
    change (sum_x (p0 :: row)) with (snd p0 + sum_x row).
    rewrite IHy, IHx. split; ring.
Qed.

(** A shape has zero variance exactly when its magnitude, the norm by which
    [scale_to_unit] divides it once centred, is zero. *)
Lemma zero_variance_magnitude (row : list point) :
  zero_variance row <-> magnitude row = 0.
Proof.
  unfold magnitude, norm. cbn [points translate_to_origin read_vector].
  destruct row as [|p0 row].
  - split; [intros _; simpl; apply sqrt_0 | intros _ p q []].
  - remember (p0 :: row) as pts eqn:E.
    assert (Hn : INR (length pts) <> 0) by (apply length_pos_INR; subst; discriminate).
    split.
    + intros Hz. rewrite <- sqrt_0. f_equal. apply sumsq_zero.
      assert (Hall : Forall (fun p => p = p0) pts).
      { apply Forall_forall. intros p Hp. apply Hz; [exact Hp | subst; now left]. }
      destruct (sums_of_copies p0 pts Hall) as [Hy Hx].
      apply Forall_forall. intros q Hq. apply in_map_iff in Hq.
      destruct Hq as [p [<- Hp]]. rewrite Forall_forall in Hall.
      rewrite (Hall p Hp). unfold centroid. cbn [fst snd]. rewrite Hy, Hx.
      f_equal; field; exact Hn.
    + intros Hz. apply sqrt_eq_0 in Hz; [|apply sumsq_nonneg].
      apply sumsq_zero in Hz. rewrite Forall_forall in Hz.
      assert (Hc : forall p, In p pts -> p = centroid pts).
      { remember (centroid pts) as c eqn:Ec. destruct c as [cy cx].
        intros [y x] Hp.
        specialize (Hz _ (in_map (fun p => (fst p - fst (cy, cx),
                                            snd p - snd (cy, cx))) pts _ Hp)).
        cbn [fst snd] in Hz.
        assert (Hy : y - cy = 0) by (change (fst (y - cy, x - cx) = 0); now rewrite Hz).
        assert (Hx : x - cx = 0) by (change (snd (y - cy, x - cx) = 0); now rewrite Hz).
        f_equal; lra. }
      intros p q Hp Hq. rewrite (Hc p Hp), (Hc q Hq). reflexivity.
Qed.

Section Degenerate.

Variable rotation_alignment : DataCollector -> DataCollector -> R.
Variable check_distance : DataCollector -> R.

(** C9 (as the code has it): on a collection without shapes [align] fails
    with [IndexError], at [self.points[0]]; on a collection with a shape of
    zero variance it fails with the [InvalidInput] error of [scale_to_unit];
    a collection of one shape whose points are not all identical is not
    rejected: it is aligned and [align] returns. *)
Theorem align_degenerate_input (eps : R) (fuel : nat) (matrix : list (list point)) :
  0 < eps <= 1 ->
  (matrix = [] ->
   align (is_converged_spec eps) rotation_alignment check_distance fuel matrix
   = Raised IndexError) /\
  ((exists row, In row matrix /\ zero_variance row) ->
   align (is_converged_spec eps) rotation_alignment check_distance fuel matrix
   = Raised InvalidInput) /\
  (forall row, matrix = [row] -> ~ zero_variance row -> (1 <= fuel)%nat ->
   exists rm,
     align (is_converged_spec eps) rotation_alignment check_distance fuel matrix
     = Returned rm).
Proof.
  intros Heps. split; [|split].
  - intros ->. reflexivity.
  - intros [row [Hin Hz]]. unfold align. cbv zeta.
    rewrite scale_all_none; [reflexivity|].
    exists (translate_to_origin (read_vector new_collector row)). split.
    + apply in_map. unfold _convert_matrix_to_collection.
      apply (in_map (fun r => read_vector new_collector r)). exact Hin.
    + apply zero_variance_magnitude in Hz. exact Hz.
  - intros row -> Hnz Hfuel. destruct fuel as [|fuel]; [lia|].
    apply align_one_shape_returns; [exact Heps|].
    intros Hm. apply Hnz. now apply zero_variance_magnitude.
Qed.

End Degenerate.

Lemma threshold_small : 0 < threshold <= 1.
Proof. unfold threshold. lra. Qed.

Lemma segment_magnitude : magnitude [(1, 0); (-1, 0)] <> 0.
Proof.
  unfold magnitude, norm. intros H. apply sqrt_eq_0 in H; [|apply sumsq_nonneg].
  revert H. unfold translate_to_origin, read_vector, centroid, sumsq, sum_y, sum_x.
  simpl. lra.
Qed.

Lemma dot_zero_variance : zero_variance [(1, 1); (1, 1)].
Proof.
  intros p q [<- | [<- | []]] [<- | [<- | []]]; reflexivity.
Qed.

(** C9 (the claim fails on the code): a collection of one shape, fewer than
    two, is aligned and [align] returns. *)
Lemma align_single_shape_returns :
  (length segment < 2)%nat /\
  exists rm,
    align (is_converged_spec threshold) rotation_alignment_spec check_distance_spec
      1 segment = Returned rm.
Proof.
  split; [simpl; lia|].
  apply align_one_shape_returns; [apply threshold_small | apply segment_magnitude].
Qed.

Lemma align_degenerate_input_witness :
  align (is_converged_spec threshold) rotation_alignment_spec check_distance_spec 1 dot
  = Raised InvalidInput.
Proof.
  apply (proj1 (proj2 (align_degenerate_input rotation_alignment_spec check_distance_spec
                         threshold 1 dot threshold_small))).
  exists [(1, 1); (1, 1)]. split; [now left | apply dot_zero_variance].
Defined.

(** *** Two shapes on a line

    Where all landmarks of all shapes lie on one line through the centroids,
    the least-squares rotation is zero, the realigned shapes keep their
    points, and the mean shape of the second pass is the mean shape of the
    first: the threshold test passes after two passes at most. *)

Lemma cross_sums_flat (mean item : list point) :
  flat mean -> flat item -> fst (cross_sums mean item) = 0.
Proof.
  revert item. induction mean as [|m mean IH]; intros [|p item] Hm Hi; try reflexivity.
  inversion Hm as [|? ? Hm0 Hm']; inversion Hi as [|? ? Hp0 Hi']; subst.
  cbn [cross_sums]. specialize (IH item Hm' Hi').
  destruct (cross_sums mean item) as [num den]. cbn [fst] in *.
  rewrite IH, Hm0, Hp0. ring.
Qed.

Lemma rotation_alignment_flat (mean item : DataCollector) :
  flat (points mean) -> flat (points item) -> rotation_alignment_spec mean item = 0.
Proof.
  intros Hm Hi. unfold rotation_alignment_spec.
  pose proof (cross_sums_flat _ _ Hm Hi) as H.
  destruct (cross_sums (points mean) (points item)) as [num den]. cbn [fst] in H.
  rewrite H. unfold Rdiv. rewrite Rmult_0_l. apply atan_0.
Qed.

Lemma rotate_zero (d : DataCollector) : points (rotate 0 d) = points d.
Proof.
  unfold rotate. cbn [points]. rewrite sin_0, cos_0.
  rewrite <- (map_id (points d)) at 2. apply map_ext.
  intros [y x]. cbn [fst snd]. f_equal; ring.
Qed.

Lemma realign_flat (mean item : DataCollector) :
  flat (points mean) -> flat (points item) -> normalised item ->
  points (realign rotation_alignment_spec check_distance_spec mean item) = points item.
Proof.
  intros Hm Hi [Hc _]. unfold realign. cbv zeta.
  rewrite (rotation_alignment_flat _ _ Hm Hi).
  destruct (Req_EM_T _ _); [apply rotate_zero|].
  rewrite translate_centered_points; rewrite rotate_zero; [reflexivity | exact Hc].
Qed.

Lemma sum_x_flat (pts : list point) : flat pts -> sum_x pts = 0.
Proof.
  induction 1 as [|p l Hp _ IH]; [reflexivity|].
  change (sum_x (p :: l)) with (snd p + sum_x l). rewrite Hp, IH. ring.
Qed.

Lemma flat_vadd (u v : list point) : flat u -> flat v -> flat (vadd u v).
Proof.
  revert v. induction u as [|a u IH]; intros [|b v] Hu Hv; try constructor.
  - inversion Hu as [|? ? Ha Hu']; inversion Hv as [|? ? Hb Hv']; subst.
    unfold padd. cbn [snd]. rewrite Ha, Hb. ring.
  - inversion Hu; inversion Hv; subst. now apply IH.
Qed.

Lemma flat_mean_model (items : list DataCollector) :
  Forall (fun d => flat (points d)) items -> flat (mean_model items).
Proof.
  intros H. unfold mean_model, _convert_collection_to_matrix, column_mean.
  destruct items as [|d items]; [constructor|].
  inversion H as [|? ? Hd Hitems]; subst. cbn [map].
  assert (Hsum : flat (fold_left vadd (map as_vector items) (as_vector d))).
  { clear H. revert Hd. unfold as_vector. generalize (points d) as acc.
    induction Hitems as [|e items He _ IH]; intros acc Hacc; [exact Hacc|].
    cbn [map fold_left]. apply IH. now apply flat_vadd. }
  unfold flat in *. apply Forall_map. eapply Forall_impl; [|exact Hsum].
  intros p Hp. cbn [snd]. rewrite Hp. unfold Rdiv. ring.
Qed.

Lemma flat_translate (d : DataCollector) :
  flat (points d) -> flat (points (translate_to_origin d)).
Proof.
  intros H. unfold translate_to_origin, centroid. cbn [points fst snd].
  rewrite (sum_x_flat _ H). unfold flat in *. apply Forall_map.
  eapply Forall_impl; [|exact H]. intros p Hp. cbn [snd]. rewrite Hp.
  unfold Rdiv. ring.
Qed.

Lemma flat_scale (d d' : DataCollector) :
  scale_to_unit d = Some d' -> flat (points d) -> flat (points d').
Proof.
  intros H Hd. apply scale_to_unit_some in H. destruct H as [_ [Hp _]].
  rewrite Hp. unfold flat in *. apply Forall_map.
  eapply Forall_impl; [|exact Hd]. intros p Hq. cbn [snd]. rewrite Hq.
  unfold Rdiv. ring.
Qed.

Lemma mean_model_points (items items' : list DataCollector) :
  map points items' = map points items -> mean_model items' = mean_model items.
Proof.
  intros H. unfold mean_model, _convert_collection_to_matrix.
  change (map as_vector items') with (map points items').
  rewrite H. reflexivity.
Qed.

Lemma flat_loop_returns (eps : R) (old mean : DataCollector) (items : list DataCollector) :
  0 < eps ->
  Forall normalised items ->
  Forall (fun d => flat (points d)) items ->
  norm (points (translate_to_origin (read_vector mean (mean_model items)))) <> 0 ->
  exists st,
    procrustes_loop (is_converged_spec eps) rotation_alignment_spec check_distance_spec
      2 (old, mean, items) = Returned st.
Proof.
  intros Heps Hn Hf Hm.
  cbn [procrustes_loop fst snd].
  destruct (is_converged_spec eps old mean); [now eexists|].
  unfold iteration at 1.
  destruct (scale_to_unit (translate_to_origin (read_vector mean (mean_model items))))
    as [m1|] eqn:E1; [|apply scale_to_unit_none in E1; contradiction].
  cbn [procrustes_loop fst snd].
  set (items1 := map (realign rotation_alignment_spec check_distance_spec m1) items).
  assert (Hm1 : flat (points m1)).
  { eapply flat_scale; [exact E1|]. apply flat_translate. cbn [points read_vector].
    now apply flat_mean_model. }
  assert (Hpts : map points items1 = map points items).
  { subst items1. rewrite map_map. clear - Hn Hf Hm1.
    induction items as [|d items IH]; [reflexivity|].
    inversion Hn as [|? ? Hd Hn']; inversion Hf as [|? ? Hfd Hf']; subst.
    cbn [map]. f_equal; [|apply IH; assumption].
    apply realign_flat; assumption. }
  destruct (is_converged_spec eps (read_points old (points mean)) m1); [now eexists|].
  unfold iteration at 1. rewrite (mean_model_points _ _ Hpts).
  destruct (scale_to_unit (translate_to_origin (read_vector m1 (mean_model items))))
    as [m2|] eqn:E2.
  - cbn [procrustes_loop fst snd].
    assert (H12 : points m2 = points m1).
    { apply scale_to_unit_some in E1. apply scale_to_unit_some in E2.
      destruct E1 as [_ [-> _]]. destruct E2 as [_ [-> _]]. reflexivity. }
    assert (Hc : is_converged_spec eps
                   (read_points (read_points old (points mean)) (points m1)) m2 = true).
    { unfold is_converged_spec. cbn [points read_points].
      rewrite H12, sqdist_refl. destruct (Rlt_dec 0 eps); [reflexivity | lra]. }
    rewrite Hc. now eexists.
  - apply scale_to_unit_none in E2. contradiction.
Qed.

Lemma collector_eq (d d' : DataCollector) :
  points d = points d' -> scale_factor d = scale_factor d' -> offset d = offset d' ->
  d = d'.
Proof. destruct d, d'. simpl. intros -> -> ->. reflexivity. Qed.

Ltac points_eq :=
  repeat (apply (f_equal2 (@cons point)); [apply (f_equal2 (@pair R R)); lra|]);
  reflexivity.

(** The two rows centred and scaled to unit size. *)
Definition short_unit : DataCollector :=
  {| points := [(1 / 2, 0); (1 / 2, 0); (- 1 / 2, 0); (- 1 / 2, 0)];
     scale_factor := 2;
     offset := (3, 7) |}.

Definition long_unit : DataCollector :=
  {| points := [(5 / 6, 0); (- 1 / 6, 0); (- 1 / 6, 0); (- 1 / 2, 0)];
     scale_factor := 6;
     offset := (10, -1) |}.

Lemma short_unit_ok :
  scale_to_unit (translate_to_origin (read_vector new_collector short_row)) = Some short_unit.
Proof.
  set (d := translate_to_origin (read_vector new_collector short_row)).
  assert (Hp : points d = [(1, 0); (1, 0); (-1, 0); (-1, 0)]).
  { subst d. unfold translate_to_origin, centroid, sum_y, sum_x, short_row.
    cbn [points read_vector map fold_right fst snd length INR]. points_eq. }
  assert (Hn : norm (points d) = 2).
  { rewrite Hp. unfold norm.
    replace (sumsq [(1, 0); (1, 0); (-1, 0); (-1, 0)]) with (2 * 2)
      by (unfold sumsq; cbn [fold_right fst snd]; lra).
    apply sqrt_square. lra. }
  unfold scale_to_unit. cbv zeta. rewrite Hn.
  destruct (Req_EM_T 2 0) as [H|_]; [lra|].
  f_equal. unfold short_unit. apply collector_eq; cbn [points scale_factor offset].
  - rewrite Hp. cbn [map fst snd]. points_eq.
  - subst d. cbn [scale_factor translate_to_origin read_vector new_collector]. lra.
  - subst d. unfold translate_to_origin, centroid, sum_y, sum_x, short_row.
    cbn [offset points read_vector new_collector fold_right fst snd length INR].
    apply (f_equal2 (@pair R R)); lra.
Qed.

Lemma long_unit_ok :
  scale_to_unit (translate_to_origin (read_vector new_collector long_row)) = Some long_unit.
Proof.
  set (d := translate_to_origin (read_vector new_collector long_row)).
  assert (Hp : points d = [(5, 0); (-1, 0); (-1, 0); (-3, 0)]).
  { subst d. unfold translate_to_origin, centroid, sum_y, sum_x, long_row.
    cbn [points read_vector map fold_right fst snd length INR]. points_eq. }
  assert (Hn : norm (points d) = 6).
  { rewrite Hp. unfold norm.
    replace (sumsq [(5, 0); (-1, 0); (-1, 0); (-3, 0)]) with (6 * 6)
      by (unfold sumsq; cbn [fold_right fst snd]; lra).
    apply sqrt_square. lra. }
  unfold scale_to_unit. cbv zeta. rewrite Hn.
  destruct (Req_EM_T 6 0) as [H|_]; [lra|].
  f_equal. unfold long_unit. apply collector_eq; cbn [points scale_factor offset].
  - rewrite Hp. cbn [map fst snd]. points_eq.
  - subst d. cbn [scale_factor translate_to_origin read_vector new_collector]. lra.
  - subst d. unfold translate_to_origin, centroid, sum_y, sum_x, long_row.
    cbn [offset points read_vector new_collector fold_right fst snd length INR].
    apply (f_equal2 (@pair R R)); lra.
Qed.

Lemma two_rows_mean :
  norm (points (translate_to_origin
                  (read_vector short_unit (mean_model [short_unit; long_unit])))) <> 0.
Proof.
  unfold norm. intros H. apply sqrt_eq_0 in H; [|apply sumsq_nonneg].
  revert H.
  unfold translate_to_origin, read_vector, centroid, sumsq, sum_y, sum_x, mean_model,
    _convert_collection_to_matrix, column_mean, as_vector, short_unit, long_unit, padd.
  cbn [points map fold_left fold_right vadd fst snd length INR]. unfold padd.
  cbn [fst snd]. lra.
Qed.

(** With the threshold test, the least-squares rotation and the deviation
    from unit scale of the specification, [align] returns on the two rows. *)
Lemma two_rows_aligned :
  exists rm,
    align (is_converged_spec threshold) rotation_alignment_spec check_distance_spec
      2 two_rows = Returned rm.
Proof.
  unfold align, two_rows, _convert_matrix_to_collection. cbn [map scale_all].
  rewrite short_unit_ok, long_unit_ok.
  destruct (flat_loop_returns threshold
              (read_points new_collector (zeros_like (points short_unit)))
              short_unit [short_unit; long_unit]) as [[[old mean] items] Hst].
  - apply threshold_small.
  - constructor; [apply (normalise_normalised _ _ short_unit_ok)|].
    constructor; [apply (normalise_normalised _ _ long_unit_ok) | constructor].
  - unfold flat. repeat constructor.
  - apply two_rows_mean.
  - rewrite Hst. eexists. reflexivity.
Qed.

Lemma align_normalises_witness :
  exists rm,
    align (is_converged_spec threshold) rotation_alignment_spec check_distance_spec
      2 two_rows = Returned rm /\
    Forall (fun d => centroid (points d) = (0, 0) /\ sumsq (points d) = 1) (shapes rm) /\
    centroid (points (mean_shape rm)) = (0, 0) /\
    sumsq (points (mean_shape rm)) = 1 /\
    scale_factor (mean_shape rm) = Rsum (map magnitude two_rows) / INR (length two_rows).
Proof.
  destruct two_rows_aligned as [rm H]. exists rm.
  split; [exact H|].
  exact (align_normalises _ _ _ 2%nat two_rows rm H).
Defined.

Lemma align_keeps_rows_witness :
  exists rm,
    align (is_converged_spec threshold) rotation_alignment_spec check_distance_spec
      2 two_rows = Returned rm /\
    exists units means : list DataCollector,
      Forall2 (fun row u =>
                 scale_to_unit (translate_to_origin (read_vector new_collector row)) = Some u)
              two_rows units /\
      (length means <= 2)%nat /\
      mean_trace rotation_alignment_spec check_distance_spec
        (hd new_collector units) units means /\
      shapes rm = map (realigned rotation_alignment_spec check_distance_spec means) units /\
      retrieve_as_matrix rm =
        map (fun u => as_vector (realigned rotation_alignment_spec check_distance_spec
                                   means u)) units /\
      length (shapes rm) = length two_rows.
Proof.
  destruct two_rows_aligned as [rm H]. exists rm.
  split; [exact H|].
  exact (align_keeps_rows _ _ _ 2%nat two_rows rm H).
Defined.

End ProcrustesAlign.

(** ** ReferentModel: back to absolute coordinates *)

Module ProcrustesRescale.
Import Procrustes ProcrustesGeometry.
Local Open Scope R_scope.

(** An aligned collection: what [align] returns. *)
Definition aligned (rm : ReferentModel) : Prop :=
  Forall normalised (shapes rm) /\
  normalised (mean_shape rm) /\
  0 < scale_factor (mean_shape rm).

(** The inverse of rescaling and realigning: back to the origin, then back
    to unit scale. *)
Definition inverse (d : DataCollector) : option DataCollector :=
  scale_to_unit (translate_to_origin d).

(** The two operations in the order the claim names them. *)
Definition inverse_as_claimed (d : DataCollector) : option DataCollector :=
  option_map translate_to_origin (scale_to_unit d).

(** [undo] applied to the shape [after] gives the coordinates of [before]. *)
Definition restores (undo : DataCollector -> option DataCollector)
    (before after : DataCollector) : Prop :=
  exists d, undo after = Some d /\ points d = points before.

(** An aligned shape: the row [(3.5, 3.5), (0.5, 0.5)] centred, its centroid
    [(2, 2)] retained as offset, and scaled down by its magnitude 3. *)
Definition diagonal : DataCollector :=
  {| points := [(1 / 2, 1 / 2); (- (1 / 2), - (1 / 2))];
     scale_factor := 3;
     offset := (2, 2) |}.

Definition diagonal_model : ReferentModel :=
  {| shapes := [diagonal]; mean_shape := diagonal |}.

Lemma normalised_not_empty (d : DataCollector) : normalised d -> points d <> [].
Proof.
  intros [_ Hs] E. rewrite E in Hs. simpl in Hs. lra.
Qed.

Lemma map_scale_back (f : R) (pts : list point) :
  f <> 0 ->
  map (fun p => (fst p / f, snd p / f)) (map (fun p => (fst p * f, snd p * f)) pts) = pts.
Proof.
  intros Hf. rewrite map_map. rewrite <- (map_id pts) at 2. apply map_ext.
  intros [y x]. simpl. f_equal; field; exact Hf.
Qed.

(** Rescaling a normalised shape by a positive factor and moving it to its
    offset is undone by [inverse]. *)
Lemma rescale_realign_inverse (f : R) (d : DataCollector) :
  normalised d -> 0 < f ->
  restores inverse d (realign_to_absolute (rescale_with_factor f d)).
Proof.
  intros Hd Hf. pose proof (normalised_not_empty d Hd) as Hne.
  destruct Hd as [[Hy Hx] Hs].
  set (after := realign_to_absolute (rescale_with_factor f d)).
  set (scaled := map (fun p => (fst p * f, snd p * f)) (points d)).
  assert (Hafter : points after =
                   map (fun p => (fst p + fst (offset d), snd p + snd (offset d))) scaled)
    by reflexivity.
  assert (Hlen : length (points after) = length (points d)).
  { rewrite Hafter. unfold scaled. now rewrite !length_map. }
  assert (Hn : INR (length (points d)) <> 0) by now apply length_pos_INR.
  assert (Hsy : sum_y scaled = 0).
  { unfold scaled. rewrite (sum_y_map _ f 0) by (intros q; simpl; ring). rewrite Hy. ring. }
  assert (Hsx : sum_x scaled = 0).
  { unfold scaled. rewrite (sum_x_map _ f 0) by (intros q; simpl; ring). rewrite Hx. ring. }
  assert (Hc : centroid (points after) = offset d).
  { unfold centroid. rewrite Hlen, Hafter.
    rewrite (sum_y_map _ 1 (fst (offset d))) by (intros q; simpl; ring).
    rewrite (sum_x_map _ 1 (snd (offset d))) by (intros q; simpl; ring).
    rewrite Hsy, Hsx. unfold scaled. rewrite length_map.
    destruct (offset d) as [oy ox]. simpl. unfold point in *.
    apply f_equal2; field; exact Hn. }
  assert (Ht : points (translate_to_origin after) = scaled).
  { unfold translate_to_origin. cbn [points]. rewrite Hc, Hafter, map_map.
    rewrite <- (map_id scaled) at 2. apply map_ext.
    intros [y x]. simpl. f_equal; ring. }
  assert (Hnorm : norm (points (translate_to_origin after)) = f).
  { unfold norm. rewrite Ht. unfold scaled. rewrite sumsq_scale, Hs.
    replace (f * f * 1) with (f * f) by ring. apply sqrt_square. lra. }
  unfold restores, inverse.
  destruct (scale_to_unit (translate_to_origin after)) as [r|] eqn:E.
  - exists r. split; [reflexivity|].
    apply scale_to_unit_some in E. destruct E as [_ [Hp _]].
    rewrite Hp, Hnorm, Ht. unfold scaled. apply map_scale_back. lra.
  - apply scale_to_unit_none in E. lra.
Qed.

(** C6 (as the operations have it): on an aligned collection,
    [rescale_and_realign] followed by [translate_to_origin] and then
    [scale_to_unit] gives back the coordinates every shape and the mean shape
    had before. *)
Theorem rescale_and_realign_round_trip (rm : ReferentModel) :
  aligned rm ->
  Forall2 (restores inverse) (shapes rm) (shapes (rescale_and_realign rm)) /\
  restores inverse (mean_shape rm) (mean_shape (rescale_and_realign rm)).
Proof.
  intros [Hs [Hm Hf]]. split.
  - unfold rescale_and_realign. cbn [shapes].
    induction Hs as [|d l Hd _ IH]; simpl; constructor; [|exact IH].
    now apply rescale_realign_inverse.
  - unfold rescale_and_realign, rescale. cbn [mean_shape].
    now apply rescale_realign_inverse.
Qed.

Lemma diagonal_aligned : aligned diagonal_model.
Proof.
  assert (H : normalised diagonal).
  { unfold normalised, centered, diagonal, sum_y, sum_x, sumsq. simpl.
    repeat split; field. }
  unfold aligned, diagonal_model. simpl. repeat split; try apply H.
  - constructor; [exact H | constructor].
  - lra.
Qed.

Lemma rescale_and_realign_round_trip_witness :
  Forall2 (restores inverse) (shapes diagonal_model)
    (shapes (rescale_and_realign diagonal_model)) /\
  restores inverse (mean_shape diagonal_model)
    (mean_shape (rescale_and_realign diagonal_model)).
Proof.
  exact (rescale_and_realign_round_trip diagonal_model diagonal_aligned).
Defined.

(** C6 (the claim fails in the order it names): scaling to unit size first
    and translating to the origin afterwards does not give the coordinates
    back.  The rescaled shape [(3.5, 3.5), (0.5, 0.5)] has norm 5, so the
    first landmark comes back as [0.3], not as [0.5]. *)
Lemma scale_then_translate_not_inverse :
  aligned diagonal_model /\
  ~ Forall2 (restores inverse_as_claimed) (shapes diagonal_model)
      (shapes (rescale_and_realign diagonal_model)).
Proof.
  split; [apply diagonal_aligned|].
  intros H. unfold rescale_and_realign, diagonal_model in H.
  cbn [shapes mean_shape map] in H.
  inversion H as [|b a l l' [d [Hd Hp]] _]; subst. clear H.
  unfold inverse_as_claimed in Hd.
  destruct (scale_to_unit _) as [s|] eqn:E; [|discriminate].
  simpl in Hd. inversion Hd; subst. clear Hd.
  apply scale_to_unit_some in E. destruct E as [_ [Hs _]].
  assert (Hnorm : norm (points (realign_to_absolute (rescale_with_factor 3 diagonal))) = 5).
  { unfold norm. replace (sumsq _) with (5 * 5).
    - apply sqrt_square. lra.
    - unfold sumsq, diagonal. simpl. field. }
  rewrite Hnorm in Hs.
  unfold translate_to_origin in Hp. cbn [points] in Hp. rewrite Hs in Hp.
  unfold diagonal, centroid, sum_y, sum_x in Hp. simpl in Hp.
  inversion Hp as [[H1 H2 H3 H4]]. lra.
Qed.

End ProcrustesRescale.

(** ** The sampler: degenerate and mirrored directions *)

Module SamplerDirections.
Import Double Sampler SamplerPoints.

Lemma walk_ext (f g : Z -> result pixel) (k : nat) (sp : list pixel) (fuel : nat) :
  (forall i, f i = g i) ->
  forall found ind, walk f k sp fuel found ind = walk g k sp fuel found ind.
Proof.
  intros H. induction fuel as [|fuel IH]; intros found ind; simpl; [reflexivity|].
  rewrite H. destruct (g ind); [|reflexivity]. rewrite !IH. reflexivity.
Qed.

(** A walk whose steps give the starting point or raise finds nothing. *)
Lemma walk_stuck (f : Z -> result pixel) (k : nat) (center : pixel) (fuel : nat) :
  (forall i, f i = Ok center \/ exists e, f i = Raise e) ->
  forall found ind r, (length found < k)%nat ->
  walk f k [center] fuel found ind <> Done r.
Proof.
  intros H. induction fuel as [|fuel IH]; intros found ind r Hlen; cbn [walk];
    apply Nat.ltb_lt in Hlen; rewrite Hlen; [discriminate|].
  destruct (H ind) as [-> | [e ->]]; [|discriminate].
  assert (Hin : pixel_in center [center] = true) by (apply pixel_in_In; now left).
  rewrite Hin, andb_false_r. apply IH. now apply Nat.ltb_lt.
Qed.

(** A product with zero is zero, or nan when the other factor is not
    finite. *)
Lemma mul_zero_r (x : double) (s : bool) :
  (exists s', mul x (S754_zero s) = S754_zero s') \/ mul x (S754_zero s) = S754_nan.
Proof.
  destruct x as [sx|sx| |sx mx ex]; cbn; eauto.
Qed.

(** Taking off or adding a zero leaves the truncation as it is; taking off
    or adding nan leaves nothing to truncate. *)
Lemma to_int_sub_zero (a t : double) :
  (exists s, t = S754_zero s) \/ t = S754_nan ->
  to_int (sub a t) = to_int a \/ to_int (sub a t) = Raise ValueError.
Proof.
  intros [[s ->] | ->].
  - left. destruct a as [sa|sa| |sa ma ea]; try reflexivity.
    destruct sa, s; reflexivity.
  - right. destruct a; reflexivity.
Qed.

Lemma to_int_add_zero (a t : double) :
  (exists s, t = S754_zero s) \/ t = S754_nan ->
  to_int (add a t) = to_int a \/ to_int (add a t) = Raise ValueError.
Proof.
  intros [[s ->] | ->].
  - left. destruct a as [sa|sa| |sa ma ea]; try reflexivity.
    destruct sa, s; reflexivity.
  - right. destruct a; reflexivity.
Qed.

Lemma stride_zero (ind : Z) (s : bool) :
  (exists e, stride ind (S754_zero s) = Raise e) \/
  (exists t, stride ind (S754_zero s) = Ok t /\
             ((exists s', t = S754_zero s') \/ t = S754_nan)).
Proof.
  unfold stride. destruct (of_int ind) as [i|e]; cbn [bind]; [|eauto].
  right. eexists. split; [reflexivity|]. apply mul_zero_r.
Qed.

Lemma pos_point_zero (start_point : point) (s0 s1 : bool) (center : pixel) (ind : Z) :
  landmark_pixel start_point = Ok center ->
  pos_point start_point (S754_zero s0, S754_zero s1) ind = Ok center \/
  exists e, pos_point start_point (S754_zero s0, S754_zero s1) ind = Raise e.
Proof.
  unfold landmark_pixel, pos_point. cbn [fst snd].
  destruct (to_int (fst start_point)) as [y|] eqn:Ey; [|discriminate].
  destruct (to_int (snd start_point)) as [x|] eqn:Ex; [|discriminate].
  cbn [bind]. intros H. injection H as <-.
  destruct (stride_zero ind s0) as [[e ->] | [t0 [-> H0]]]; cbn [bind]; [eauto|].
  destruct (to_int_sub_zero (fst start_point) t0 H0) as [-> | ->]; cbn [bind]; [|eauto].
  rewrite Ey. cbn [bind].
  destruct (stride_zero ind s1) as [[e ->] | [t1 [-> H1]]]; cbn [bind]; [eauto|].
  destruct (to_int_sub_zero (snd start_point) t1 H1) as [-> | ->]; cbn [bind]; [|eauto].
  rewrite Ex. cbn [bind]. now left.
Qed.

(** With the zero vector as direction and [k >= 1], the first loop of
    [_generate_points] finds nothing: every step gives the pixel of the
    landmark again, which is skipped, or raises.  No fuel makes it return a
    list. *)
Theorem generate_points_zero_direction (k : nat) (start_point : point) (s0 s1 : bool) :
  (1 <= k)%nat ->
  forall (fuel : nat) (pts : list pixel),
  _generate_points fuel k start_point (S754_zero s0, S754_zero s1) <> Done pts.
Proof.
  intros Hk fuel pts. unfold _generate_points.
  destruct (landmark_pixel start_point) as [center|] eqn:Ec; [|discriminate].
  cbn [of_result run_bind].
  pose proof (walk_stuck (pos_point start_point (S754_zero s0, S754_zero s1)) k center fuel
                (fun i => pos_point_zero start_point s0 s1 center i Ec) [] 1%Z) as Hw.
  destruct (walk _ k [center] fuel [] 1) as [pos| |]; try discriminate.
  exfalso. apply (Hw pos); [simpl; lia | reflexivity].
Qed.

Lemma generate_points_zero_direction_witness :
  ~ exists pts : list pixel,
      _generate_points 1000 3 (grid 2 3) (S754_zero false, S754_zero true) = Done pts.
Proof.
  intros [pts H].
  apply (generate_points_zero_direction 3 (grid 2 3) false true
           (le_S _ _ (le_S _ _ (le_n 1))) 1000%nat pts H).
Defined.

(** The opposite direction. *)
Definition opposite (direction : point) : point :=
  (opp (fst direction), opp (snd direction)).

(** The list a run returned, if it returned one. *)
Definition returned {A : Type} (r : run A) : option A :=
  match r with
  | Done a => Some a
  | _ => None
  end.

(** Rounding does not depend on the sign. *)
Lemma binary_round_aux_opp (s : bool) (m e : Z) (l : location) :
  binary_round_aux prec emax (negb s) m e l = SFopp (binary_round_aux prec emax s m e l).
Proof.
  unfold binary_round_aux.
  destruct (shr_fexp prec emax m e l) as [mrs e'].
  destruct (shr_fexp prec emax _ e' loc_Exact) as [mrs' e''].
  destruct (shr_m mrs'); try reflexivity.
  destruct (Z.leb e'' (Z.sub emax prec)); reflexivity.
Qed.

Lemma mul_opp_r (x y : double) : mul x (opp y) = opp (mul x y).
Proof.
  destruct x as [sx|sx| |sx mx ex], y as [sy|sy| |sy my ey]; try reflexivity;
    cbn [mul SFmul opp SFopp]; unfold mul, SFmul, opp, SFopp;
    try (destruct sx, sy; reflexivity).
  replace (xorb sx (negb sy)) with (negb (xorb sx sy)) by (destruct sx, sy; reflexivity).
  apply binary_round_aux_opp.
Qed.

Lemma sub_opp_r (x y : double) : sub x (opp y) = add x y.
Proof.
  destruct x as [sx|sx| |sx mx ex], y as [sy|sy| |sy my ey]; try reflexivity;
    unfold sub, SFsub, add, SFadd, opp, SFopp;
    try (destruct sx, sy; reflexivity); try (destruct sy; reflexivity).
Qed.

Lemma add_opp_r (x y : double) : add x (opp y) = sub x y.
Proof.
  destruct x as [sx|sx| |sx mx ex], y as [sy|sy| |sy my ey]; try reflexivity;
    unfold sub, SFsub, add, SFadd, opp, SFopp;
    try (destruct sx, sy; reflexivity); try (destruct sy; reflexivity).
Qed.

Lemma pos_point_opposite (start_point direction : point) (ind : Z) :
  pos_point start_point (opposite direction) ind = neg_point start_point direction ind.
Proof.
  unfold pos_point, neg_point, opposite, stride. cbn [fst snd].
  destruct (of_int ind) as [i|]; cbn [bind]; [|reflexivity].
  rewrite !mul_opp_r, !sub_opp_r. reflexivity.
Qed.

Lemma neg_point_opposite (start_point direction : point) (ind : Z) :
  neg_point start_point (opposite direction) ind = pos_point start_point direction ind.
Proof.
  unfold pos_point, neg_point, opposite, stride. cbn [fst snd].
  destruct (of_int ind) as [i|]; cbn [bind]; [|reflexivity].
  rewrite !mul_opp_r, !add_opp_r. reflexivity.
Qed.

(** Turning the normal around reverses the sample points: with the same
    fuel [_generate_points] returns the same pixels in the opposite order,
    and it returns no list when it returns none for the direction itself. *)
Theorem generate_points_opposite (fuel k : nat) (start_point direction : point) :
  returned (_generate_points fuel k start_point (opposite direction)) =
  option_map (@rev pixel) (returned (_generate_points fuel k start_point direction)).
Proof.
  unfold _generate_points.
  destruct (landmark_pixel start_point) as [center|]; [|reflexivity].
  cbn [of_result run_bind].
  rewrite (walk_ext _ _ k _ fuel (pos_point_opposite start_point direction)).
  rewrite (walk_ext _ _ k _ fuel (neg_point_opposite start_point direction)).
  destruct (walk (neg_point start_point direction) k _ fuel [] 1) as [neg| |];
    destruct (walk (pos_point start_point direction) k _ fuel [] 1) as [pos| |];
    cbn [run_bind returned option_map]; try reflexivity.
  f_equal. rewrite !rev_app_distr, rev_involutive. simpl.
  rewrite <- app_assoc. reflexivity.
Qed.

End SamplerDirections.

(** ** The sampler: the bounds of the image and its brightness *)

Module SamplerImage.
Import Sampler SamplerProfile.

(** The indices numpy accepts on an axis of length [n]. *)
Definition in_bounds (n : nat) (i : Z) : bool :=
  ((- Z.of_nat n <=? i)%Z && (i <? Z.of_nat n)%Z)%bool.

(** The row an accepted index [y] selects. *)
Definition row_of (img : image) (y : Z) : list Z :=
  nth (Z.to_nat (y mod Z.of_nat (length img))) img [].

(** A sample point the image can be read at. *)
Definition inside (img : image) (p : pixel) : bool :=
  (in_bounds (length img) (fst p) && in_bounds (length (row_of img (fst p))) (snd p))%bool.

(** The image with every intensity multiplied by [c]. *)
Definition brighten (c : Z) (img : image) : image := map (map (Z.mul c)) img.

(** Two outcomes of [_sample] that agree: the same exception, or profiles
    with equal entries. *)
Definition same_profile (a b : result (list Q)) : Prop :=
  match a, b with
  | Ok u, Ok v => Forall2 Qeq u v
  | Raise e, Raise e' => e = e'
  | _, _ => False
  end.

Lemma py_index_wrap {A : Type} (l : list A) (i : Z) (d : A) :
  in_bounds (length l) i = true ->
  py_index l i = Ok (nth (Z.to_nat (i mod Z.of_nat (length l))) l d).
Proof.
  unfold in_bounds. rewrite andb_true_iff, Z.leb_le, Z.ltb_lt. intros [Hlo Hhi].
  destruct (Z_lt_dec i 0) as [Hneg | Hpos].
  - rewrite (py_index_back l i d) by lia. do 3 f_equal.
    apply Z.mod_unique with (q := (-1)%Z); lia.
  - rewrite (py_index_front l i d) by lia. do 3 f_equal.
    symmetry. apply Z.mod_small. lia.
Qed.

Lemma py_index_outside {A : Type} (l : list A) (i : Z) :
  in_bounds (length l) i = false -> py_index l i = Raise IndexError.
Proof.
  unfold in_bounds. intros H.
  assert (Hout : (i < - Z.of_nat (length l) \/ Z.of_nat (length l) <= i)%Z).
  { apply andb_false_iff in H.
    destruct H as [H | H]; [apply Z.leb_gt in H | apply Z.ltb_ge in H]; lia. }
  clear H. unfold py_index.
  destruct (i <? 0)%Z eqn:Hneg.
  - apply Z.ltb_lt in Hneg.
    destruct (0 <=? Z.of_nat (length l) + i)%Z eqn:E; [|reflexivity].
    apply Z.leb_le in E. lia.
  - apply Z.ltb_ge in Hneg.
    destruct (i <? Z.of_nat (length l))%Z eqn:E; [|now rewrite andb_false_r].
    apply Z.ltb_lt in E. lia.
Qed.

Lemma image_at_inside (img : image) (p : pixel) :
  inside img p = true ->
  image_at img p =
  Ok (nth (Z.to_nat (snd p mod Z.of_nat (length (row_of img (fst p)))))
          (row_of img (fst p)) 0%Z).
Proof.
  unfold inside, image_at. rewrite andb_true_iff. intros [Hy Hx].
  rewrite (py_index_wrap img (fst p) []) by exact Hy. cbn [bind].
  fold (row_of img (fst p)). now apply py_index_wrap.
Qed.

Lemma image_at_outside (img : image) (p : pixel) :
  inside img p = false -> image_at img p = Raise IndexError.
Proof.
  unfold inside, image_at. intros H.
  destruct (in_bounds (length img) (fst p)) eqn:Hy.
  - rewrite (py_index_wrap img (fst p) []) by exact Hy. cbn [bind].
    fold (row_of img (fst p)). apply py_index_outside. exact H.
  - rewrite py_index_outside by exact Hy. reflexivity.
Qed.

Lemma for_each_raise_inv {A B : Type} (f : A -> result B) (l : list A) (e : exn) :
  for_each f l = Raise e -> exists a, In a l /\ f a = Raise e.
Proof.
  induction l as [|a l IH]; simpl; [discriminate|].
  destruct (f a) as [b|e'] eqn:Ea; simpl.
  - destruct (for_each f l) as [bs|e'']; simpl; [discriminate|].
    intros H. inversion H; subst. destruct (IH eq_refl) as [x [Hx Hfx]].
    exists x. split; [now right | exact Hfx].
  - intros H. inversion H; subst. exists a. split; [now left | exact Ea].
Qed.

Lemma for_each_all_ok {A B : Type} (f : A -> result B) (l : list A) :
  (forall a, In a l -> exists b, f a = Ok b) -> exists bs, for_each f l = Ok bs.
Proof.
  induction l as [|a l IH]; simpl; intros H; [now exists []|].
  destruct (H a (or_introl eq_refl)) as [b ->]. simpl.
  destruct IH as [bs ->]; [intros x Hx; apply H; now right|].
  simpl. now eexists.
Qed.

(** [_sample] raises [IndexError] exactly when one of the points lies
    outside the index range [[-H, H) x [-W, W)] of the image, whatever the
    intensities; the points are not clamped and the sum is not looked at
    before every point was read. *)
Theorem sample_index_error_iff (img : image) (points : list pixel) :
  _sample img points = Raise IndexError <-> forallb (inside img) points = false.
Proof.
  unfold _sample. split.
  - intros H. destruct (forallb (inside img) points) eqn:E; [|reflexivity].
    exfalso. rewrite forallb_forall in E.
    destruct (for_each_all_ok (image_at img) points) as [sample Hs].
    { intros p Hp. rewrite image_at_inside by now apply E. now eexists. }
    rewrite Hs in H. cbn [bind] in H.
    apply for_each_raise_inv in H. destruct H as [x [_ Hx]].
    unfold py_div in Hx. destruct (Qeq_bool (divnum sample) 0); discriminate.
  - intros H.
    assert (Hex : exists p, In p points /\ inside img p = false).
    { clear - H. induction points as [|p l IH]; simpl in H; [discriminate|].
      apply andb_false_iff in H. destruct H as [H | H].
      - exists p. split; [now left | exact H].
      - destruct (IH H) as [q [Hq Hi]]. exists q. split; [now right | exact Hi]. }
    destruct (for_each (image_at img) points) as [sample|e] eqn:E.
    + exfalso. destruct Hex as [p [Hp Hi]].
      apply image_at_outside in Hi.
      assert (Hall : forall q, In q points -> exists v, image_at img q = Ok v).
      { clear - E. revert sample E. induction points as [|a l IH]; intros sample E q Hq;
          [contradiction|]. simpl in E.
        destruct (image_at img a) as [v|] eqn:Ea; simpl in E; [|discriminate].
        destruct (for_each (image_at img) l) as [vs|] eqn:El; simpl in E; [|discriminate].
        destruct Hq as [<- | Hq]; [now exists v | now apply (IH vs eq_refl)]. }
      destruct (Hall p Hp) as [v Hv]. congruence.
    + cbn [bind]. apply for_each_raise_inv in E. destruct E as [p [Hp Hr]].
      destruct (inside img p) eqn:Hi.
      * rewrite image_at_inside in Hr by exact Hi. discriminate.
      * rewrite image_at_outside in Hr by exact Hi. congruence.
Qed.

(** A negative coordinate does not fail: the point [(y, x)], anywhere
    inside the index range, reads the pixel [(y mod H, x mod W)]; a sample
    point off the top or the left edge reads from the opposite edge. *)
Theorem image_at_wraps (img : image) (y x : Z) :
  inside img (y, x) = true ->
  image_at img (y, x) =
  image_at img ((y mod Z.of_nat (length img))%Z,
                (x mod Z.of_nat (length (row_of img y)))%Z).
Proof.
  intros H. pose proof H as H'.
  unfold inside, in_bounds in H'. cbn [fst snd] in H'.
  rewrite !andb_true_iff, !Z.leb_le, !Z.ltb_lt in H'. destruct H' as [[Hy1 Hy2] [Hx1 Hx2]].
  set (h := Z.of_nat (length img)) in *.
  set (w := Z.of_nat (length (row_of img y))) in *.
  assert (Hym : (0 <= y mod h < h)%Z) by (apply Z.mod_pos_bound; lia).
  assert (Hxm : (0 <= x mod w < w)%Z) by (apply Z.mod_pos_bound; lia).
  assert (Hrow : row_of img (y mod h) = row_of img y).
  { unfold row_of. fold h. rewrite Z.mod_mod by lia. reflexivity. }
  rewrite (image_at_inside img (y, x) H).
  rewrite image_at_inside.
  - cbn [fst snd]. rewrite Hrow. fold w. rewrite Z.mod_mod by lia. reflexivity.
  - unfold inside, in_bounds. cbn [fst snd]. rewrite Hrow. fold h w.
    rewrite !andb_true_iff, !Z.leb_le, !Z.ltb_lt. lia.
Qed.

Lemma image_at_wraps_witness :
  image_at [[10; 20]; [30; 40]]%Z (-1, -2)%Z = image_at [[10; 20]; [30; 40]]%Z (1, 0)%Z.
Proof.
  apply (image_at_wraps [[10; 20]; [30; 40]]%Z (-1) (-2)). reflexivity.
Defined.

Lemma py_index_map {A B : Type} (f : A -> B) (l : list A) (i : Z) :
  py_index (map f l) i =
  match py_index l i with
  | Ok a => Ok (f a)
  | Raise e => Raise e
  end.
Proof.
  unfold py_index. rewrite length_map.
  destruct ((0 <=? _)%Z && (_ <? _)%Z)%bool; [|reflexivity].
  rewrite nth_error_map. destruct (nth_error l _); reflexivity.
Qed.

Lemma image_at_brighten (c : Z) (img : image) (p : pixel) :
  image_at (brighten c img) p =
  match image_at img p with
  | Ok v => Ok (c * v)%Z
  | Raise e => Raise e
  end.
Proof.
  unfold image_at, brighten. rewrite py_index_map.
  destruct (py_index img (fst p)) as [row|e]; cbn [bind]; [|reflexivity].
  apply py_index_map.
Qed.

Lemma read_brighten (c : Z) (img : image) (points : list pixel) :
  for_each (image_at (brighten c img)) points =
  match for_each (image_at img) points with
  | Ok sample => Ok (map (Z.mul c) sample)
  | Raise e => Raise e
  end.
Proof.
  induction points as [|p l IH]; [reflexivity|].
  cbn [for_each]. rewrite image_at_brighten, IH.
  destruct (image_at img p); cbn [bind]; [|reflexivity].
  destruct (for_each (image_at img) l); reflexivity.
Qed.

Lemma divnum_brighten (c : Z) (sample : list Z) :
  (0 < c)%Z -> divnum (map (Z.mul c) sample) == inject_Z c * divnum sample.
Proof.
  intros Hc. induction sample as [|x l IH].
  - simpl. ring.
  - change (Qabs (inject_Z (c * x)) + divnum (map (Z.mul c) l)
            == inject_Z c * (Qabs (inject_Z x) + divnum l)).
    rewrite IH. rewrite inject_Z_mult, Qabs_Qmult.
    rewrite (Qabs_pos (inject_Z c)); [ring|].
    change 0 with (inject_Z 0). rewrite <- Zle_Qle. lia.
Qed.

(** Multiplying every intensity of the image by the same positive factor
    changes nothing: [_sample] raises the same exception or returns a
    profile with the same entries. *)
Theorem sample_brightness_invariant (c : Z) (img : image) (points : list pixel) :
  (0 < c)%Z ->
  same_profile (_sample (brighten c img) points) (_sample img points).
Proof.
  intros Hc. unfold _sample. rewrite read_brighten.
  destruct (for_each (image_at img) points) as [sample|e]; cbn [bind]; [|reflexivity].
  assert (Hc0 : ~ inject_Z c == 0).
  { unfold Qeq. simpl. lia. }
  pose proof (divnum_brighten c sample Hc) as Hd.
  destruct (Qeq_dec (divnum sample) 0) as [Hz | Hnz].
  - assert (Hz' : divnum (map (Z.mul c) sample) == 0) by (rewrite Hd, Hz; ring).
    apply Qeq_bool_iff in Hz. apply Qeq_bool_iff in Hz'.
    revert Hz Hz'. generalize (divnum sample) (divnum (map (Z.mul c) sample)).
    intros d d' Hz Hz'.
    destruct sample as [|x l]; [simpl; constructor|].
    cbn [map for_each]. unfold py_div at 1 3.
    rewrite Hz, Hz'. reflexivity.
  - assert (Hnz' : ~ divnum (map (Z.mul c) sample) == 0).
    { rewrite Hd. intros E. apply Qmult_integral in E. tauto. }
    rewrite (for_each_total _ (fun x => inject_Z x / divnum (map (Z.mul c) sample))).
    + rewrite (for_each_total _ (fun x => inject_Z x / divnum sample)).
      * unfold same_profile. rewrite map_map.
        revert Hd Hnz Hnz'.
        generalize (divnum (map (Z.mul c) sample)) (divnum sample).
        intros d' d Hd Hnz Hnz'.
        induction sample as [|x l IH]; simpl; constructor; [|exact IH].
        rewrite inject_Z_mult, Hd. field. split; assumption.
      * intros x _. unfold py_div.
        destruct (Qeq_bool (divnum sample) 0) eqn:E; [|reflexivity].
        apply Qeq_bool_iff in E. contradiction.
    + intros x _. unfold py_div.
      destruct (Qeq_bool (divnum (map (Z.mul c) sample)) 0) eqn:E; [|reflexivity].
      apply Qeq_bool_iff in E. contradiction.
Qed.

Lemma sample_brightness_invariant_witness :
  same_profile (_sample (brighten 3 [[10; 20]; [30; 40]]%Z) [(0, 0); (1, 1)]%Z)
               (_sample [[10; 20]; [30; 40]]%Z [(0, 0); (1, 1)]%Z).
Proof.
  apply (sample_brightness_invariant 3 [[10; 20]; [30; 40]]%Z [(0, 0); (1, 1)]%Z).
  lia.
Defined.

End SamplerImage.

(** ** Sampler.sample: one profile per landmark *)

Module SamplerBatch.
Import Sampler Profile.

Lemma run_each_Forall2 {A B : Type} (f : A -> run B) (l : list A) (bs : list B) :
  run_each f l = Done bs -> Forall2 (fun a b => f a = Done b) l bs.
Proof.
  revert bs. induction l as [|a l IH]; simpl; intros bs H.
  - inversion H. constructor.
  - destruct (f a) as [b| |] eqn:Ea; simpl in H; try discriminate.
    destruct (run_each f l) as [bs'| |]; simpl in H; try discriminate.
    inversion H; subst. constructor; auto.
Qed.

(** Whatever the direction, a returned list of sample points has [2k+1]
    entries. *)
Lemma generate_points_length (fuel k : nat) (start_point direction : point)
    (points : list pixel) :
  _generate_points fuel k start_point direction = Done points ->
  length points = (2 * k + 1)%nat.
Proof.
  unfold _generate_points.
  destruct (landmark_pixel start_point) as [center|]; [|discriminate].
  cbn [of_result run_bind].
  destruct (walk (pos_point _ _) k _ fuel [] 1) as [pos| |] eqn:Ep; try discriminate.
  cbn [run_bind].
  destruct (walk (neg_point _ _) k _ fuel [] 1) as [neg| |] eqn:En; try discriminate.
  cbn [run_bind]. intros H. inversion H; subst. clear H.
  apply SamplerPoints.walk_sound in Ep. apply SamplerPoints.walk_sound in En.
  destruct Ep as [_ [_ [_ [_ [_ [_ [Hp _]]]]]]].
  destruct En as [_ [_ [_ [_ [_ [_ [Hn _]]]]]]].
  specialize (Hp (Nat.le_0_l k)). specialize (Hn (Nat.le_0_l k)).
  unfold pixel in *.
  rewrite length_app, length_rev. simpl. lia.
Qed.

Lemma sample_profile_length (img : image) (points : list pixel) (profile : list Q) :
  _sample img points = Ok profile -> length profile = length points.
Proof.
  unfold _sample.
  destruct (for_each (image_at img) points) as [sample|] eqn:E; [|discriminate].
  cbn [bind]. intros H. apply for_each_length in H. apply for_each_length in E.
  congruence.
Qed.

Section Batch.

Variable normal : point -> point -> point.

Lemma normals_of_short_shape (model_points : list point) :
  (0 < length model_points < 40)%nat ->
  _calculate_normals normal model_points = Raise IndexError.
Proof.
  intros Hlen. unfold _calculate_normals.
  destruct (length model_points) as [|m] eqn:E; [lia|].
  rewrite range_S. apply for_each_raise.
  - intros i Hi. apply in_range in Hi.
    apply SamplerNormals.normal_at_inner_ok; rewrite E; lia.
  - replace (Z.of_nat m) with (Z.of_nat (length model_points) - 1)%Z by (rewrite E; lia).
    apply SamplerNormals.normal_at_last_raises. lia.
Qed.

(** On a shape of at least one and fewer than 40 landmarks [sample] raises
    [IndexError] while it computes the normals: no sample point is generated
    and the image is not read, whatever the image and [k]. *)
Theorem sample_short_shape_raises (fuel : nat) (img : image) (k : nat)
    (model_points : list point) :
  (0 < length model_points < 40)%nat ->
  sample normal fuel img k model_points = Failed IndexError.
Proof.
  intros Hlen. unfold sample.
  rewrite normals_of_short_shape by exact Hlen.
  reflexivity.
Qed.

Lemma sample_done_length (fuel : nat) (img : image) (k : nat) (model_points : list point)
    (samples : list (list Q)) :
  sample normal fuel img k model_points = Done samples ->
  length samples = length model_points.
Proof.
  unfold sample.
  destruct (_calculate_normals normal model_points) as [normals|]; [|discriminate].
  cbn [of_result run_bind]. intros H. apply run_each_Forall2 in H.
  apply Forall2_length in H. rewrite <- H. unfold range.
  now rewrite length_map, length_seq.
Qed.

(** The loop of [sample] from position [length before] on: the profiles
    come in the order of the landmarks. *)
Lemma sample_in_order (fuel : nat) (img : image) (k : nat) (rest : list point) :
  forall (before nbefore nrest : list point) (samples : list (list Q)),
  length nbefore = length before ->
  length nrest = length rest ->
  Forall2
    (fun ind profile =>
       run_bind (of_result (py_index (before ++ rest) ind)) (fun start_point =>
       run_bind (of_result (py_index (nbefore ++ nrest) ind)) (fun direction =>
       run_bind (_generate_points fuel k start_point direction) (fun points =>
       of_result (_sample img points)))) = Done profile)
    (map Z.of_nat (seq (length before) (length rest))) samples ->
  Forall2
    (fun landmark profile =>
       exists points,
         _generate_points fuel k (fst landmark) (snd landmark) = Done points /\
         _sample img points = Ok profile)
    (combine rest nrest) samples.
Proof.
  induction rest as [|p rest IH]; intros before nbefore nrest samples Hb Hr H.
  - simpl in H. inversion H; subst. constructor.
  - destruct nrest as [|d nrest]; [discriminate|].
    cbn [length seq map] in H. inversion H as [|? profile ? samples' Hd Hrest]; subst.
    cbn [combine]. constructor.
    + rewrite (py_index_front _ _ p) in Hd by (rewrite length_app; simpl; lia).
      rewrite Nat2Z.id, nth_middle in Hd. cbn [of_result run_bind] in Hd.
      rewrite <- Hb in Hd.
      rewrite (py_index_front _ _ d) in Hd by (rewrite length_app; simpl; lia).
      rewrite Nat2Z.id, nth_middle in Hd. cbn [of_result run_bind] in Hd.
      cbn [fst snd].
      destruct (_generate_points fuel k p d) as [points| |]; try discriminate.
      cbn [run_bind] in Hd.
      destruct (_sample img points) as [prof|] eqn:Es; [|discriminate].
      inversion Hd; subst. exists points. split; [reflexivity | exact Es].
    + apply (IH (before ++ [p]) (nbefore ++ [d]) nrest samples').
      * rewrite !length_app. simpl. lia.
      * simpl in Hr. lia.
      * rewrite <- !app_assoc. cbn [app].
        replace (length (before ++ [p])) with (S (length before))
          by (rewrite length_app; simpl; lia).
        exact Hrest.
Qed.

(** When [sample] returns, it returns one profile per landmark, in the
    order of the landmarks: the profile at each position is the one
    [_sample] reads at the points that [_generate_points] gives for the
    landmark and the normal at that position; every profile has [2k+1]
    entries. *)
Theorem sample_shape (fuel : nat) (img : image) (k : nat) (model_points : list point)
    (samples : list (list Q)) :
  sample normal fuel img k model_points = Done samples ->
  exists normals : list point,
    _calculate_normals normal model_points = Ok normals /\
    length normals = length model_points /\
    length samples = length model_points /\
    Forall2
      (fun landmark profile =>
         exists points,
           _generate_points fuel k (fst landmark) (snd landmark) = Done points /\
           _sample img points = Ok profile)
      (combine model_points normals) samples /\
    Forall (fun profile => length profile = (2 * k + 1)%nat) samples.
Proof.
  unfold sample.
  destruct (_calculate_normals normal model_points) as [normals|] eqn:En; [|discriminate].
  cbn [of_result run_bind]. intros H. apply run_each_Forall2 in H.
  assert (Hn : length normals = length model_points).
  { unfold _calculate_normals in En. apply for_each_length in En.
    rewrite En. unfold range. now rewrite length_map, length_seq. }
  pose proof (sample_in_order fuel img k model_points [] [] normals samples
                eq_refl Hn H) as Hord.
  exists normals. split; [reflexivity|]. split; [exact Hn|]. split; [|split].
  - apply Forall2_length in H. rewrite <- H. unfold range.
    now rewrite length_map, length_seq.
  - exact Hord.
  - clear - Hord. induction Hord as [|landmark profile l samples [points [Hg Hs]] _ IH];
      constructor; [|exact IH].
    rewrite (sample_profile_length _ _ _ Hs). now apply generate_points_length in Hg.
Qed.

End Batch.

(** A shape of 40 landmarks, ten on every side of a square, and an image of
    constant intensity around it. *)
Definition square : list point :=
  map (fun i => grid (20 + Z.of_nat i) 20) (seq 0 10) ++
  map (fun i => grid 30 (20 + Z.of_nat i)) (seq 0 10) ++
  map (fun i => grid (30 - Z.of_nat i) 30) (seq 0 10) ++
  map (fun i => grid 20 (30 - Z.of_nat i)) (seq 0 10).

Definition grey : image := repeat (repeat 1%Z 40) 40.

Lemma sample_short_shape_raises_witness :
  sample SamplerNormals.quarter_turn 10 grey 1 [grid 0 0; grid 0 4; grid 3 0]
  = Failed IndexError.
Proof.
  apply (sample_short_shape_raises SamplerNormals.quarter_turn 10 grey 1
           [grid 0 0; grid 0 4; grid 3 0]).
  simpl. lia.
Defined.

Lemma square_sampled :
  exists samples, sample SamplerNormals.quarter_turn 120 grey 1 square = Done samples.
Proof. eexists. vm_compute. reflexivity. Qed.

Lemma sample_shape_witness :
  exists samples,
    sample SamplerNormals.quarter_turn 120 grey 1 square = Done samples /\
    exists normals : list point,
      _calculate_normals SamplerNormals.quarter_turn square = Ok normals /\
      length normals = length square /\
      length samples = length square /\
      Forall2
        (fun landmark profile =>
           exists points,
             _generate_points 120 1 (fst landmark) (snd landmark) = Done points /\
             _sample grey points = Ok profile)
        (combine square normals) samples /\
      Forall (fun profile => length profile = (2 * 1 + 1)%nat) samples.
Proof.
  destruct square_sampled as [samples H]. exists samples.
  split; [exact H|].
  exact (sample_shape SamplerNormals.quarter_turn 120 grey 1 square samples H).
Defined.

End SamplerBatch.

(** ** Profile.build *)

Module ProfileBuild.
Import Sampler Profile.




(** Every list of [tmp_samples] that has a sample at its position gets that
    sample at its end. *)
Fixpoint zip_append (tmp_samples : list (list (list Q))) (samples : list (list Q))
    : list (list (list Q)) :=
  match tmp_samples, samples with
  | collected :: tmp', row :: samples' => (collected ++ [row]) :: zip_append tmp' samples'
  | _, _ => tmp_samples
  end.

Lemma py_index_In {A : Type} (l : list A) (i : Z) (a : A) :
  py_index l i = Ok a -> In a l.
Proof.
  unfold py_index.
  destruct ((0 <=? _)%Z && (_ <? _)%Z)%bool; [|discriminate].
  destruct (nth_error l _) as [x|] eqn:E; [|discriminate].
  intros H. inversion H; subst. eapply nth_error_In. exact E.
Qed.

Lemma py_index_middle {A : Type} (pre rest : list A) (a : A) :
  py_index (pre ++ a :: rest) (Z.of_nat (length pre)) = Ok a.
Proof.
  rewrite (py_index_front _ _ a) by (rewrite length_app; simpl; lia).
  rewrite Nat2Z.id, nth_middle. reflexivity.
Qed.

Lemma run_fold_seq_inv {St : Type} (P : nat -> St -> Prop) (f : St -> Z -> run St) (n : nat) :
  forall (a : nat) (s s' : St),
  (forall j s1 s2, (a <= j < a + n)%nat -> f s1 (Z.of_nat j) = Done s2 -> P j s1 -> P (S j) s2) ->
  P a s ->
  run_fold f (map Z.of_nat (seq a n)) s = Done s' ->
  P (a + n)%nat s'.
Proof.
  induction n as [|n IH]; intros a s s' Hf Hs H; simpl in H.
  - inversion H; subst. now rewrite Nat.add_0_r.
  - destruct (f s (Z.of_nat a)) as [s1| |] eqn:E; simpl in H; try discriminate.
    replace (a + S n)%nat with (S a + n)%nat by lia.
    apply (IH (S a) s1 s'); [| |exact H].
    + intros j s2 s3 Hj. apply Hf. lia.
    + apply (Hf a s s1); [lia | exact E | exact Hs].
Qed.

Lemma for_fold_inv {A S : Type} (P : S -> Prop) (f : S -> A -> result S) (l : list A) :
  (forall s a s', f s a = Ok s' -> P s -> P s') ->
  forall s s', P s -> for_fold f l s = Ok s' -> P s'.
Proof.
  intros Hf. induction l as [|a l IH]; simpl; intros s s' Hs H.
  - inversion H; subst. exact Hs.
  - destruct (f s a) as [s1|] eqn:E; simpl in H; [|discriminate].
    apply (IH s1 s'); [|exact H]. now apply (Hf s a s1).
Qed.

Section Build.

Variable normal : point -> point -> point.
Variable picture : Type.
Variable preprocess : picture -> image.
Variable np_mean : list (list Q) -> list Q.
Variable np_cov : list (list Q) -> list (list Q).




(** The loop over the samples of one image, from any position on. *)
Lemma add_samples_from (todo : list (list Q)) :
  forall (done : list (list Q)) (pre rest : list (list (list Q))),
  length pre = length done ->
  for_fold (fun tmp i => append_at tmp (done ++ todo) i)
    (map Z.of_nat (seq (length done) (length todo))) (pre ++ rest) =
  if (length todo <=? length rest)%nat then Ok (pre ++ zip_append rest todo)
  else Raise IndexError.
Proof.
  induction todo as [|row todo IH]; intros done pre rest Hlen.
  - simpl. destruct rest; reflexivity.
  - cbn [length seq map for_fold]. unfold append_at at 1.
    destruct rest as [|collected rest].
    + rewrite app_nil_r. rewrite py_index_out by lia. reflexivity.
    + rewrite <- Hlen. rewrite py_index_middle. cbn [bind].
      rewrite Hlen. rewrite py_index_middle. cbn [bind].
      rewrite Nat2Z.id, <- Hlen.
      replace (firstn (length pre) (pre ++ collected :: rest)) with pre
        by (rewrite firstn_app, Nat.sub_diag, firstn_all; simpl; now rewrite app_nil_r).
      replace (skipn (S (length pre)) (pre ++ collected :: rest)) with rest.
      2:{ rewrite skipn_app, skipn_all2 by lia.
          replace (S (length pre) - length pre)%nat with 1%nat by lia. reflexivity. }
      replace (pre ++ (collected ++ [row]) :: rest)
        with ((pre ++ [collected ++ [row]]) ++ rest)
        by (rewrite <- app_assoc; reflexivity).
      replace (done ++ row :: todo) with ((done ++ [row]) ++ todo)
        by (rewrite <- app_assoc; reflexivity).
      replace (S (length pre)) with (length (done ++ [row]))
        by (rewrite length_app; simpl; lia).
      rewrite IH by (rewrite !length_app; simpl; lia).
      cbn [length zip_append].
      change (S (length todo) <=? S (length rest))%nat
        with (length todo <=? length rest)%nat.
      destruct (length todo <=? length rest)%nat; [|reflexivity].
      rewrite <- app_assoc. reflexivity.
Qed.

(** The samples of one image go to the landmarks by position: with no more
    samples than landmark lists every sample is appended to the list at its
    position and the remaining lists are left as they are; with more samples
    than lists the loop raises [IndexError]. *)
Theorem add_samples_by_position (tmp_samples : list (list (list Q)))
    (samples : list (list Q)) :
  ((length samples <= length tmp_samples)%nat ->
   add_samples tmp_samples samples = Ok (zip_append tmp_samples samples)) /\
  ((length tmp_samples < length samples)%nat ->
   add_samples tmp_samples samples = Raise IndexError).
Proof.
  pose proof (add_samples_from samples [] [] tmp_samples eq_refl) as H.
  cbn [app length] in H. unfold add_samples, range. rewrite H. split; intros Hlen.
  - apply Nat.leb_le in Hlen. rewrite Hlen. reflexivity.
  - apply Nat.leb_gt in Hlen. rewrite Hlen. reflexivity.
Qed.

Lemma zip_append_lengths (j : nat) (tmp : list (list (list Q))) (samples : list (list Q)) :
  length samples = length tmp ->
  Forall (fun collected => length collected = j) tmp ->
  Forall (fun collected => length collected = S j) (zip_append tmp samples).
Proof.
  revert samples. induction tmp as [|t tmp IH]; intros samples Hlen Hall.
  - constructor.
  - destruct samples as [|row samples]; [discriminate|].
    inversion Hall; subst. cbn [zip_append]. constructor.
    + rewrite length_app. simpl. lia.
    + apply IH; [simpl in Hlen; lia | assumption].
Qed.

(** When all models have as many landmarks as the first and [build]
    returns, the statistics of every landmark are taken over exactly one
    profile per image. *)
Theorem build_one_profile_per_image (fuel : nat) (st st' : Profile picture)
    (first : list point) :
  hd_error (models picture st) = Some first ->
  Forall (fun model => length model = length first) (models picture st) ->
  build normal picture preprocess np_mean np_cov fuel st = Done st' ->
  exists tmp_samples : list (list (list Q)),
    profiles picture st' = profiles picture st ++ map np_mean tmp_samples /\
    covariance picture st' = covariance picture st ++ map np_cov tmp_samples /\
    length tmp_samples = length first /\
    Forall (fun collected => length collected = length (images picture st)) tmp_samples.
Proof.
  intros Hfirst Hall. unfold build.
  destruct (models picture st) as [|m rest] eqn:Em; [discriminate|].
  simpl in Hfirst. injection Hfirst as ->.
  change (py_index (first :: rest) 0) with (Ok first : result (list point)).
  cbn [of_result run_bind].
  destruct (collect normal picture preprocess fuel st _) as [tmp| |] eqn:Ec;
    try discriminate.
  cbn [run_bind]. intros H. inversion H; subst. clear H. cbn.
  exists tmp. split; [reflexivity|]. split; [reflexivity|].
  unfold collect, range in Ec.
  apply (run_fold_seq_inv
           (fun j t => length t = length first /\
                       Forall (fun collected => length collected = j) t)) in Ec.
  - exact Ec.
  - intros j s1 s2 Hj Hs [Hl Hf].
    destruct (py_index (images picture st) (Z.of_nat j)); [|discriminate].
    cbn [of_result run_bind] in Hs.
    destruct (py_index (models picture st) (Z.of_nat j)) as [model|] eqn:Emod;
      [|discriminate].
    cbn [of_result run_bind] in Hs.
    destruct (sample normal fuel _ _ model) as [samples| |] eqn:Es; try discriminate.
    cbn [run_bind] in Hs.
    destruct (add_samples s1 samples) as [s|] eqn:Ea; [|discriminate].
    inversion Hs; subst. clear Hs.
    apply SamplerBatch.sample_done_length in Es.
    apply py_index_In in Emod. rewrite Em in Emod.
    rewrite Forall_forall in Hall. rewrite (Hall model Emod) in Es.
    pose proof (add_samples_from samples [] [] s1 eq_refl) as Hz.
    cbn [app length] in Hz. unfold add_samples, range in Ea. rewrite Hz in Ea.
    replace (length samples <=? length s1)%nat with true in Ea
      by (symmetry; apply Nat.leb_le; lia).
    inversion Ea; subst. split.
    + clear - Hl Es. revert samples Es. rewrite <- Hl. clear Hl.
      induction s1 as [|t s1 IH]; intros samples Es; [reflexivity|].
      destruct samples as [|row samples]; [discriminate|].
      cbn [zip_append length]. f_equal. apply IH. simpl in Es. lia.
    + apply zip_append_lengths; [lia | exact Hf].
  - split.
    + now rewrite !length_map, length_seq.
    + apply Forall_forall. intros t Ht. apply in_map_iff in Ht.
      destruct Ht as [x [<- _]]. reflexivity.
Qed.

(** Without models [build] raises [IndexError], at [self.models[0]]. *)
Theorem build_without_models (fuel : nat) (st : Profile picture) :
  models picture st = [] ->
  build normal picture preprocess np_mean np_cov fuel st = Failed IndexError.
Proof.
  intros H. unfold build. rewrite H. reflexivity.
Qed.


(** With at least one image and a first model of fewer than 40 (and at
    least one) landmarks, [build] raises [IndexError]: the sampler of the
    first image fails on its normals. *)
Theorem build_short_model_raises (fuel : nat) (st : Profile picture)
    (first : list point) :
  images picture st <> [] ->
  hd_error (models picture st) = Some first ->
  (0 < length first < 40)%nat ->
  build normal picture preprocess np_mean np_cov fuel st = Failed IndexError.
Proof.
  intros Hi Hm Hlen. unfold build, collect.
  destruct (models picture st) as [|m rest] eqn:Em; [discriminate|].
  simpl in Hm. injection Hm as ->.
  destruct (images picture st) as [|path paths] eqn:Ei; [congruence|].
  change (py_index (first :: rest) 0) with (Ok first : result (list point)).
  cbn [of_result run_bind].
  change (length (path :: paths)) with (S (length paths)).
  unfold range. cbn [seq map run_fold].
  change (py_index (path :: paths) (Z.of_nat 0)) with (Ok path : result picture).
  change (py_index (first :: rest) (Z.of_nat 0)) with (Ok first : result (list point)).
  cbn [of_result run_bind].
  unfold sample. rewrite SamplerBatch.normals_of_short_shape by exact Hlen.
  reflexivity.
Qed.

End Build.

(** Examples: two pictures of the grey image with the square as their model,
    the column means for [np.mean(a, axis=0)] and the unbiased covariance of
    the columns for [np.cov(a, rowvar=0)]. *)
Definition column (rows : list (list Q)) (j : nat) : list Q :=
  map (fun row => nth j row 0%Q) rows.

Definition total (xs : list Q) : Q := fold_right Qplus 0%Q xs.

Definition mean_of (xs : list Q) : Q := (total xs / inject_Z (Z.of_nat (length xs)))%Q.

Definition width (rows : list (list Q)) : nat := length (hd [] rows).

Definition column_means (rows : list (list Q)) : list Q :=
  map (fun j => mean_of (column rows j)) (seq 0 (width rows)).

Definition column_cov (rows : list (list Q)) : list (list Q) :=
  map (fun a =>
    map (fun b =>
      (total (map (fun row => (nth a row 0 - mean_of (column rows a)) *
                              (nth b row 0 - mean_of (column rows b))) rows)
       / inject_Z (Z.of_nat (length rows) - 1))%Q)
      (seq 0 (width rows)))
    (seq 0 (width rows)).

Definition two_squares : Profile nat :=
  {| images := [0; 1]%nat;
     models := [SamplerBatch.square; SamplerBatch.square];
     k := 1;
     profiles := [];
     covariance := [] |}.

Definition no_models : Profile nat :=
  {| images := [0]%nat; models := []; k := 1; profiles := []; covariance := [] |}.

Definition triangle_model : Profile nat :=
  {| images := [0]%nat;
     models := [[grid 0 0; grid 0 4; grid 3 0]];
     k := 1;
     profiles := [];
     covariance := [] |}.

Lemma two_squares_built :
  exists st',
    build SamplerNormals.quarter_turn nat (fun _ => SamplerBatch.grey)
      column_means column_cov 120 two_squares = Done st'.
Proof. eexists. vm_compute. reflexivity. Qed.

Lemma add_samples_by_position_witness :
  add_samples [[]; []; []] [[1]; [2]]%Q = Ok [[[1]]; [[2]]; []]%Q /\
  add_samples [[]] [[1]; [2]]%Q = Raise IndexError.
Proof.
  split.
  - apply (proj1 (add_samples_by_position [[]; []; []] [[1]; [2]]%Q)). simpl. lia.
  - apply (proj2 (add_samples_by_position [[]] [[1]; [2]]%Q)). simpl. lia.
Defined.

Lemma build_without_models_witness :
  build SamplerNormals.quarter_turn nat (fun _ => SamplerBatch.grey)
    column_means column_cov 10 no_models = Failed IndexError.
Proof.
  apply (build_without_models SamplerNormals.quarter_turn nat (fun _ => SamplerBatch.grey)
           column_means column_cov 10 no_models).
  reflexivity.
Defined.

Lemma build_short_model_raises_witness :
  build SamplerNormals.quarter_turn nat (fun _ => SamplerBatch.grey)
    column_means column_cov 10 triangle_model = Failed IndexError.
Proof.
  apply (build_short_model_raises SamplerNormals.quarter_turn nat
           (fun _ => SamplerBatch.grey) column_means column_cov 10 triangle_model
           [grid 0 0; grid 0 4; grid 3 0]).
  - discriminate.
  - reflexivity.
  - simpl. lia.
Defined.


Lemma build_one_profile_per_image_witness :
  exists st',
    build SamplerNormals.quarter_turn nat (fun _ => SamplerBatch.grey)
      column_means column_cov 120 two_squares = Done st' /\
    exists tmp_samples : list (list (list Q)),
      profiles nat st' = profiles nat two_squares ++ map column_means tmp_samples /\
      covariance nat st' = covariance nat two_squares ++ map column_cov tmp_samples /\
      length tmp_samples = length SamplerBatch.square /\
      Forall (fun collected => length collected = length (images nat two_squares))
        tmp_samples.
Proof.
  destruct two_squares_built as [st' H]. exists st'. split; [exact H|].
  apply (build_one_profile_per_image SamplerNormals.quarter_turn nat
           (fun _ => SamplerBatch.grey) column_means column_cov 120 two_squares st'
           SamplerBatch.square).
  - reflexivity.
  - repeat constructor.
  - exact H.
Defined.

End ProfileBuild.

(** ** VarianceModel: the guards of the getters and a failed fit *)

Module VarianceEdge.
Import VarianceModel.

Section Variance.

Variable matrix : Type.
Variable np_cov : matrix -> matrix.
Variable eigvalsh : matrix -> result (list Q).
Variable pca_fit : Z -> matrix -> result fit.

(** The covariance is computed by the first [obtain_components] and by no
    other call. *)
Lemma covariance_inv (dev : matrix) (calls : list call) :
  covariance matrix (after_calls matrix np_cov pca_fit dev calls) = None <->
  existsb is_obtain calls = false.
Proof using matrix np_cov pca_fit.
  clear eigvalsh.
  induction calls as [|c calls IH] using rev_ind.
  - simpl. tauto.
  - rewrite VarianceFacts.after_calls_snoc, existsb_app. simpl.
    destruct c; simpl; rewrite ?orb_false_r; try exact IH.
    rewrite orb_true_r. unfold obtain_components.
    destruct (covariance matrix (after_calls matrix np_cov pca_fit dev calls)) eqn:Ec.
    + destruct (pca_fit _ _); simpl; rewrite Ec; split; discriminate.
    + destruct (pca_fit _ _); simpl; split; discriminate.
Qed.

(** [get_eigenvalues] has no guard of its own.  Before any
    [obtain_components] call it raises [LinAlgError], not the [ValueError]
    that the other two getters raise for a model that was not computed.
    After one it raises [LinAlgError] exactly when [eigvalsh] does on the
    covariance of the deviation data, and whatever it raises is the
    exception of [eigvalsh] or the [AttributeError] of an unfitted [PCA]. *)
Theorem get_eigenvalues_unguarded (dev : matrix) (calls : list call) :
  let st := after_calls matrix np_cov pca_fit dev calls in
  (existsb is_obtain calls = false ->
   get_eigenvalues matrix eigvalsh st = Raise LinAlgError) /\
  (existsb is_obtain calls = true ->
   (get_eigenvalues matrix eigvalsh st = Raise LinAlgError <->
    eigvalsh (np_cov dev) = Raise LinAlgError) /\
   (forall e, get_eigenvalues matrix eigvalsh st = Raise e ->
      eigvalsh (np_cov dev) = Raise e \/ e = AttributeError)).
Proof.
  intros st.
  destruct (VarianceFacts.after_calls_inv matrix np_cov pca_fit dev calls)
    as [_ [Hp [_ Hpc]]].
  pose proof (covariance_inv dev calls) as Hc.
  fold st in Hp, Hc, Hpc. unfold get_eigenvalues. split.
  - intros Hno. apply Hc in Hno. rewrite Hno. reflexivity.
  - intros Hsome.
    assert (Hpca : pca_fitter matrix st <> None).
    { intros H. apply Hp in H. congruence. }
    rewrite (Hpc Hpca).
    destruct (eigvalsh (np_cov dev)) as [eigenvals|e0]; cbn [bind].
    + destruct (pca_fitter matrix st) as [p|]; [|congruence].
      unfold attribute. destruct (fitted p); cbn [bind]; split;
        try (split; discriminate);
        intros e H; try discriminate; injection H as <-; now right.
    + split; [split; intros H; exact H|].
      intros e H. now left.
Qed.

(** When the fit of an [obtain_components] call raises, the call raises the
    same exception and leaves an unfitted [PCA] behind: from then on
    [get_components] and [get_variances_explained] raise [AttributeError],
    not the [ValueError] of a model that was not computed; the covariance is
    the one of the deviation data, and [get_eigenvalues] raises what
    [eigvalsh] raises on it or, when [eigvalsh] returns, [AttributeError]. *)
Theorem failed_fit_leaves_unfitted (dev : matrix) (calls : list call) (num_comp : Z)
    (e : exn) :
  pca_fit num_comp dev = Raise e ->
  let r := obtain_components matrix np_cov pca_fit num_comp
             (after_calls matrix np_cov pca_fit dev calls) in
  snd r = Raise e /\
  get_components matrix (fst r) = Raise AttributeError /\
  get_variances_explained matrix (fst r) = Raise AttributeError /\
  covariance matrix (fst r) = Some (np_cov dev) /\
  get_eigenvalues matrix eigvalsh (fst r) =
    (_ <- eigvalsh (np_cov dev) ;; Raise AttributeError).
Proof.
  intros Hfit r.
  destruct (VarianceFacts.after_calls_inv matrix np_cov pca_fit dev calls)
    as [Hd [_ [Hc _]]].
  subst r. unfold obtain_components.
  destruct (covariance matrix (after_calls matrix np_cov pca_fit dev calls)) eqn:Ec.
  - destruct Hc as [Hc | Hc]; [discriminate|]. injection Hc as ->.
    rewrite Hd, Hfit. unfold get_components, get_variances_explained, get_eigenvalues.
    simpl. rewrite Ec. repeat split; reflexivity.
  - simpl. rewrite Hd, Hfit.
    unfold get_components, get_variances_explained, get_eigenvalues.
    simpl. repeat split; reflexivity.
Qed.

End Variance.

Lemma get_eigenvalues_unguarded_witness :
  get_eigenvalues VarianceFacts.array VarianceFacts.eigvalsh_diagonal
    (after_calls VarianceFacts.array VarianceFacts.cov
       (fun _ _ => Ok VarianceFacts.single_fit) VarianceFacts.single_data
       [GetComponents]) = Raise LinAlgError /\
  get_eigenvalues VarianceFacts.array VarianceFacts.eigvalsh_diagonal
    (after_calls VarianceFacts.array VarianceFacts.cov
       (fun _ _ => Ok VarianceFacts.single_fit) VarianceFacts.single_data
       [Obtain 1]) = Raise LinAlgError.
Proof.
  split.
  - apply (proj1 (get_eigenvalues_unguarded VarianceFacts.array VarianceFacts.cov
                    VarianceFacts.eigvalsh_diagonal
                    (fun _ _ => Ok VarianceFacts.single_fit)
                    VarianceFacts.single_data [GetComponents])).
    reflexivity.
  - apply (proj1 (proj2 (get_eigenvalues_unguarded VarianceFacts.array VarianceFacts.cov
                           VarianceFacts.eigvalsh_diagonal
                           (fun _ _ => Ok VarianceFacts.single_fit)
                           VarianceFacts.single_data [Obtain 1]) eq_refl)).
    reflexivity.
Defined.

(** A fit that raises on a model of one shape: [get_eigenvalues] then
    raises the [LinAlgError] of [eigvalsh], which comes first. *)
Lemma failed_fit_leaves_unfitted_witness :
  get_components VarianceFacts.array
    (fst (obtain_components VarianceFacts.array VarianceFacts.cov
            (fun _ _ => Raise ValueError) 5
            (after_calls VarianceFacts.array VarianceFacts.cov
               (fun _ _ => Raise ValueError) VarianceFacts.single_data [GetComponents])))
  = Raise AttributeError /\
  get_eigenvalues VarianceFacts.array VarianceFacts.eigvalsh_diagonal
    (fst (obtain_components VarianceFacts.array VarianceFacts.cov
            (fun _ _ => Raise ValueError) 5
            (after_calls VarianceFacts.array VarianceFacts.cov
               (fun _ _ => Raise ValueError) VarianceFacts.single_data [GetComponents])))
  = Raise LinAlgError.
Proof.
  pose proof (failed_fit_leaves_unfitted VarianceFacts.array VarianceFacts.cov
                VarianceFacts.eigvalsh_diagonal (fun _ _ => Raise ValueError)
                VarianceFacts.single_data [GetComponents] 5%Z ValueError eq_refl) as H.
  split; [exact (proj1 (proj2 H)) | exact (proj2 (proj2 (proj2 (proj2 H))))].
Defined.

End VarianceEdge.

(** ** VarianceModel.__init__: the deviation data *)

Module VarianceDeviation.
Import Procrustes Deviation.
Local Open Scope R_scope.

Definition vscale (k : R) (v : list point) : list point :=
  map (fun p => (k * fst p, k * snd p)) v.

Lemma vscale_one (v : list point) : vscale 1 v = v.
Proof.
  unfold vscale. rewrite <- (map_id v) at 2. apply map_ext.
  intros [y x]. simpl. f_equal; ring.
Qed.

Lemma length_vadd (u v : list point) :
  length u = length v -> length (vadd u v) = length v.
Proof.
  revert v. induction u as [|a u IH]; intros [|b v] H; try discriminate; simpl.
  - reflexivity.
  - f_equal. apply IH. simpl in H. lia.
Qed.

Lemma vadd_vsub (c : list point) :
  forall (acc r : list point) (k : R),
  length acc = length c -> length r = length c ->
  vadd (vsub acc (vscale k c)) (vsub r c) = vsub (vadd acc r) (vscale (k + 1) c).
Proof.
  induction c as [|q c IH]; intros [|a acc] [|b r] k Ha Hr; try discriminate.
  - reflexivity.
  - cbn [vscale map vsub vadd]. f_equal.
    + unfold padd, psub. cbn [fst snd]. f_equal; ring.
    + apply IH; simpl in *; lia.
Qed.

Lemma sum_of_deviations (c : list point) (rs : list (list point)) :
  forall (acc : list point) (k : R),
  length acc = length c ->
  Forall (fun r => length r = length c) rs ->
  fold_left vadd (map (fun r => vsub r c) rs) (vsub acc (vscale k c)) =
  vsub (fold_left vadd rs acc) (vscale (k + INR (length rs)) c).
Proof.
  induction rs as [|r rs IH]; intros acc k Ha Hall.
  - simpl. now rewrite Rplus_0_r.
  - inversion Hall as [|? ? Hr Hrs]; subst.
    cbn [map fold_left]. rewrite vadd_vsub by assumption.
    rewrite IH; [|rewrite length_vadd; congruence | assumption].
    change (length (r :: rs)) with (S (length rs)). rewrite S_INR.
    cbn [fold_left]. f_equal. f_equal. ring.
Qed.

Lemma length_fold_vadd (rs : list (list point)) :
  forall (acc : list point),
  Forall (fun r => length r = length acc) rs ->
  length (fold_left vadd rs acc) = length acc.
Proof.
  induction rs as [|r rs IH]; intros acc Hall; [reflexivity|].
  inversion Hall as [|? ? Hr Hrs]; subst. cbn [fold_left].
  assert (Hl : length (vadd acc r) = length acc)
    by (rewrite length_vadd; congruence).
  rewrite IH; [exact Hl|].
  eapply Forall_impl; [|exact Hrs]. intros x Hx. simpl in Hx. congruence.
Qed.

Lemma vsub_own_mean (n : R) (s : list point) :
  n <> 0 ->
  vsub s (vscale n (map (fun p => (fst p / n, snd p / n)) s)) = map (fun _ => (0, 0)) s.
Proof.
  intros Hn. induction s as [|[y x] s IH]; [reflexivity|].
  cbn [map vscale vsub]. f_equal; [|exact IH].
  unfold psub. cbn [fst snd]. f_equal; field; exact Hn.
Qed.

(** The deviation data are centred: when all shapes have the same number of
    landmarks, the column means of [self.deviation] are zero in every
    coordinate. *)
Theorem deviation_centred (rm : ReferentModel) (m : nat) :
  Forall (fun d => length (points d) = m) (shapes rm) ->
  column_mean (deviation_of rm) = zeros_like (mean_model (shapes rm)).
Proof.
  unfold deviation_of, retrieve_as_matrix, mean_model, _convert_collection_to_matrix.
  intros Hall.
  assert (Hrows : Forall (fun r : list point => length r = m) (map as_vector (shapes rm))).
  { apply Forall_forall. intros r Hr. apply in_map_iff in Hr.
    destruct Hr as [d [<- Hd]]. rewrite Forall_forall in Hall. now apply Hall. }
  clear Hall. destruct (map as_vector (shapes rm)) as [|r rs] eqn:E; [reflexivity|].
  inversion Hrows as [|? ? Hr Hrs]; subst.
  unfold column_mean. cbn [map length]. rewrite length_map.
  set (n := INR (S (length rs))).
  assert (Hn : n <> 0) by (subst n; apply not_0_INR; discriminate).
  set (s := fold_left vadd rs r).
  assert (Hs : length s = length r) by (apply length_fold_vadd; exact Hrs).
  set (c := map (fun p : R * R => (fst p / n, snd p / n)) s).
  assert (Hc : length c = length r) by (subst c; now rewrite length_map).
  replace (vsub r c) with (vsub r (vscale 1 c)) by now rewrite vscale_one.
  assert (Hrc : Forall (fun x : list point => length x = length c) rs).
  { eapply Forall_impl; [|exact Hrs]. intros x Hx. simpl in Hx.
    now rewrite Hx, Hc. }
  rewrite (sum_of_deviations c rs r 1 (eq_sym Hc) Hrc).
  fold s. replace (1 + INR (length rs)) with n
    by (subst n; rewrite S_INR; ring).
  subst c. rewrite vsub_own_mean by exact Hn.
  unfold zeros_like. rewrite !map_map. apply map_ext.
  intros p. cbn [fst snd]. f_equal; field; exact Hn.
Qed.

Definition two_segments : ReferentModel :=
  {| shapes := [ read_vector new_collector [(0, 0); (2, 4)];
                 read_vector new_collector [(4, 2); (6, 0)] ];
     mean_shape := new_collector |}.

Lemma deviation_centred_witness :
  column_mean (deviation_of two_segments) = zeros_like (mean_model (shapes two_segments)).
Proof.
  apply (deviation_centred two_segments 2). repeat constructor.
Defined.

End VarianceDeviation.

(** ** ReferentModel: the weights of the landmarks *)

Module WeightFacts.
Import Procrustes Weights.
Local Open Scope R_scope.

Lemma rsum_from (xs : list R) : forall a, fold_left Rplus xs a = a + rsum xs.
Proof.
  unfold rsum. induction xs as [|x xs IH]; intros a; simpl.
  - ring.
  - rewrite (IH (a + x)), (IH (0 + x)). ring.
Qed.

Lemma rsum_cons (x : R) (xs : list R) : rsum (x :: xs) = x + rsum xs.
Proof. unfold rsum at 1. simpl. rewrite rsum_from. ring. Qed.

Lemma rsum_div (s : R) (ws : list R) :
  rsum (map (fun w => w / s) ws) = rsum ws / s.
Proof.
  induction ws as [|w ws IH].
  - unfold rsum. simpl. unfold Rdiv. ring.
  - cbn [map]. rewrite !rsum_cons, IH. unfold Rdiv. ring.
Qed.

Lemma rsum_nonneg (ws : list R) : Forall (fun w => 0 <= w) ws -> 0 <= rsum ws.
Proof.
  induction 1 as [|w ws Hw _ IH].
  - unfold rsum. simpl. lra.
  - rewrite rsum_cons. lra.
Qed.

Lemma rsum_pos (w : R) (ws : list R) : Forall (fun w => 0 < w) (w :: ws) -> 0 < rsum (w :: ws).
Proof.
  intros H. inversion H as [|? ? Hw Hws]; subst. rewrite rsum_cons.
  assert (0 <= rsum ws); [|lra].
  apply rsum_nonneg. eapply Forall_impl; [|exact Hws]. intros; simpl in *; lra.
Qed.

Lemma std_nonneg (xs : list R) : 0 <= std xs.
Proof. apply sqrt_pos. Qed.

Lemma std_single (x : R) : std [x] = 0.
Proof.
  unfold std, mean, rsum. cbn [map fold_left length INR].
  replace ((0 + (x - (0 + x) / 1) * (x - (0 + x) / 1)) / 1) with 0 by field.
  apply sqrt_0.
Qed.

Lemma squares_zero (xs : list R) (m : R) :
  rsum (map (fun x => (x - m) * (x - m)) xs) = 0 -> Forall (fun x => x = m) xs.
Proof.
  induction xs as [|x xs IH]; [constructor|].
  cbn [map]. rewrite rsum_cons. intros H.
  assert (Hx : 0 <= (x - m) * (x - m)) by exact (Rle_0_sqr (x - m)).
  assert (Hr : 0 <= rsum (map (fun x => (x - m) * (x - m)) xs)).
  { apply rsum_nonneg. apply Forall_forall. intros y Hy. apply in_map_iff in Hy.
    destruct Hy as [z [<- _]]. exact (Rle_0_sqr (z - m)). }
  constructor; [|apply IH; lra].
  assert (H0 : (x - m) * (x - m) = 0) by lra.
  apply Rmult_integral in H0. lra.
Qed.

(** A deviation of zero: all values are the same. *)
Lemma std_nonzero (xs : list R) (x : R) :
  In x xs -> x <> mean xs -> std xs <> 0.
Proof.
  intros Hin Hx Hs. unfold std in Hs.
  set (m := mean xs) in *.
  assert (Hn : 0 < INR (length xs)).
  { apply lt_0_INR. destruct xs; [contradiction | simpl; lia]. }
  assert (Hsq : 0 <= rsum (map (fun x => (x - m) * (x - m)) xs)).
  { apply rsum_nonneg. apply Forall_forall. intros y Hy. apply in_map_iff in Hy.
    destruct Hy as [z [<- _]]. exact (Rle_0_sqr (z - m)). }
  apply sqrt_eq_0 in Hs.
  - unfold mean in Hs. rewrite length_map in Hs.
    assert (H0 : rsum (map (fun x => (x - m) * (x - m)) xs) = 0).
    { apply (Rmult_eq_reg_r (/ INR (length xs))).
      - unfold Rdiv in Hs. rewrite Hs. ring.
      - apply Rinv_neq_0_compat. lra. }
    apply squares_zero in H0. rewrite Forall_forall in H0. now apply Hx, H0.
  - unfold mean. rewrite length_map. apply Rmult_le_pos; [exact Hsq|].
    left. now apply Rinv_0_lt_compat.
Qed.

Lemma np_std_nonneg (rows : list (list R)) : Forall (fun s => 0 <= s) (np_std rows).
Proof.
  unfold np_std. apply Forall_forall. intros s Hs. apply in_map_iff in Hs.
  destruct Hs as [j [<- _]]. apply std_nonneg.
Qed.

Lemma reciprocals_some (xs ws : list R) :
  Forall (fun s => 0 <= s) xs ->
  reciprocals xs = Some ws ->
  length ws = length xs /\ Forall (fun w => 0 < w) ws.
Proof.
  revert ws. induction xs as [|x xs IH]; intros ws Hall H; simpl in H.
  - inversion H; subst. split; [reflexivity | constructor].
  - inversion Hall as [|? ? Hx Hxs]; subst.
    destruct (Req_EM_T x 0) as [|Hnz]; [discriminate|].
    destruct (reciprocals xs) as [ws'|]; [|discriminate].
    inversion H; subst. destruct (IH ws' Hxs eq_refl) as [Hl Hp]. split.
    + simpl. now rewrite Hl.
    + constructor; [|exact Hp]. apply Rdiv_lt_0_compat; lra.
Qed.

Lemma reciprocals_all (xs : list R) :
  Forall (fun s => s <> 0) xs -> exists ws, reciprocals xs = Some ws.
Proof.
  induction 1 as [|x xs Hx _ [ws IH]]; simpl.
  - now exists [].
  - destruct (Req_EM_T x 0); [contradiction|]. rewrite IH. simpl. now eexists.
Qed.

Lemma fold_max_spec (ws : list R) :
  forall w, In (fold_left Rmax ws w) (w :: ws) /\
            Forall (fun x => x <= fold_left Rmax ws w) (w :: ws).
Proof.
  induction ws as [|v ws IH]; intros w.
  - simpl. split; [now left|]. constructor; [lra | constructor].
  - cbn [fold_left]. destruct (IH (Rmax w v)) as [Hin Hall].
    inversion Hall as [|? ? Hm Hrest]; subst. split.
    + destruct Hin as [Hin | Hin]; [|now right; right].
      rewrite <- Hin. unfold Rmax. destruct (Rle_dec w v); [right; now left | now left].
    + pose proof (Rmax_l w v). pose proof (Rmax_r w v).
      constructor; [lra|]. constructor; [lra | exact Hrest].
Qed.

Section Distances.

Variable euclidean_distance : point -> point -> R.

Lemma length_np_std (shape : list point) (rest : list (list point)) :
  length (np_std (map (distances_of euclidean_distance) (shape :: rest))) = length shape.
Proof.
  unfold np_std, distances_of. cbn [map hd]. now rewrite !length_map, length_seq.
Qed.

(** On a single shape with at least one landmark the weights are not
    finite, whatever the norm: every deviation is zero. *)
Theorem weights_single_shape (norm : string) (shape : list point) :
  shape <> [] ->
  _calculate_weights euclidean_distance norm [shape] = NonFinite.
Proof.
  intros Hs. unfold _calculate_weights, _calculate_distances_to_points.
  destruct shape as [|p shape]; [congruence|].
  unfold np_std, distances_of. cbn [map hd length seq column nth reciprocals].
  rewrite std_single.
  destruct (Req_EM_T 0 0) as [_|H]; [reflexivity | now contradiction H].
Qed.

(** With the default norm the weights that [_calculate_weights] returns
    are one per landmark, positive, and sum to 1. *)
Theorem weights_sum_to_one (matrix : list (list point)) (ws : list R) :
  _calculate_weights euclidean_distance "normalize" matrix = Returned ws ->
  length ws = length (hd [] matrix) /\
  Forall (fun w => 0 < w) ws /\
  (hd [] matrix <> [] -> rsum ws = 1).
Proof.
  unfold _calculate_weights, _calculate_distances_to_points.
  destruct matrix as [|shape rest]; [discriminate|].
  destruct (reciprocals _) as [weights|] eqn:Er; [|discriminate].
  apply reciprocals_some in Er; [|apply np_std_nonneg].
  destruct Er as [Hl Hp]. rewrite length_np_std in Hl.
  rewrite String.eqb_refl. cbn [hd].
  destruct weights as [|w weights].
  - intros H. inversion H; subst. repeat split; auto.
    intros Hne. destruct shape; [congruence | discriminate].
  - pose proof (rsum_pos w weights Hp) as Hs.
    remember (w :: weights) as l eqn:El.
    destruct (Req_EM_T (rsum l) 0) as [|Hnz]; [discriminate|].
    intros H. injection H as <-. split; [|split].
    + now rewrite length_map.
    + apply Forall_forall. intros x Hx. apply in_map_iff in Hx.
      destruct Hx as [v [<- Hv]]. rewrite Forall_forall in Hp.
      apply Rdiv_lt_0_compat; [now apply Hp | exact Hs].
    + intros _. rewrite rsum_div. now field.
Qed.

(** With the norm ["scale"] the weights that [_calculate_weights] returns
    are one per landmark, lie in the interval [(0, 1]], and the largest of
    them is 1. *)
Theorem weights_scaled (matrix : list (list point)) (ws : list R) :
  _calculate_weights euclidean_distance "scale" matrix = Returned ws ->
  length ws = length (hd [] matrix) /\
  Forall (fun w => 0 < w <= 1) ws /\
  In 1 ws.
Proof.
  unfold _calculate_weights, _calculate_distances_to_points.
  destruct matrix as [|shape rest]; [discriminate|].
  destruct (reciprocals _) as [weights|] eqn:Er; [|discriminate].
  apply reciprocals_some in Er; [|apply np_std_nonneg].
  destruct Er as [Hl Hp]. rewrite length_np_std in Hl.
  change (String.eqb "scale" "normalize") with false.
  rewrite String.eqb_refl. cbn [hd].
  destruct weights as [|w weights]; [discriminate|].
  cbv zeta. destruct (fold_max_spec weights w) as [Hin Hmax].
  remember (fold_left Rmax weights w) as largest eqn:Elargest.
  remember (w :: weights) as l eqn:El.
  assert (Hpos : 0 < largest) by (rewrite Forall_forall in Hp; now apply Hp).
  destruct (Req_EM_T largest 0) as [|Hnz]; [discriminate|].
  intros H. injection H as <-. split; [|split].
  - now rewrite length_map.
  - apply Forall_forall. intros x Hx. apply in_map_iff in Hx.
    destruct Hx as [v [<- Hv]]. rewrite Forall_forall in Hp, Hmax.
    specialize (Hp v Hv). specialize (Hmax v Hv). split.
    + now apply Rdiv_lt_0_compat.
    + replace 1 with (largest / largest) by now field.
      unfold Rdiv. apply Rmult_le_compat_r; [|exact Hmax].
      left. now apply Rinv_0_lt_compat.
  - apply in_map_iff. exists largest. split; [now field | exact Hin].
Qed.

(** When no deviation is zero, the weights are finite. *)
Lemma weights_return (shape : list point) (rest : list (list point)) :
  Forall (fun s => s <> 0)
    (np_std (map (distances_of euclidean_distance) (shape :: rest))) ->
  (exists ws, _calculate_weights euclidean_distance "normalize" (shape :: rest)
              = Returned ws) /\
  (shape <> [] ->
   exists ws, _calculate_weights euclidean_distance "scale" (shape :: rest)
              = Returned ws).
Proof.
  intros Hall. unfold _calculate_weights, _calculate_distances_to_points.
  destruct (reciprocals_all _ Hall) as [weights Er]. rewrite Er.
  pose proof Er as Hw. apply reciprocals_some in Hw; [|apply np_std_nonneg].
  destruct Hw as [Hl Hp]. rewrite length_np_std in Hl.
  change (String.eqb "scale" "normalize") with false.
  rewrite !String.eqb_refl. split.
  - destruct weights as [|w weights]; [now eexists|].
    pose proof (rsum_pos w weights Hp) as Hs.
    remember (w :: weights) as l eqn:El.
    destruct (Req_EM_T (rsum l) 0) as [Hz|]; [lra | now eexists].
  - intros Hne. destruct weights as [|w weights].
    { destruct shape; [congruence | discriminate]. }
    cbv zeta. destruct (fold_max_spec weights w) as [Hin _].
    remember (fold_left Rmax weights w) as largest eqn:Elargest.
    remember (w :: weights) as l eqn:El.
    assert (Hpos : 0 < largest) by (rewrite Forall_forall in Hp; now apply Hp).
    destruct (Req_EM_T largest 0) as [Hz|]; [lra | now eexists].
Qed.

End Distances.

(** Two shapes of two landmarks each, a unit apart in the first and three
    units apart in the second, and the squared distance between landmarks. *)
Definition bars : list (list point) := [[(0, 0); (0, 1)]; [(0, 0); (0, 3)]].

Definition squared_distance (p q : point) : R :=
  (fst p - fst q) * (fst p - fst q) + (snd p - snd q) * (snd p - snd q).

Lemma bars_deviate :
  Forall (fun s => s <> 0) (np_std (map (distances_of squared_distance) bars)).
Proof.
  unfold np_std, bars, distances_of.
  cbn [map hd length seq column nth].
  repeat constructor;
    (eapply std_nonzero; [left; reflexivity|];
     unfold mean, rsum, squared_distance;
     cbn [map fold_left length fst snd INR]; lra).
Qed.

Lemma weights_single_shape_witness :
  _calculate_weights squared_distance "normalize" [[(0, 0); (0, 1)]] = NonFinite.
Proof.
  apply (weights_single_shape squared_distance "normalize" [(0, 0); (0, 1)]).
  discriminate.
Defined.

Lemma weights_sum_to_one_witness :
  exists ws,
    _calculate_weights squared_distance "normalize" bars = Returned ws /\
    length ws = length (hd [] bars) /\
    Forall (fun w => 0 < w) ws /\
    (hd [] bars <> [] -> rsum ws = 1).
Proof.
  destruct (proj1 (weights_return squared_distance _ _ bars_deviate)) as [ws H].
  exists ws. split; [exact H|].
  exact (weights_sum_to_one squared_distance bars ws H).
Defined.

Lemma weights_scaled_witness :
  exists ws,
    _calculate_weights squared_distance "scale" bars = Returned ws /\
    length ws = length (hd [] bars) /\
    Forall (fun w => 0 < w <= 1) ws /\
    In 1 ws.
Proof.
  destruct (proj2 (weights_return squared_distance _ _ bars_deviate)) as [ws H];
    [discriminate|].
  exists ws. split; [exact H|].
  exact (weights_scaled squared_distance bars ws H).
Defined.

End WeightFacts.
